(** * Audio Linguist: segmentation, extraction and WAV encoding

    A shallow embedding of the core of [audio-splitter.js]:
    - [findSegmentsByNumberPattern], the boundary detector,
    - [extractSegmentsFromTimestamps], the extractor,
    - [bufferToWav], the container encoder,
    - [convertAudioTo16kMono], the downmixer and resampler run at upload,
      and the part of [processAudio] that ties them together,
    - [transcribeEntireAudio] and [whisperTranscription] with their guards,
      the pipeline itself being a parameter,
    - [formatTime], the file name of [downloadSegment], and the counter of
      the drag handlers.

    The source holds two revisions of the script.  The three functions
    first named are the same in both.  The later revision, the one that
    [index.html] is written for (it drives the [conversionProgress] and
    [statusIcon] elements of the page), converts the upload with
    [convertAudioTo16kMono] and keeps the result in [this.audioBuffer]; the
    earlier one never assigns [this.audioBuffer] and converts a copy for the
    transcriber with [resampleTo16kMono], which is embedded here as well.

    Conventions of the embedding.
    - A JavaScript number that carries a time or an amplitude is a rational
      [Q], and the arithmetic of the script on numbers ([+], [-], [*], [/],
      comparisons, [Math.floor]) is the exact one: the rounding of 64-bit
      floating point is not modelled.  The inputs of the concrete examples
      below that refute a statement are values on which the script computes
      exactly.  A number that may also come from a read outside a typed
      array is a [sample], which adds [NaN].
    - A [Float32Array] holds 32-bit floats.  A value that the script
      computes and stores into one (the quotient of the downmix) is rounded
      to the nearest 32-bit float by the store, [ToFloat32]; a value that
      was read from a [Float32Array] is a 32-bit float already and is
      stored as it is.
    - Sample indices, sample rates, byte values and integer header fields
      are integers [Z]; positions inside an array are [nat].
    - An exception of the platform (a [RangeError] of [DataView], a
      [NotSupportedError] of [createBuffer], ...) is [None].
    - Logging and DOM updates are left out: they do not feed back into the
      values computed here; the steps of the asynchronous methods are taken
      one method at a time. *)

From Stdlib Require Import ZArith QArith Qround Qabs Qpower Lia Lqa String Ascii.
From Stdlib Require Import DecimalNat DecimalString.
From stdpp Require Import base list.

Open Scope Q_scope.

(** ** JavaScript numbers and strings *)

(** [a >= b] on numbers is [Qle_bool b a]; [a < b] is [Qltb a b]. *)
Definition Qltb (x y : Q) : bool := negb (Qle_bool y x).

(** White space removed by [String.prototype.trim], restricted to the
    code units below 128: TAB, LF, VT, FF, CR and SPACE. *)
Definition isWhiteSpace (c : ascii) : bool :=
  let n := nat_of_ascii c in
  ((9 <=? n)%nat && (n <=? 13)%nat) || (n =? 32)%nat.

Fixpoint trimStart (s : string) : string :=
  match s with
  | EmptyString => EmptyString
  | String c r => if isWhiteSpace c then trimStart r else s
  end.

Fixpoint trimEnd (s : string) : string :=
  match s with
  | EmptyString => EmptyString
  | String c r =>
      match trimEnd r with
      | EmptyString => if isWhiteSpace c then EmptyString else String c EmptyString
      | r' => String c r'
      end
  end.

(** [s.trim()] *)
Definition trim (s : string) : string := trimEnd (trimStart s).

Definition isDigit (c : ascii) : bool :=
  let n := nat_of_ascii c in (48 <=? n)%nat && (n <=? 57)%nat.

Fixpoint allDigits (s : string) : bool :=
  match s with
  | EmptyString => true
  | String c r => isDigit c && allDigits r
  end.

(** [/^\d+$/.test(s)]: without the [m] flag [^] and [$] are the two ends of
    the input, and [\d] is one of the ten ASCII digits. *)
Definition englishNumberPattern_test (s : string) : bool :=
  match s with
  | EmptyString => false
  | String _ _ => allDigits s
  end.

Fixpoint digitsPrefix (acc : option Z) (s : string) : option Z :=
  match s with
  | EmptyString => acc
  | String c r =>
      if isDigit c
      then digitsPrefix
             (Some (10 * default 0%Z acc + (Z.of_nat (nat_of_ascii c) - 48))%Z) r
      else acc
  end.

(** [parseInt(s)] for an argument that starts with a digit or with a
    character that is no part of a number: the value of the leading run of
    decimal digits, [None] (NaN) when there is none.  Its only caller hands
    it a string that matched [englishNumberPattern]. *)
Definition parseInt (s : string) : option Z := digitsPrefix None s.

(** ** The transcript *)

(** One element of [transcription.chunks]: [{ text, timestamp: [start, end] }]. *)
Module Word.
Record t : Type := mk { text : string; timestamp : Q * Q }.
End Word.

Record Transcription : Type := {
  transcription_text : string;
  chunks : option (list Word.t)
}.

(** The object built in [findSegmentsByNumberPattern]. *)
Module Segment.
Record t : Type := mk {
  startTime : Q;
  endTime : Q;
  words : list Word.t;
  text : string;
  number : option Z
}.
End Segment.

(** ** findSegmentsByNumberPattern *)

Section Detector.

(** [this.settings.minSegmentDuration] *)
Variable minSegmentDuration : Q.

(** [currentSegment.endTime - currentSegment.startTime >= minSegmentDuration] *)
Definition longEnough (c : Segment.t) : bool :=
  Qle_bool minSegmentDuration (Segment.endTime c - Segment.startTime c).

(** [if (currentSegment && longEnough) segments.push(currentSegment)] *)
Definition pushIfLongEnough (currentSegment : option Segment.t)
    (segments : list Segment.t) : list Segment.t :=
  match currentSegment with
  | Some c => if longEnough c then segments ++ [c] else segments
  | None => segments
  end.

(** The loop state: [currentSegment] ([None] is [null]) and [segments]. *)
Definition DetectorState : Type := option Segment.t * list Segment.t.

(** One turn of the [for] loop over [words].  A segment object is never
    written after it has been pushed: [currentSegment] is replaced (by the
    new segment, or by [null]) right after each push, so [segments] can hold
    values. *)
Definition detectStep (st : DetectorState) (word : Word.t) : DetectorState :=
  let '(currentSegment, segments) := st in
  let cleanText := trim (Word.text word) in
  let isEnglishNumber := englishNumberPattern_test cleanText in
  if isEnglishNumber then
    (Some (Segment.mk (fst (Word.timestamp word)) (snd (Word.timestamp word))
                      [word] cleanText (parseInt cleanText)),
     pushIfLongEnough currentSegment segments)
  else
    match currentSegment with
    | Some c =>
        let timeSinceSegmentStart :=
          fst (Word.timestamp word) - Segment.startTime c in
        if Qltb timeSinceSegmentStart 10 then
          (Some (Segment.mk (Segment.startTime c) (snd (Word.timestamp word))
                            (Segment.words c ++ [word])
                            (Segment.text c ++ " " ++ cleanText)
                            (Segment.number c)),
           segments)
        else
          (None, pushIfLongEnough currentSegment segments)
    | None => (None, segments)
    end.

Definition detectLoop (words : list Word.t) (st : DetectorState) : DetectorState :=
  foldl detectStep st words.

Definition findSegmentsByNumberPattern (transcription : Transcription)
    : list Segment.t :=
  let words := default [] (chunks transcription) in
  let '(currentSegment, segments) := detectLoop words (None, []) in
  pushIfLongEnough currentSegment segments.

End Detector.

(** ** Samples and typed arrays *)

(** An element of a [Float32Array], or the number a sample turns into in
    the arithmetic of the script. *)
Inductive sample : Type :=
| Num (q : Q)
| NaN.

(** [a[i]] read from a [Float32Array] and used as a number: an index that
    is not an element gives [undefined], which is NaN as a number. *)
Definition f32_get (a : list sample) (i : Z) : sample :=
  if (i <? 0)%Z then NaN else default NaN (a !! Z.to_nat i).

(** [a[i] = v] on a [Float32Array] is [<[i:=v]> a]: a write outside the
    array is ignored by the platform as well. *)

(** The nearest integer, a tie going to the even one. *)
Definition roundHalfEven (q : Q) : Z :=
  let f := Qfloor q in
  let r := q - inject_Z f in
  if Qltb r (1 # 2) then f
  else if Qltb (1 # 2) r then (f + 1)%Z
  else if Z.even f then f else (f + 1)%Z.

(** [floor(log2(q))] for a positive [q]. *)
Definition Qlog2 (q : Q) : Z :=
  let e := (Z.log2 (Qnum q) - Z.log2 (Zpos (Qden q)))%Z in
  if Qle_bool (2 ^ e) q then e else (e - 1)%Z.

(** The conversion that a store into a [Float32Array] applies to a number:
    the nearest 32-bit float, a tie going to the even significand.  The
    floats around [q] are the multiples of [2 ^ t], with 24 significant bits
    in the normal range and [t = -149] below it.  The quotient of a downmix
    of 32-bit floats is no larger than the largest of them, so the store
    never overflows to an infinity there, and none is modelled. *)
Definition ToFloat32 (q : Q) : Q :=
  if Qeq_bool q 0 then 0
  else
    let t := Z.max (Qlog2 (Qabs q) - 23) (-149) in
    Qred (inject_Z (roundHalfEven (q / 2 ^ t)) * 2 ^ t).

(** The element that [a[i] = v] leaves in a [Float32Array] for a computed
    number [v]. *)
Definition f32_store (v : sample) : sample :=
  match v with
  | Num q => Num (ToFloat32 q)
  | NaN => NaN
  end.

Definition sample_add (x y : sample) : sample :=
  match x, y with
  | Num a, Num b => Num (a + b)
  | _, _ => NaN
  end.

Definition sample_mul (x y : sample) : sample :=
  match x, y with
  | Num a, Num b => Num (a * b)
  | _, _ => NaN
  end.

(** [x / n] for a channel count [n], which is never zero. *)
Definition sample_div (x : sample) (n : Q) : sample :=
  match x with
  | Num a => Num (a / n)
  | NaN => NaN
  end.

(** [x < 0]: false on NaN. *)
Definition sample_ltb0 (x : sample) : bool :=
  match x with
  | Num a => Qltb a 0
  | NaN => false
  end.

(** [Math.min(a, b)] and [Math.max(a, b)]: NaN when an argument is NaN. *)
Definition Math_min (x y : sample) : sample :=
  match x, y with
  | Num a, Num b => if Qle_bool a b then Num a else Num b
  | _, _ => NaN
  end.

Definition Math_max (x y : sample) : sample :=
  match x, y with
  | Num a, Num b => if Qle_bool a b then Num b else Num a
  | _, _ => NaN
  end.

(** Truncation towards zero, the first step of the integer conversions that
    [DataView] applies to a value. *)
Definition Qtrunc (q : Q) : Z :=
  if Qle_bool 0 q then Qfloor q else Qceiling q.

(** [Math.round(x)] *)
Definition Math_round (q : Q) : Z := Qfloor (q + (1 # 2)).

(** ** AudioBuffer *)

(** An [AudioBuffer] of the Web Audio API: its sample rate and one
    [Float32Array] per channel.  The channel count and the frame count are
    read off the channel arrays, which the platform keeps of equal length. *)
Module AudioBuffer.
Record t : Type := mk { sampleRate : Z; channels : list (list sample) }.

Definition numberOfChannels (b : t) : nat := length (channels b).

Definition getChannelData (b : t) (channel : nat) : option (list sample) :=
  channels b !! channel.

Definition length (b : t) : nat :=
  match channels b with
  | [] => 0%nat
  | c :: _ => Datatypes.length c
  end.
End AudioBuffer.

(** [audioContext.createBuffer(numberOfChannels, length, sampleRate)]: a
    silent buffer; a channel count or a frame count that is not positive is
    a [NotSupportedError].  The sample rates passed by the script are those
    of an existing buffer. *)
Definition createBuffer (numberOfChannels : nat) (length : Z) (sampleRate : Z)
    : option AudioBuffer.t :=
  if (0 <? numberOfChannels)%nat && (0 <? length)%Z
  then Some (AudioBuffer.mk sampleRate
               (replicate numberOfChannels (replicate (Z.to_nat length) (Num 0))))
  else None.

(** ** extractSegmentsFromTimestamps *)

(** An element of [this.segments]. *)
Module AudioSegment.
Record t : Type := mk {
  id : nat;
  startTime : Q;
  endTime : Q;
  duration : Q;
  text : string;
  buffer : AudioBuffer.t;
  words : list Word.t
}.
End AudioSegment.

(** The inner loop over [sample]: copy what the source has, leave the rest. *)
Definition copyChannel (startSample : Z) (segmentLength : Z)
    (channelData segmentChannelData : list sample) : list sample :=
  foldl (fun seg sample =>
           let sourceIndex := (startSample + Z.of_nat sample)%Z in
           if (sourceIndex <? Z.of_nat (length channelData))%Z
           then <[sample := f32_get channelData sourceIndex]> seg
           else seg)
        segmentChannelData (seq 0 (Z.to_nat segmentLength)).

(** One turn of the loop over [channel]; [getChannelData] of a channel that
    the buffer does not have is an [IndexSizeError]. *)
Definition copyChannelStep (audioBuffer : AudioBuffer.t)
    (startSample segmentLength : Z)
    (acc : option AudioBuffer.t) (channel : nat) : option AudioBuffer.t :=
  segmentBuffer ← acc;
  channelData ← AudioBuffer.getChannelData audioBuffer channel;
  segmentChannelData ← AudioBuffer.getChannelData segmentBuffer channel;
  Some (AudioBuffer.mk (AudioBuffer.sampleRate segmentBuffer)
          (<[channel := copyChannel startSample segmentLength
                          channelData segmentChannelData]>
             (AudioBuffer.channels segmentBuffer))).

(** The body of the loop over [segments], for the segment at index [i]. *)
Definition extractSegment (audioBuffer : AudioBuffer.t) (i : nat)
    (segment : Segment.t) : option AudioSegment.t :=
  let sampleRate := AudioBuffer.sampleRate audioBuffer in
  let startSample := Qfloor (Segment.startTime segment * inject_Z sampleRate) in
  let endSample := Qfloor (Segment.endTime segment * inject_Z sampleRate) in
  let duration := Segment.endTime segment - Segment.startTime segment in
  let segmentLength := (endSample - startSample)%Z in
  segmentBuffer ← createBuffer (AudioBuffer.numberOfChannels audioBuffer)
                               segmentLength sampleRate;
  segmentBuffer ← foldl (copyChannelStep audioBuffer startSample segmentLength)
                        (Some segmentBuffer)
                        (seq 0 (AudioBuffer.numberOfChannels audioBuffer));
  Some (AudioSegment.mk (i + 1) (Segment.startTime segment)
          (Segment.endTime segment) duration (Segment.text segment)
          segmentBuffer (Segment.words segment)).

Fixpoint extractLoop (audioBuffer : AudioBuffer.t) (i : nat)
    (segments : list Segment.t) (audioSegments : list AudioSegment.t)
    : option (list AudioSegment.t) :=
  match segments with
  | [] => Some audioSegments
  | segment :: rest =>
      audioSegment ← extractSegment audioBuffer i segment;
      extractLoop audioBuffer (S i) rest (audioSegments ++ [audioSegment])
  end.

(** [extractSegmentsFromTimestamps(segments)] with [this.audioBuffer] as an
    argument. *)
Definition extractSegmentsFromTimestamps (audioBuffer : AudioBuffer.t)
    (segments : list Segment.t) : option (list AudioSegment.t) :=
  extractLoop audioBuffer 0 segments [].

(** ** DataView *)

(** The [n] low bytes of [v], least significant first: what a little-endian
    setter stores after reducing [v] modulo [2^(8n)]. *)
Fixpoint leBytes (n : nat) (v : Z) : list Z :=
  match n with
  | O => []
  | S n' => (v mod 256)%Z :: leBytes n' (v / 256)%Z
  end.

(** A store of [bytes] at [byteOffset]; outside the view it is a
    [RangeError] and nothing is written. *)
Definition setBytes (view : list Z) (byteOffset : nat) (bytes : list Z)
    : option (list Z) :=
  if (byteOffset + length bytes <=? length view)%nat
  then Some (take byteOffset view ++ bytes
               ++ drop (byteOffset + length bytes) view)
  else None.

Definition setUint8 (view : list Z) (byteOffset : nat) (value : Z) :=
  setBytes view byteOffset (leBytes 1 value).

(** [view.setUint16(byteOffset, value, true)] *)
Definition setUint16 (view : list Z) (byteOffset : nat) (value : Z) :=
  setBytes view byteOffset (leBytes 2 value).

(** [view.setUint32(byteOffset, value, true)] *)
Definition setUint32 (view : list Z) (byteOffset : nat) (value : Z) :=
  setBytes view byteOffset (leBytes 4 value).

(** The conversion of a number to a signed 16-bit integer: NaN is 0, any
    other number is truncated and reduced modulo [2^16]. *)
Definition ToInt16 (x : sample) : Z :=
  match x with
  | NaN => 0%Z
  | Num q =>
      let i := (Qtrunc q mod 65536)%Z in
      if (i <? 32768)%Z then i else (i - 65536)%Z
  end.

(** [view.setInt16(byteOffset, value, true)] *)
Definition setInt16 (view : list Z) (byteOffset : nat) (value : sample) :=
  setBytes view byteOffset (leBytes 2 (ToInt16 value)).

(** [string.charCodeAt(i)] for [i < string.length] *)
Definition charCodeAt (s : string) (i : nat) : option Z :=
  c ← String.get i s; Some (Z.of_nat (nat_of_ascii c)).

(** ** bufferToWav *)

Definition writeString (view : list Z) (offset : nat) (s : string)
    : option (list Z) :=
  foldl (fun acc i =>
           view ← acc;
           c ← charCodeAt s i;
           setUint8 view (offset + i) c)
        (Some view) (seq 0 (String.length s)).

(** [Math.max(-1, Math.min(1, x))] *)
Definition clampSample (x : sample) : sample :=
  Math_max (Num (-1)) (Math_min (Num 1) x).

(** [sample < 0 ? sample * 0x8000 : sample * 0x7fff] *)
Definition scaleSample (x : sample) : sample :=
  if sample_ltb0 x then sample_mul x (Num 32768) else sample_mul x (Num 32767).

(** One turn of the loop over the samples; the state is the view and
    [offset]. *)
Definition encodeStep (channelData : list sample)
    (acc : option (list Z * nat)) (i : nat) : option (list Z * nat) :=
  '(view, offset) ← acc;
  let x := clampSample (f32_get channelData (Z.of_nat i)) in
  view ← setInt16 view offset (scaleSample x);
  Some (view, (offset + 2)%nat).

(** The bytes of the [Blob] that [bufferToWav(buffer)] returns. *)
Definition bufferToWav (buffer : AudioBuffer.t) : option (list Z) :=
  let length := AudioBuffer.length buffer in
  let view := replicate (44 + length * 2) 0%Z in
  view ← writeString view 0 "RIFF";
  view ← setUint32 view 4 (36 + Z.of_nat length * 2);
  view ← writeString view 8 "WAVE";
  view ← writeString view 12 "fmt ";
  view ← setUint32 view 16 16;
  view ← setUint16 view 20 1;
  view ← setUint16 view 22 1;
  view ← setUint32 view 24 (AudioBuffer.sampleRate buffer);
  view ← setUint32 view 28 (AudioBuffer.sampleRate buffer * 2);
  view ← setUint16 view 32 2;
  view ← setUint16 view 34 16;
  view ← writeString view 36 "data";
  view ← setUint32 view 40 (Z.of_nat length * 2);
  channelData ← AudioBuffer.getChannelData buffer 0;
  '(view, _) ← foldl (encodeStep channelData) (Some (view, 44%nat))
                     (seq 0 length);
  Some view.

(** ** Conversion to mono at 16 kHz *)

Section Converter.

(** Frame [k] of what an [OfflineAudioContext] at 16000 Hz renders from a
    source buffer; the resampler belongs to the platform. *)
Variable rendered : AudioBuffer.t -> nat -> sample.

(** [new OfflineAudioContext(1, length, 16000)], the buffer played into
    it, [startRendering()].  The constructor rejects a frame count that is
    not positive. *)
Definition renderOffline (length : Z) (source : AudioBuffer.t)
    : option AudioBuffer.t :=
  if (0 <? length)%Z
  then Some (AudioBuffer.mk 16000
               [rendered source <$> seq 0 (Z.to_nat length)])
  else None.

(** The sum over [ch] of [originalBuffer.getChannelData(ch)[i]]. *)
Definition channelSum (originalBuffer : AudioBuffer.t) (i : nat) : sample :=
  foldl (fun sum channelData => sample_add sum (f32_get channelData (Z.of_nat i)))
        (Num 0) (AudioBuffer.channels originalBuffer).

(** The two loops of [convertAudioTo16kMono] that fill [monoData].  The
    copy of a mono source stores what it read from a [Float32Array]; the
    quotient of the downmix is a computed number and goes through the
    rounding of the store. *)
Definition downmixToMono (originalBuffer : AudioBuffer.t)
    (monoData : list sample) : list sample :=
  let n := AudioBuffer.numberOfChannels originalBuffer in
  if (n =? 1)%nat then
    let sourceData := default [] (AudioBuffer.getChannelData originalBuffer 0) in
    foldl (fun mono i => <[i := f32_get sourceData (Z.of_nat i)]> mono)
          monoData (seq 0 (AudioBuffer.length originalBuffer))
  else
    foldl (fun mono i =>
             <[i := f32_store (sample_div (channelSum originalBuffer i)
                                          (inject_Z (Z.of_nat n)))]> mono)
          monoData (seq 0 (AudioBuffer.length originalBuffer)).

(** The buffer that [convertAudioTo16kMono] stores in [this.audioBuffer]
    for a decoded [originalBuffer]; [None] when the platform raised. *)
Definition convertedBuffer (originalBuffer : AudioBuffer.t)
    : option AudioBuffer.t :=
  let sampleRate := AudioBuffer.sampleRate originalBuffer in
  if (AudioBuffer.numberOfChannels originalBuffer =? 1)%nat
     && (sampleRate =? 16000)%Z
  then Some originalBuffer
  else
    monoBuffer ← createBuffer 1 (Z.of_nat (AudioBuffer.length originalBuffer))
                              sampleRate;
    monoData ← AudioBuffer.getChannelData monoBuffer 0;
    let monoBuffer :=
      AudioBuffer.mk sampleRate [downmixToMono originalBuffer monoData] in
    if negb (sampleRate =? 16000)%Z then
      renderOffline
        (Qceiling (inject_Z (Z.of_nat (AudioBuffer.length monoBuffer) * 16000)
                   / inject_Z (AudioBuffer.sampleRate monoBuffer)))
        monoBuffer
    else Some monoBuffer.

(** The mono buffer that the older [resampleTo16kMono] plays into its
    offline context: the buffer itself when it has one channel, else the
    half sum of channels 0 and 1, stored frame by frame into the
    [Float32Array] of a new buffer. *)
Definition stereoDownmix (audioBuffer : AudioBuffer.t) : option AudioBuffer.t :=
  if (AudioBuffer.numberOfChannels audioBuffer =? 1)%nat then Some audioBuffer
  else
    monoBuffer ← createBuffer 1 (Z.of_nat (AudioBuffer.length audioBuffer))
                              (AudioBuffer.sampleRate audioBuffer);
    left ← AudioBuffer.getChannelData audioBuffer 0;
    right ← AudioBuffer.getChannelData audioBuffer 1;
    mono ← AudioBuffer.getChannelData monoBuffer 0;
    Some (AudioBuffer.mk (AudioBuffer.sampleRate monoBuffer)
            [foldl (fun mono i =>
                      <[i := f32_store
                               (sample_div
                                  (sample_add (f32_get left (Z.of_nat i))
                                              (f32_get right (Z.of_nat i)))
                                  2)]> mono)
                   mono (seq 0 (AudioBuffer.length audioBuffer))]).

(** [resampleTo16kMono(audioBuffer)], the older route to the transcriber:
    it builds a separate array and leaves [audioBuffer] as it is. *)
Definition resampleTo16kMono (audioBuffer : AudioBuffer.t)
    : option (list sample) :=
  let duration :=
    inject_Z (Z.of_nat (AudioBuffer.length audioBuffer))
    / inject_Z (AudioBuffer.sampleRate audioBuffer) in
  let frames := Qceiling (duration * 16000) in
  if (0 <? frames)%Z then
    monoBuffer ← stereoDownmix audioBuffer;
    renderedBuffer ← renderOffline frames monoBuffer;
    AudioBuffer.getChannelData renderedBuffer 0
  else None.

End Converter.

(** ** The application object *)

Module App.
Record t : Type := mk {
  audioFile : bool;
  isProcessing : bool;
  audioBuffer : option AudioBuffer.t;
  segments : list AudioSegment.t;
  minSegmentDuration : Q
}.
End App.

(** The slider behind [settings.minSegmentDuration] ([min="1.0"],
    [max="5.0"] in the page): the values the setting can take. *)
Definition sliderRange (minSegmentDuration : Q) : Prop :=
  1 <= minSegmentDuration /\ minSegmentDuration <= 5.

Section Application.

Variable rendered : AudioBuffer.t -> nat -> sample.

(** [new AudioLinguist()] *)
Definition newApp : App.t := App.mk false false None [] 2.

(** [processFile(file)] for an accepted file followed by
    [convertAudioTo16kMono()]; [decoded] is what [decodeAudioData] gave,
    [None] when it failed.  A failure anywhere is caught and leaves
    [this.audioBuffer] as it was. *)
Definition convertAudioTo16kMono (app : App.t)
    (decoded : option AudioBuffer.t) : App.t :=
  let app := App.mk true (App.isProcessing app) (App.audioBuffer app)
                    (App.segments app) (App.minSegmentDuration app) in
  match decoded ≫= convertedBuffer rendered with
  | Some b => App.mk (App.audioFile app) (App.isProcessing app) (Some b)
                     (App.segments app) (App.minSegmentDuration app)
  | None => app
  end.

(** The [input] listener of the slider:
    [this.settings.minSegmentDuration = parseFloat(e.target.value)]. *)
Definition setMinSegmentDuration (app : App.t) (value : Q) : App.t :=
  App.mk (App.audioFile app) (App.isProcessing app) (App.audioBuffer app)
         (App.segments app) value.

(** [processAudio()]; [whisper] is the outcome of [transcribeEntireAudio],
    [None] when it threw.  The three guards return early; an exception
    inside the [try] leaves [this.segments] as it was. *)
Definition processAudio (app : App.t) (whisper : option Transcription) : App.t :=
  if negb (App.audioFile app) then app
  else if App.isProcessing app then app
  else
    match App.audioBuffer app with
    | None => app
    | Some audioBuffer =>
        match
          transcription ← whisper;
          extractSegmentsFromTimestamps audioBuffer
            (findSegmentsByNumberPattern (App.minSegmentDuration app)
                                         transcription)
        with
        | Some audioSegments =>
            App.mk (App.audioFile app) false (App.audioBuffer app)
                   audioSegments (App.minSegmentDuration app)
        | None => app
        end
    end.

(** The bytes that [downloadSegment(index)] offers, if any. *)
Definition downloadSegment (app : App.t) (index : nat) : option (list Z) :=
  segment ← App.segments app !! index;
  bufferToWav (AudioSegment.buffer segment).

(** The states of the application: a fresh object, then any sequence of
    uploads, slider moves and runs of [processAudio], one after another. *)
Inductive reachable : App.t -> Prop :=
| reach_new : reachable newApp
| reach_upload app decoded :
    reachable app -> reachable (convertAudioTo16kMono app decoded)
| reach_setting app value :
    reachable app -> sliderRange value ->
    reachable (setMinSegmentDuration app value)
| reach_process app whisper :
    reachable app -> reachable (processAudio app whisper).

End Application.

(** A resampler to run examples with: output frame [k] repeats the source
    frame under it (sample and hold). *)
Definition heldFrame (source : AudioBuffer.t) (k : nat) : sample :=
  f32_get (default [] (AudioBuffer.getChannelData source 0))
          (Qfloor (inject_Z (Z.of_nat k * AudioBuffer.sampleRate source) / 16000)).

(** One channel at 16000 Hz. *)
Definition mono16k (b : AudioBuffer.t) : Prop :=
  AudioBuffer.numberOfChannels b = 1%nat /\ AudioBuffer.sampleRate b = 16000%Z.

(** ** Numbers as text: formatTime and the download name *)

(** [n.toString()] for a non-negative integer [n]: its decimal digits. *)
Definition natToString (n : nat) : string :=
  NilEmpty.string_of_uint (Nat.to_uint n).

(** [z.toString()] for an integer [z]. *)
Definition numberToString (z : Z) : string :=
  if (z <? 0)%Z then String "-" (natToString (Z.to_nat (- z)))
  else natToString (Z.to_nat z).

(** [n] characters taken from [pad] over and over; [rest] is what is left
    of the copy of [pad] in use. *)
Fixpoint fillString (n : nat) (pad rest : string) : string :=
  match n with
  | O => EmptyString
  | S n' =>
      match rest with
      | String c r => String c (fillString n' pad r)
      | EmptyString =>
          match pad with
          | String c r => String c (fillString n' pad r)
          | EmptyString => EmptyString
          end
      end
  end.

(** [s.padStart(targetLength, padString)] *)
Definition padStart (targetLength : nat) (padString s : string) : string :=
  match padString with
  | EmptyString => s
  | _ => (fillString (targetLength - String.length s) padString padString
          ++ s)%string
  end.

(** [a % b] on numbers: the remainder has the sign of [a]. *)
Definition Qrem (a b : Q) : Q := a - b * inject_Z (Qtrunc (a / b)).

(** [formatTime(seconds)] *)
Definition formatTime (seconds : Q) : string :=
  let min := Qfloor (seconds / 60) in
  let sec := Qfloor (Qrem seconds 60) in
  (numberToString min ++ ":" ++ padStart 2 "0" (numberToString sec))%string.

(** The [download] attribute that [downloadSegment] gives its link. *)
Definition downloadName (segment : AudioSegment.t) : string :=
  ("segment_" ++ padStart 3 "0" (natToString (AudioSegment.id segment))
   ++ ".wav")%string.

(** What [downloadSegment(index)] hands to the browser: the name and the
    bytes; nothing when there is no such segment or the encoder raised. *)
Definition downloadSegmentFile (app : App.t) (index : nat)
    : option (string * list Z) :=
  segment ← App.segments app !! index;
  wavBlob ← bufferToWav (AudioSegment.buffer segment);
  Some (downloadName segment, wavBlob).

(** ** transcribeEntireAudio *)

(** The fields of the application that the transcription uses: whether
    [whisperPipeline] is set, and the two guards [_transcriptionInProgress]
    and [_transcriptionDepth] (a depth that was never set counts as 0). *)
Record Transcriber : Type := {
  pipelineLoaded : bool;
  transcriptionInProgress : bool;
  transcriptionDepth : Z
}.

(** [{ text: "", chunks: [] }] *)
Definition emptyTranscription : Transcription :=
  Build_Transcription "" (Some []).

(** [new Float32Array(a.length)] filled by the copy loop. *)
Definition copyFloat32 (a : list sample) : list sample :=
  foldl (fun clean i => <[i := f32_get a (Z.of_nat i)]> clean)
        (replicate (length a) (Num 0)) (seq 0 (length a)).

(** [result.text && result.text.trim().length > 0] *)
Definition hasText (result : Transcription) : bool :=
  negb (String.length (trim (transcription_text result)) =? 0)%nat.

Section Transcription.

(** The loaded pipeline applied to the audio with the options of the
    script; [None] when it raises. *)
Variable whisperPipeline : list sample -> option Transcription.

(** [whisperTranscription(audioData, options)] *)
Definition whisperTranscription (tr : Transcriber) (audioData : list sample)
    : option Transcription :=
  if negb (pipelineLoaded tr) then None
  else whisperPipeline (copyFloat32 audioData).

(** [transcribeEntireAudio()]: the new guards and the outcome, [None] when
    it throws.  A throw of the first guard happens before the [try], so the
    [finally] that clears the flag does not run for it. *)
Definition transcribeEntireAudio (tr : Transcriber)
    (audioBuffer : option AudioBuffer.t) : Transcriber * option Transcription :=
  if transcriptionInProgress tr then (tr, None)
  else
    let depth := (transcriptionDepth tr + 1)%Z in
    let failed := Build_Transcriber (pipelineLoaded tr) false 0 in
    let returned := Build_Transcriber (pipelineLoaded tr) false (depth - 1) in
    if (2 <? depth)%Z then (failed, None)
    else
      match audioBuffer ≫= (fun b => AudioBuffer.getChannelData b 0) with
      | None => (failed, None)
      | Some audioData =>
          let cleanAudioData := copyFloat32 audioData in
          if pipelineLoaded tr then
            match whisperTranscription tr cleanAudioData with
            | Some result =>
                if hasText result then (returned, Some result)
                else (returned, Some emptyTranscription)
            | None => (returned, Some emptyTranscription)
            end
          else (failed, None)
      end.

End Transcription.

(** ** The drag handlers *)

(** [this.dragCounter] and whether the upload area carries the class
    [drag-over]. *)
Record DragState : Type := { dragCounter : Z; dragOver : bool }.

Inductive DragEvent : Type := DragEnter | DragOver | DragLeave | Drop.

(** [handleDragEnter], [handleDragOver], [handleDragLeave] and the part of
    [handleDrop] that precedes [processFile]. *)
Definition handleDrag (st : DragState) (e : DragEvent) : DragState :=
  match e with
  | DragEnter => Build_DragState (dragCounter st + 1) true
  | DragOver => st
  | DragLeave =>
      let counter := (dragCounter st - 1)%Z in
      Build_DragState counter
        (if (counter =? 0)%Z then false else dragOver st)
  | Drop => Build_DragState 0 false
  end.

(** The constructor: [this.dragCounter = 0], the area not highlighted. *)
Definition newDragState : DragState := Build_DragState 0 false.

(** The states met while a list of events is handled, the first excluded. *)
Fixpoint dragTrace (st : DragState) (events : list DragEvent)
    : list DragState :=
  match events with
  | [] => []
  | e :: rest => handleDrag st e :: dragTrace (handleDrag st e) rest
  end.

(** ** Predicates used in the statements *)

(** The items of [l] follow one another in time, none starting before [lo]:
    each starts no later than it ends and no earlier than the one before it
    ends. *)
Fixpoint chained {A : Type} (st en : A -> Q) (lo : Q) (l : list A) : Prop :=
  match l with
  | [] => True
  | x :: r => lo <= st x /\ st x <= en x /\ chained st en (en x) r
  end.

(** Where the last item of a chain ends ([lo] for an empty one). *)
Fixpoint lastEnd {A : Type} (en : A -> Q) (lo : Q) (l : list A) : Q :=
  match l with
  | [] => lo
  | x :: r => lastEnd en (en x) r
  end.

Definition wordStart (w : Word.t) : Q := fst (Word.timestamp w).
Definition wordEnd (w : Word.t) : Q := snd (Word.timestamp w).

(** A transcript whose tokens do not overlap: every token starts no later
    than it ends, and no earlier than the token before it ends. *)
Definition tokensDisjoint (words : list Word.t) : Prop :=
  Forall (fun w => wordStart w <= wordEnd w) words /\
  forall i w1 w2, words !! i = Some w1 -> words !! S i = Some w2 ->
    wordEnd w1 <= wordStart w2.

(** A transcript ordered by start time: every token starts no later than it
    ends, and no earlier than the token before it starts. *)
Definition tokensSorted (words : list Word.t) : Prop :=
  Forall (fun w => wordStart w <= wordEnd w) words /\
  forall i w1 w2, words !! i = Some w1 -> words !! S i = Some w2 ->
    wordStart w1 <= wordStart w2.

(** [endTime - startTime >= minSegmentDuration] as a proposition. *)
Definition lastsAtLeast (minSegmentDuration : Q) (s : Segment.t) : Prop :=
  minSegmentDuration <= Segment.endTime s - Segment.startTime s.

(** What the extractor leaves at position [k] of a channel of a segment
    that starts at [startSample]: the source sample when there is one at or
    before the end of the channel, silence past the end. *)
Definition segmentSample (startSample : Z) (channelData : list sample)
    (k : nat) : sample :=
  let sourceIndex := (startSample + Z.of_nat k)%Z in
  if (sourceIndex <? Z.of_nat (length channelData))%Z
  then f32_get channelData sourceIndex
  else Num 0.

(** [endSample - startSample] for a segment at a sample rate. *)
Definition segmentFrames (sampleRate : Z) (segment : Segment.t) : Z :=
  (Qfloor (Segment.endTime segment * inject_Z sampleRate)
   - Qfloor (Segment.startTime segment * inject_Z sampleRate))%Z.

(** The element of [audioSegments] that the extractor's loops build for the
    segment at index [i], in closed form. *)
Definition slicedSegment (audioBuffer : AudioBuffer.t) (i : nat)
    (segment : Segment.t) : AudioSegment.t :=
  let sampleRate := AudioBuffer.sampleRate audioBuffer in
  let startSample := Qfloor (Segment.startTime segment * inject_Z sampleRate) in
  let frames := Z.to_nat (segmentFrames sampleRate segment) in
  AudioSegment.mk (i + 1) (Segment.startTime segment) (Segment.endTime segment)
    (Segment.endTime segment - Segment.startTime segment)
    (Segment.text segment)
    (AudioBuffer.mk sampleRate
       ((fun channelData => segmentSample startSample channelData <$> seq 0 frames)
          <$> AudioBuffer.channels audioBuffer))
    (Segment.words segment).

(** The invariant of the detector's loop: the emitted segments followed by
    the open one form a chain that ends by time [t]. *)
Definition detectInv (lo t : Q) (st : DetectorState) : Prop :=
  chained Segment.startTime Segment.endTime lo
          (snd st ++ option_list (fst st)) /\
  lastEnd Segment.endTime lo (snd st ++ option_list (fst st)) <= t.

(** Reading a file back, the way a player does: the little-endian getters
    of [DataView]. *)
Definition getUint16 (bytes : list Z) (byteOffset : nat) : option Z :=
  b0 ← bytes !! byteOffset;
  b1 ← bytes !! (byteOffset + 1)%nat;
  Some (b0 + 256 * b1)%Z.

Definition getUint32 (bytes : list Z) (byteOffset : nat) : option Z :=
  lo ← getUint16 bytes byteOffset;
  hi ← getUint16 bytes (byteOffset + 2)%nat;
  Some (lo + 65536 * hi)%Z.

Definition getInt16 (bytes : list Z) (byteOffset : nat) : option Z :=
  u ← getUint16 bytes byteOffset;
  Some (if (u <? 32768)%Z then u else u - 65536)%Z.

(** The four bytes of a chunk identifier at [byteOffset]. *)
Definition getFourCC (bytes : list Z) (byteOffset : nat) : list Z :=
  take 4 (drop byteOffset bytes).

Definition charCodes (s : string) : list Z :=
  (fun c => Z.of_nat (nat_of_ascii c)) <$> list_ascii_of_string s.

(** The 44 bytes that the header writes of [bufferToWav] leave, and the
    bytes that its sample loop leaves after them, in closed form. *)
Definition wavHeader (sampleRate : Z) (length : nat) : list Z :=
  charCodes "RIFF" ++ leBytes 4 (36 + Z.of_nat length * 2)
  ++ charCodes "WAVE" ++ charCodes "fmt " ++ leBytes 4 16
  ++ leBytes 2 1 ++ leBytes 2 1
  ++ leBytes 4 sampleRate ++ leBytes 4 (sampleRate * 2)
  ++ leBytes 2 2 ++ leBytes 2 16
  ++ charCodes "data" ++ leBytes 4 (Z.of_nat length * 2).

Definition encodedSample (channelData : list sample) (i : nat) : list Z :=
  leBytes 2 (ToInt16 (scaleSample
                        (clampSample (f32_get channelData (Z.of_nat i))))).

Definition wavPayload (channelData : list sample) (first count : nat)
    : list Z :=
  seq first count ≫= encodedSample channelData.

(** The sample conversion in the words of the specification: clamp to
    [-1, 1], scale a negative value by 32768 and any other by 32767; the
    16-bit setter then drops the fraction. *)
Definition clampToUnit (x : Q) : Q :=
  if Qltb x (-1) then -1 else if Qltb 1 x then 1 else x.

Definition pcm16 (x : Q) : Z :=
  let c := clampToUnit x in
  Qtrunc (if Qltb c 0 then c * 32768 else c * 32767).

(** The arithmetic mean of the samples that the channels hold at one index. *)
Definition Qsum (xs : list Q) : Q := foldr Qplus 0 xs.

Definition channelMean (xs : list Q) : Q :=
  Qsum xs / inject_Z (Z.of_nat (length xs)).

(** ** Predicates and closed forms for the further properties *)

(** Whether a string opens with a decimal digit, so that [parseInt] would
    go on reading into it. *)
Definition startsWithDigit (s : string) : bool :=
  match s with
  | String c _ => isDigit c
  | EmptyString => false
  end.

(** A marker token: its trimmed text passes [englishNumberPattern]. *)
Definition isMarker (w : Word.t) : bool :=
  englishNumberPattern_test (trim (Word.text w)).

(** The text that the detector accumulates for a run of words: the trimmed
    texts, one space between two of them. *)
Definition joinTexts (ws : list Word.t) : string :=
  match ws with
  | [] => EmptyString
  | w :: rest =>
      foldl (fun acc w' => acc ++ " " ++ trim (Word.text w'))%string
            (trim (Word.text w)) rest
  end.

(** A segment as the detector builds it from its own [words]: a marker
    followed by words that are no markers and start less than ten seconds
    after it. *)
Definition markerLed (s : Segment.t) : Prop :=
  exists m rest,
    Segment.words s = m :: rest /\
    isMarker m = true /\
    Forall (fun w => isMarker w = false /\ wordStart w - wordStart m < 10) rest /\
    Segment.startTime s = wordStart m /\
    Segment.number s = parseInt (trim (Word.text m)).

Definition spansItsWords (s : Segment.t) : Prop :=
  exists m rest,
    Segment.words s = m :: rest /\
    Segment.startTime s = wordStart m /\
    Segment.endTime s = wordEnd (List.last rest m) /\
    Segment.text s = joinTexts (Segment.words s).

(** The invariant of the detector's loop behind the two predicates above;
    [P] is the part of the transcript read so far. *)
Definition emittedFrom (P : list Word.t) (s : Segment.t) : Prop :=
  markerLed s /\ spansItsWords s /\
  exists pre post, P = pre ++ Segment.words s ++ post.

Definition openOver (P : list Word.t) (c : Segment.t) : Prop :=
  markerLed c /\ spansItsWords c /\ exists pre, P = pre ++ Segment.words c.

Definition shapeInv (P : list Word.t) (st : DetectorState) : Prop :=
  Forall (emittedFrom P) (snd st) /\
  forall c, fst st = Some c -> openOver P c.

(** The 16-bit integer that the sample loop of [bufferToWav] stores for a
    sample. *)
Definition quantise (x : sample) : Z :=
  ToInt16 (scaleSample (clampSample x)).

(** A reader of the files that [bufferToWav] writes: the sample rate of
    the header, and the samples of the data chunk, as many as its size
    field announces. *)
Definition wavSampleRate (bytes : list Z) : option Z := getUint32 bytes 24.

Definition wavSamples (bytes : list Z) : option (list Z) :=
  dataSize ← getUint32 bytes 40;
  mapM (fun i => getInt16 bytes (44 + 2 * i))
       (seq 0 (Z.to_nat (dataSize / 2))).

(** A sample in the nominal range of the signal. *)
Definition withinUnit (x : sample) : Prop :=
  exists q, x = Num q /\ -1 <= q /\ q <= 1.

(** * Properties *)

(** ** Numbers *)

Lemma Qltb_true (x y : Q) : Qltb x y = true <-> x < y.
Proof.
  unfold Qltb. rewrite negb_true_iff, <- not_true_iff_false, Qle_bool_iff.
  split; [apply Qnot_le_lt | apply Qlt_not_le].
Qed.

Lemma Qltb_false (x y : Q) : Qltb x y = false <-> y <= x.
Proof.
  unfold Qltb. rewrite negb_false_iff. apply Qle_bool_iff.
Qed.

(** ** The detector *)

Section DetectorFacts.

Variable minSegmentDuration : Q.


Lemma pushIfLongEnough_cases cur segs :
  pushIfLongEnough minSegmentDuration cur segs = segs \/
  exists c, cur = Some c /\ longEnough minSegmentDuration c = true /\
            pushIfLongEnough minSegmentDuration cur segs = segs ++ [c].
Proof.
  destruct cur as [c|]; simpl; [|by left].
  destruct (longEnough minSegmentDuration c) eqn:E; [right; eauto | by left].
Qed.

Lemma pushIfLongEnough_Forall cur segs :
  Forall (lastsAtLeast minSegmentDuration) segs ->
  Forall (lastsAtLeast minSegmentDuration) (pushIfLongEnough minSegmentDuration cur segs).
Proof.
  intros H. destruct (pushIfLongEnough_cases cur segs) as [-> | (c & _ & E & ->)];
    [done|].
  apply Forall_app; split; [done|]. constructor; [|constructor].
  by apply Qle_bool_iff.
Qed.

Lemma detectStep_snd_cases st w :
  snd (detectStep minSegmentDuration st w) = snd st \/
  snd (detectStep minSegmentDuration st w)
  = pushIfLongEnough minSegmentDuration (fst st) (snd st).
Proof.
  destruct st as [cur segs]. unfold detectStep.
  destruct (englishNumberPattern_test _); [by right|].
  destruct cur as [c|]; [|by left].
  destruct (Qltb _ _); [by left | by right].
Qed.

Lemma detectLoop_Forall words st :
  Forall (lastsAtLeast minSegmentDuration) (snd st) ->
  Forall (lastsAtLeast minSegmentDuration) (snd (detectLoop minSegmentDuration words st)).
Proof.
  unfold detectLoop. revert st.
  induction words as [|w words IH]; intros st H; [done|].
  simpl. apply IH.
  destruct (detectStep_snd_cases st w) as [-> | ->]; [done|].
  by apply pushIfLongEnough_Forall.
Qed.

Lemma findSegments_Forall transcription :
  Forall (lastsAtLeast minSegmentDuration)
         (findSegmentsByNumberPattern minSegmentDuration transcription).
Proof.
  unfold findSegmentsByNumberPattern.
  pose proof (detectLoop_Forall (default [] (chunks transcription)) (None, []))
    as H.
  destruct (detectLoop _ _ _) as [cur segs].
  apply pushIfLongEnough_Forall, H. constructor.
Qed.

End DetectorFacts.

(** C1. Whatever the transcript and whatever the configured minimum, every
    segment that [findSegmentsByNumberPattern] returns lasts at least the
    minimum, [endTime - startTime >= minSegmentDuration]: a shorter
    candidate is dropped and is not in the result. *)
Theorem emitted_segments_last_long_enough
    (minSegmentDuration : Q) (transcription : Transcription) :
  Forall (fun s => minSegmentDuration
                   <= Segment.endTime s - Segment.startTime s)
         (findSegmentsByNumberPattern minSegmentDuration transcription).
Proof.
  unfold findSegmentsByNumberPattern.
  (* the list built by the loop satisfies the bound ... *)
  pose proof (detectLoop_Forall minSegmentDuration
                (default [] (chunks transcription)) (None, [])) as Hloop.
  destruct (detectLoop _ _ _) as [currentSegment segments].
  (* ... and so does the list after the push that follows the loop *)
  apply (pushIfLongEnough_Forall minSegmentDuration currentSegment segments).
  apply Hloop. constructor.
Qed.

(** ** Chains of intervals *)

Section Chains.

Context {A : Type} (st en : A -> Q).

Lemma lastEnd_app lo (l1 l2 : list A) :
  lastEnd en lo (l1 ++ l2) = lastEnd en (lastEnd en lo l1) l2.
Proof. revert lo. induction l1 as [|x l1 IH]; intros lo; simpl; auto. Qed.

Lemma chained_app lo (l1 l2 : list A) :
  chained st en lo (l1 ++ l2) <->
  chained st en lo l1 /\ chained st en (lastEnd en lo l1) l2.
Proof.
  revert lo. induction l1 as [|x l1 IH]; intros lo; simpl; [tauto|].
  rewrite IH. tauto.
Qed.

Lemma chained_lastEnd lo (l : list A) :
  chained st en lo l -> lo <= lastEnd en lo l.
Proof.
  revert lo. induction l as [|x l IH]; intros lo; simpl; [lra|].
  intros (H1 & H2 & H3). apply IH in H3. lra.
Qed.

Lemma chained_weaken lo lo' (l : list A) :
  lo' <= lo -> chained st en lo l -> chained st en lo' l.
Proof.
  destruct l as [|x l]; simpl; [done|]. intros ? (? & ? & ?).
  repeat split; [lra | done | done].
Qed.

(** In a chain every item ends before the next one starts. *)
Lemma chained_consecutive lo (l : list A) i x y :
  chained st en lo l -> l !! i = Some x -> l !! S i = Some y -> en x <= st y.
Proof.
  revert lo i. induction l as [|z l IH]; intros lo i Hc Hx Hy; [done|].
  destruct Hc as (_ & _ & Hc). destruct i as [|i].
  - simpl in Hx. injection Hx as ->. destruct l as [|y' l]; [done|].
    simpl in Hy. injection Hy as ->. by destruct Hc.
  - by apply (IH (en z) i).
Qed.

(** The same chain read off index by index. *)
Lemma chained_of_consecutive lo (l : list A) :
  Forall (fun x => st x <= en x) l ->
  (forall x, l !! 0%nat = Some x -> lo <= st x) ->
  (forall i x y, l !! i = Some x -> l !! S i = Some y -> en x <= st y) ->
  chained st en lo l.
Proof.
  revert lo. induction l as [|z l IH]; intros lo Hall H0 Hadj; [done|].
  simpl. inversion Hall as [|? ? Hz Hl]; subst.
  split; [by apply H0|]. split; [done|].
  apply IH; [done| |].
  - intros x Hx. by apply (Hadj 0%nat z x).
  - intros i x y Hx Hy. by apply (Hadj (S i) x y).
Qed.

End Chains.

(** ** Order of the emitted segments *)

Section DetectorOrder.

Variable minSegmentDuration : Q.

Lemma detectInv_push lo t cur segs :
  detectInv lo t (cur, segs) ->
  detectInv lo t (None, pushIfLongEnough minSegmentDuration cur segs).
Proof.
  unfold detectInv; simpl. rewrite app_nil_r. intros [Hc Ht].
  destruct (pushIfLongEnough_cases minSegmentDuration cur segs)
    as [-> | (c & -> & _ & ->)]; [|done].
  apply chained_app in Hc as [Hc1 Hc2]. split; [done|].
  rewrite lastEnd_app in Ht. apply chained_lastEnd in Hc2. lra.
Qed.

Lemma detectInv_open lo t t' st a b ws tx n :
  detectInv lo t (None, st) -> t <= a -> a <= b -> b <= t' ->
  detectInv lo t' (Some (Segment.mk a b ws tx n), st).
Proof.
  unfold detectInv; simpl. rewrite app_nil_r. intros [Hc Ht] ? ? ?.
  rewrite chained_app, lastEnd_app. simpl. repeat split; try done; lra.
Qed.

Lemma detectStep_inv lo t st w :
  detectInv lo t st -> t <= wordStart w -> wordStart w <= wordEnd w ->
  detectInv lo (wordEnd w) (detectStep minSegmentDuration st w).
Proof.
  intros Hinv Ha Hb. destruct st as [cur segs]. unfold detectStep.
  fold (wordStart w) (wordEnd w).
  destruct (englishNumberPattern_test _).
  - apply (detectInv_open lo t); [by apply detectInv_push | done | done | lra].
  - destruct cur as [c|].
    + destruct (Qltb _ _).
      * destruct Hinv as [Hc Ht]. simpl in Hc, Ht.
        rewrite chained_app in Hc. rewrite lastEnd_app in Ht.
        destruct Hc as [Hc1 (Hc2 & Hc3 & _)]. simpl in Ht.
        unfold detectInv. simpl. rewrite chained_app, lastEnd_app. simpl.
        repeat split; try done; lra.
      * apply detectInv_push in Hinv. destruct Hinv as [Hc Ht].
        split; [done|]. lra.
    + destruct Hinv as [Hc Ht]. split; [done|]. lra.
Qed.

Lemma detectLoop_inv lo t words st :
  detectInv lo t st -> chained wordStart wordEnd t words ->
  exists t', detectInv lo t' (detectLoop minSegmentDuration words st).
Proof.
  unfold detectLoop. revert t st.
  induction words as [|w words IH]; intros t st Hinv Hw; [by exists t|].
  destruct Hw as (Ha & Hb & Hw). simpl.
  apply (IH (wordEnd w)); [|done]. by apply (detectStep_inv lo t).
Qed.

Lemma findSegments_chained lo transcription :
  chained wordStart wordEnd lo (default [] (chunks transcription)) ->
  chained Segment.startTime Segment.endTime lo (findSegmentsByNumberPattern minSegmentDuration transcription).
Proof.
  intros Hw. unfold findSegmentsByNumberPattern.
  destruct (detectLoop_inv lo lo (default [] (chunks transcription)) (None, []))
    as [t Hinv]; [split; simpl; [done | lra] | done |].
  destruct (detectLoop _ _ _) as [cur segs].
  apply detectInv_push in Hinv. destruct Hinv as [Hc _].
  simpl in Hc. by rewrite app_nil_r in Hc.
Qed.

End DetectorOrder.

Lemma tokensDisjoint_chained words :
  tokensDisjoint words ->
  exists lo, chained wordStart wordEnd lo words.
Proof.
  intros [Hall Hadj].
  exists (match words with [] => 0 | w :: _ => wordStart w end).
  apply chained_of_consecutive; [done | | done].
  destruct words as [|w words]; intros x Hx; [done|].
  simpl in Hx. injection Hx as ->. lra.
Qed.

(** Closes a goal about the tokens of a concrete transcript. *)
Ltac concrete_tokens :=
  split;
  [ repeat constructor; unfold wordStart, wordEnd; simpl; lra
  | intros i w1 w2 H1 H2;
    repeat first
      [ done
      | destruct i as [|i]; simpl in H1, H2;
        [ try done; simplify_eq; unfold wordStart, wordEnd; simpl; lra | ] ] ].

(** C2, as stated, fails: two tokens ordered by start time, each starting
    before it ends, that overlap (["951"] over 0 s to 2.5 s, ["952"] over
    2.25 s to 5 s) give two segments of which the first ends after the
    second has started. *)
Lemma overlapping_tokens_overlapping_segments :
  let words := [Word.mk " 951" (0, 2.5); Word.mk " 952" (2.25, 5)] in
  let segments :=
    findSegmentsByNumberPattern 2 (Build_Transcription "951 952" (Some words)) in
  tokensSorted words /\
  exists s1 s2, segments !! 0%nat = Some s1 /\ segments !! 1%nat = Some s2 /\
    ~ Segment.endTime s1 <= Segment.startTime s2.
Proof.
  split; [concrete_tokens|].
  eexists _, _. split; [vm_compute; reflexivity|].
  split; [vm_compute; reflexivity|]. simpl. lra.
Qed.

(** C2, amended. When the tokens of the transcript do not overlap (each
    starts no later than it ends and no earlier than the token before it
    ends), any two consecutive segments returned by
    [findSegmentsByNumberPattern] satisfy
    [segment[i].endTime <= segment[i+1].startTime]; with a positive minimum
    duration their start times increase strictly. *)
Theorem emitted_segments_do_not_overlap
    (minSegmentDuration : Q) (transcription : Transcription)
    (words : list Word.t) (i : nat) (s1 s2 : Segment.t) :
  chunks transcription = Some words ->
  tokensDisjoint words ->
  findSegmentsByNumberPattern minSegmentDuration transcription !! i = Some s1 ->
  findSegmentsByNumberPattern minSegmentDuration transcription !! S i = Some s2 ->
  Segment.endTime s1 <= Segment.startTime s2 /\
  (0 < minSegmentDuration -> Segment.startTime s1 < Segment.startTime s2).
Proof.
  intros Hw Hd H1 H2.
  destruct (tokensDisjoint_chained words Hd) as [lo Hc].
  pose proof (findSegments_chained minSegmentDuration lo transcription) as Hs.
  rewrite Hw in Hs. specialize (Hs Hc).
  pose proof (chained_consecutive _ _ _ _ _ _ _ Hs H1 H2) as Hle.
  split; [done|]. intros Hpos.
  pose proof (findSegments_Forall minSegmentDuration transcription) as Hall.
  rewrite Forall_lookup in Hall. specialize (Hall _ _ H1).
  unfold lastsAtLeast in Hall. lra.
Qed.

Lemma emitted_segments_do_not_overlap_witness :
  let words := [Word.mk " 951" (0, 0.5); Word.mk " bonjour" (0.75, 2.5);
                Word.mk " 952" (3, 3.5); Word.mk " merci" (3.75, 6)] in
  tokensDisjoint words /\
  (2.5 <= 3 /\ (0 < 2 -> 0 < 3)).
Proof.
  intros words.
  assert (Hd : tokensDisjoint words) by (subst words; concrete_tokens).
  split; [exact Hd|].
  exact (emitted_segments_do_not_overlap 2
           (Build_Transcription "951 bonjour 952 merci" (Some words)) words 0
           (Segment.mk 0 2.5 [Word.mk " 951" (0, 0.5); Word.mk " bonjour" (0.75, 2.5)]
                       "951 bonjour" (Some 951%Z))
           (Segment.mk 3 6 [Word.mk " 952" (3, 3.5); Word.mk " merci" (3.75, 6)]
                       "952 merci" (Some 952%Z))
           eq_refl Hd eq_refl eq_refl).
Defined.

(** ** Loops that fill an array *)

Lemma foldl_fill_lookup {A : Type} (c : nat -> bool) (f : nat -> A)
    (init : list A) (n k : nat) :
  foldl (fun acc j => if c j then <[j := f j]> acc else acc) init (seq 0 n) !! k
  = (fun v => if (k <? n)%nat && c k then f k else v) <$> init !! k.
Proof.
  induction n as [|n IH].
  - simpl. by destruct (init !! k).
  - rewrite seq_S, foldl_app. simpl.
    set (r := foldl _ init (seq 0 n)) in *.
    assert (Hlen : length r = length init).
    { subst r. clear IH. generalize (seq 0 n). intros l. revert init.
      induction l as [|j l IHl]; intros init; simpl; [done|].
      rewrite IHl. destruct (c j); [apply length_insert | done]. }
    destruct (c n) eqn:Hc.
    + destruct (decide (k = n)) as [->|Hne].
      * destruct (init !! n) as [v|] eqn:Hv; simpl.
        -- rewrite list_lookup_insert_eq.
           ++ rewrite Hc. by rewrite (proj2 (Nat.ltb_lt n (S n))) by lia.
           ++ rewrite Hlen. by eapply lookup_lt_Some.
        -- apply lookup_ge_None. rewrite length_insert, Hlen.
           by apply lookup_ge_None.
      * rewrite list_lookup_insert_ne by done. rewrite IH.
        destruct (init !! k); simpl; [|done]. f_equal.
        destruct (c k); rewrite ?andb_true_r, ?andb_false_r; [|done].
        destruct (Nat.ltb_spec k n), (Nat.ltb_spec k (S n)); done || lia.
    + rewrite IH. destruct (init !! k); simpl; [|done]. f_equal.
      destruct (decide (k = n)) as [->|Hne].
      * rewrite Hc, !andb_false_r. done.
      * destruct (c k); rewrite ?andb_true_r, ?andb_false_r; [|done].
        destruct (Nat.ltb_spec k n), (Nat.ltb_spec k (S n)); done || lia.
Qed.

Lemma foldl_fill_replicate {A : Type} (c : nat -> bool) (f : nat -> A)
    (z : A) (n : nat) :
  foldl (fun acc j => if c j then <[j := f j]> acc else acc)
        (replicate n z) (seq 0 n)
  = (fun k => if c k then f k else z) <$> seq 0 n.
Proof.
  apply list_eq. intros k. rewrite foldl_fill_lookup, list_lookup_fmap.
  destruct (decide (k < n)%nat) as [Hk|Hk].
  - rewrite lookup_replicate_2 by done. rewrite lookup_seq_lt by done. simpl.
    by rewrite (proj2 (Nat.ltb_lt k n)) by done.
  -     rewrite (proj1 (lookup_replicate_None n z k)) by lia.
    rewrite lookup_seq_ge by lia. done.
Qed.

(** ** The extractor *)

Lemma copyChannel_silent startSample segmentLength channelData :
  copyChannel startSample segmentLength channelData
              (replicate (Z.to_nat segmentLength) (Num 0))
  = segmentSample startSample channelData <$> seq 0 (Z.to_nat segmentLength).
Proof.
  unfold copyChannel.
  apply (foldl_fill_replicate
           (fun j => (startSample + Z.of_nat j <? Z.of_nat (length channelData))%Z)
           (fun j => f32_get channelData (startSample + Z.of_nat j))).
Qed.

Lemma copyChannels_prefix audioBuffer startSample segmentLength rate j :
  (j <= AudioBuffer.numberOfChannels audioBuffer)%nat ->
  foldl (copyChannelStep audioBuffer startSample segmentLength)
        (Some (AudioBuffer.mk rate
                 (replicate (AudioBuffer.numberOfChannels audioBuffer)
                            (replicate (Z.to_nat segmentLength) (Num 0)))))
        (seq 0 j)
  = Some (AudioBuffer.mk rate
            (((fun channelData =>
                 segmentSample startSample channelData
                   <$> seq 0 (Z.to_nat segmentLength))
                <$> take j (AudioBuffer.channels audioBuffer))
             ++ replicate (AudioBuffer.numberOfChannels audioBuffer - j)
                          (replicate (Z.to_nat segmentLength) (Num 0)))).
Proof.
  unfold AudioBuffer.numberOfChannels.
  induction j as [|j IH]; intros Hj.
  - simpl. by rewrite Nat.sub_0_r.
  - rewrite seq_S, foldl_app, IH by lia. clear IH. simpl.
    destruct (lookup_lt_is_Some_2 (AudioBuffer.channels audioBuffer) j)
      as [channelData Hch]; [lia|].
    unfold copyChannelStep. simpl.
    unfold AudioBuffer.getChannelData. rewrite Hch. simpl.
    assert (Hlen : length ((fun channelData0 =>
                     segmentSample startSample channelData0
                       <$> seq 0 (Z.to_nat segmentLength))
                    <$> take j (AudioBuffer.channels audioBuffer)) = j).
    { rewrite length_fmap, length_take. lia. }
    replace (length (AudioBuffer.channels audioBuffer) - j)%nat
      with (S (length (AudioBuffer.channels audioBuffer) - S j)) by lia.
    rewrite lookup_app_r by lia. rewrite Hlen, Nat.sub_diag. simpl.
    do 2 f_equal.
    rewrite insert_app_r_alt by lia. rewrite Hlen, Nat.sub_diag. simpl.
    rewrite copyChannel_silent.
    rewrite (take_S_r _ _ _ Hch), fmap_app. simpl.
    by rewrite <- app_assoc.
Qed.

Lemma extractSegment_Some audioBuffer i segment :
  (1 <= AudioBuffer.numberOfChannels audioBuffer)%nat ->
  (1 <= segmentFrames (AudioBuffer.sampleRate audioBuffer) segment)%Z ->
  extractSegment audioBuffer i segment
  = Some (slicedSegment audioBuffer i segment).
Proof.
  intros Hch Hlen. unfold extractSegment, slicedSegment, createBuffer.
  fold (segmentFrames (AudioBuffer.sampleRate audioBuffer) segment).
  rewrite (proj2 (Nat.ltb_lt _ _)) by lia.
  rewrite (proj2 (Z.ltb_lt _ _)) by lia. simpl.
  rewrite copyChannels_prefix by done. simpl.
  unfold AudioBuffer.numberOfChannels.
  by rewrite Nat.sub_diag, app_nil_r, firstn_all.
Qed.

Lemma extractSegment_None audioBuffer i segment :
  (segmentFrames (AudioBuffer.sampleRate audioBuffer) segment < 1)%Z ->
  extractSegment audioBuffer i segment = None.
Proof.
  intros Hlen. unfold extractSegment, createBuffer.
  fold (segmentFrames (AudioBuffer.sampleRate audioBuffer) segment).
  rewrite (proj2 (Z.ltb_ge _ _)) by lia. by rewrite andb_false_r.
Qed.

Lemma extractLoop_Some audioBuffer i segments audioSegments :
  (1 <= AudioBuffer.numberOfChannels audioBuffer)%nat ->
  Forall (fun s => (1 <= segmentFrames (AudioBuffer.sampleRate audioBuffer) s)%Z)
         segments ->
  extractLoop audioBuffer i segments audioSegments
  = Some (audioSegments
          ++ imap (fun k s => slicedSegment audioBuffer (i + k) s) segments).
Proof.
  intros Hch Hall. revert i audioSegments.
  induction Hall as [|s segments Hs _ IH]; intros i audioSegments; simpl.
  - by rewrite app_nil_r.
  - rewrite extractSegment_Some by done. simpl. rewrite IH.
    rewrite <- app_assoc. simpl. rewrite Nat.add_0_r. do 3 f_equal.
    apply imap_ext. intros k x _. simpl. f_equal. lia.
Qed.

Lemma extractSegments_Some audioBuffer segments :
  (1 <= AudioBuffer.numberOfChannels audioBuffer)%nat ->
  Forall (fun s => (1 <= segmentFrames (AudioBuffer.sampleRate audioBuffer) s)%Z)
         segments ->
  extractSegmentsFromTimestamps audioBuffer segments
  = Some (imap (slicedSegment audioBuffer) segments).
Proof.
  intros. unfold extractSegmentsFromTimestamps.
  by rewrite extractLoop_Some.
Qed.

Lemma extractSegment_inv audioBuffer i segment a :
  extractSegment audioBuffer i segment = Some a ->
  a = slicedSegment audioBuffer i segment /\
  (1 <= AudioBuffer.numberOfChannels audioBuffer)%nat /\
  (1 <= segmentFrames (AudioBuffer.sampleRate audioBuffer) segment)%Z.
Proof.
  intros H.
  destruct (decide (1 <= AudioBuffer.numberOfChannels audioBuffer)%nat) as [Hc|Hc];
  [destruct (decide (1 <= segmentFrames (AudioBuffer.sampleRate audioBuffer)
                                           segment)%Z) as [Hl|Hl]|].
  - rewrite extractSegment_Some in H by done. by simplify_eq.
  - rewrite extractSegment_None in H by lia. done.
  - unfold extractSegment, createBuffer in H.
    rewrite (proj2 (Nat.ltb_ge _ _)) in H by lia. done.
Qed.

Lemma extractLoop_inv audioBuffer i segments audioSegments out :
  extractLoop audioBuffer i segments audioSegments = Some out ->
  out = audioSegments
        ++ imap (fun k s => slicedSegment audioBuffer (i + k) s) segments.
Proof.
  revert i audioSegments.
  induction segments as [|s segments IH]; intros i acc H; simpl in *.
  - rewrite app_nil_r. by simplify_eq.
  - destruct (extractSegment audioBuffer i s) as [a|] eqn:Ha; [|done].
    simpl in H. apply IH in H. apply extractSegment_inv in Ha as (-> & _ & _).
    rewrite H, <- app_assoc. simpl. rewrite Nat.add_0_r. do 2 f_equal.
    apply imap_ext. intros k x _. simpl. f_equal. lia.
Qed.

Lemma extractSegments_inv audioBuffer segments out :
  extractSegmentsFromTimestamps audioBuffer segments = Some out ->
  out = imap (slicedSegment audioBuffer) segments.
Proof. apply extractLoop_inv. Qed.

Lemma slicedSegment_format audioBuffer i segment :
  AudioBuffer.numberOfChannels (AudioSegment.buffer (slicedSegment audioBuffer i segment))
  = AudioBuffer.numberOfChannels audioBuffer /\
  AudioBuffer.sampleRate (AudioSegment.buffer (slicedSegment audioBuffer i segment))
  = AudioBuffer.sampleRate audioBuffer.
Proof.
  unfold slicedSegment, AudioBuffer.numberOfChannels. simpl.
  by rewrite length_fmap.
Qed.

Lemma slicedSegment_channel audioBuffer i segment channel channelData :
  AudioBuffer.getChannelData audioBuffer channel = Some channelData ->
  AudioBuffer.getChannelData (AudioSegment.buffer (slicedSegment audioBuffer i segment))
                             channel
  = Some (segmentSample
            (Qfloor (Segment.startTime segment
                     * inject_Z (AudioBuffer.sampleRate audioBuffer)))
            channelData
          <$> seq 0 (Z.to_nat (segmentFrames (AudioBuffer.sampleRate audioBuffer)
                                             segment))).
Proof.
  unfold slicedSegment, AudioBuffer.getChannelData. simpl. intros H.
  by rewrite list_lookup_fmap, H.
Qed.

Lemma slicedSegment_length audioBuffer i segment :
  (1 <= AudioBuffer.numberOfChannels audioBuffer)%nat ->
  AudioBuffer.length (AudioSegment.buffer (slicedSegment audioBuffer i segment))
  = Z.to_nat (segmentFrames (AudioBuffer.sampleRate audioBuffer) segment).
Proof.
  unfold slicedSegment, AudioBuffer.numberOfChannels, AudioBuffer.length.
  simpl. destruct (AudioBuffer.channels audioBuffer) as [|c l]; simpl; [lia|].
  intros _. by rewrite length_fmap, length_seq.
Qed.

(** ** Floors *)

Lemma Qfloor_bounds (x : Q) :
  inject_Z (Qfloor x) <= x /\ x < inject_Z (Qfloor x) + 1.
Proof.
  split; [apply Qfloor_le|].
  pose proof (Qlt_floor x) as H. rewrite inject_Z_plus in H. exact H.
Qed.

Lemma inject_Z_sub (a b : Z) : inject_Z (a - b) = inject_Z a - inject_Z b.
Proof. unfold Z.sub. by rewrite inject_Z_plus, inject_Z_opp. Qed.

Lemma inject_Z_lt_inv (a b : Z) : inject_Z a < inject_Z b + 1 -> (a <= b)%Z.
Proof.
  intros H. apply Z.lt_succ_r. rewrite Zlt_Qlt.
  unfold Z.succ. rewrite inject_Z_plus. exact H.
Qed.

Lemma floor_difference_near (a b d : Q) (fa fb fd : Z) :
  inject_Z fa <= a -> a < inject_Z fa + 1 ->
  inject_Z fb <= b -> b < inject_Z fb + 1 ->
  inject_Z fd <= d -> d < inject_Z fd + 1 ->
  d == b - a + (1 # 2) ->
  (Z.abs (fb - fa - fd) <= 1)%Z.
Proof.
  intros Ha1 Ha2 Hb1 Hb2 Hd1 Hd2 Hd. apply Z.abs_le. split.
  - assert (H : inject_Z fd < inject_Z (fb - fa + 1) + 1).
    { rewrite inject_Z_plus, inject_Z_sub. change (inject_Z 1) with 1. lra. }
    apply inject_Z_lt_inv in H. lia.
  - assert (H : inject_Z (fb - fa) < inject_Z (fd + 1) + 1).
    { rewrite inject_Z_sub, inject_Z_plus. change (inject_Z 1) with 1. lra. }
    apply inject_Z_lt_inv in H. lia.
Qed.

(** The frame count of a segment is within one frame of its duration times
    the rate, rounded. *)
Lemma segmentFrames_near_round sampleRate segment :
  (Z.abs (segmentFrames sampleRate segment
          - Math_round ((Segment.endTime segment - Segment.startTime segment)
                        * inject_Z sampleRate)) <= 1)%Z.
Proof.
  unfold segmentFrames, Math_round.
  eapply floor_difference_near; try apply Qfloor_bounds. ring.
Qed.

Lemma floor_step (a b : Q) : a + 1 <= b -> (Qfloor a + 1 <= Qfloor b)%Z.
Proof.
  intros H. destruct (Qfloor_bounds a) as [Ha1 Ha2].
  destruct (Qfloor_bounds b) as [Hb1 Hb2].
  assert (H' : inject_Z (Qfloor a + 1) < inject_Z (Qfloor b) + 1).
  { rewrite inject_Z_plus. change (inject_Z 1) with 1. lra. }
  by apply inject_Z_lt_inv in H'.
Qed.

(** A segment that lasts a second or more has at least one frame at any
    rate of 1 Hz or more. *)
Lemma accepted_segment_has_frames sampleRate segment :
  (1 <= sampleRate)%Z ->
  1 <= Segment.endTime segment - Segment.startTime segment ->
  (1 <= segmentFrames sampleRate segment)%Z.
Proof.
  intros Hr Hd. unfold segmentFrames.
  assert (Hr' : 1 <= inject_Z sampleRate).
  { change 1 with (inject_Z 1). by rewrite <- Zle_Qle. }
  pose proof (floor_step (Segment.startTime segment * inject_Z sampleRate)
                         (Segment.endTime segment * inject_Z sampleRate)) as H.
  assert (Hnn : 0 <= (Segment.endTime segment - Segment.startTime segment - 1)
                     * inject_Z sampleRate)
    by (apply Qmult_le_0_compat; lra).
  lapply H; [lia|]. nra.
Qed.

(** C5. For every list of descriptors whose computed frame counts are
    positive (the extractor's precondition), extraction from a buffer at
    rate [r] returns one segment per descriptor, in order, and the buffer
    of the segment for [d] has [floor(d.end * r) - floor(d.start * r)]
    frames in each of its channels. *)
Theorem extracted_length_is_floor_difference
    (audioBuffer : AudioBuffer.t) (segments : list Segment.t) :
  let r := inject_Z (AudioBuffer.sampleRate audioBuffer) in
  (1 <= AudioBuffer.numberOfChannels audioBuffer)%nat ->
  Forall (fun d => (1 <= Qfloor (Segment.endTime d * r)
                         - Qfloor (Segment.startTime d * r))%Z) segments ->
  exists audioSegments,
    extractSegmentsFromTimestamps audioBuffer segments = Some audioSegments /\
    Forall2 (fun d a =>
               let frames := (Qfloor (Segment.endTime d * r)
                              - Qfloor (Segment.startTime d * r))%Z in
               Z.of_nat (AudioBuffer.length (AudioSegment.buffer a)) = frames /\
               Forall (fun c => Z.of_nat (length c) = frames)
                      (AudioBuffer.channels (AudioSegment.buffer a)))
            segments audioSegments.
Proof.
  intros r Hch Hall. subst r. eexists.
  split; [by apply extractSegments_Some|].
  apply Forall2_lookup. intros i. rewrite list_lookup_imap.
  destruct (segments !! i) as [d|] eqn:Hd; constructor.
  rewrite Forall_lookup in Hall. specialize (Hall i d Hd). cbv beta in Hall.
  cbv zeta. fold (segmentFrames (AudioBuffer.sampleRate audioBuffer) d) in *.
  split.
  - rewrite slicedSegment_length by done. lia.
  - unfold slicedSegment. cbn [AudioSegment.buffer AudioBuffer.channels].
    apply Forall_fmap, Forall_true. intros c.
    cbn [compose]. rewrite length_fmap, length_seq. lia.
Qed.

Lemma extracted_length_is_floor_difference_witness :
  let audioBuffer := AudioBuffer.mk 16000 [[Num 0; Num 0.5; Num (-0.5); Num 1]] in
  let segments := [Segment.mk 0 0.001 [] "1" (Some 1%Z)] in
  exists audioSegments,
    extractSegmentsFromTimestamps audioBuffer segments = Some audioSegments /\
    Forall2 (fun d a =>
               let frames := (Qfloor (Segment.endTime d * inject_Z 16000)
                              - Qfloor (Segment.startTime d * inject_Z 16000))%Z in
               Z.of_nat (AudioBuffer.length (AudioSegment.buffer a)) = frames /\
               Forall (fun c => Z.of_nat (length c) = frames)
                      (AudioBuffer.channels (AudioSegment.buffer a)))
            segments audioSegments.
Proof.
  intros audioBuffer segments.
  apply (extracted_length_is_floor_difference audioBuffer segments).
  - vm_compute. lia.
  - repeat constructor. vm_compute. discriminate.
Defined.

(** C4, as stated, fails: the segment found for a transcript whose marker
    starts at 2^-14 s and whose last word ends at 3 s has, at 16000 Hz,
    [floor(48000) - floor(0.9765625) = 48000] frames, while its duration
    times the rate rounds to 47999. *)
Lemma floor_difference_is_not_rounded_duration :
  let words := [Word.mk " 7" (0.00006103515625, 0.5);
                Word.mk " sept" (0.75, 3)] in
  let d := Segment.mk 0.00006103515625 3 words "7 sept" (Some 7%Z) in
  let audioBuffer := AudioBuffer.mk 16000 [[Num 0; Num 0.5; Num (-0.5); Num 1]] in
  findSegmentsByNumberPattern 2 (Build_Transcription "7 sept" (Some words)) = [d] /\
  Segment.startTime d < Segment.endTime d /\
  exists a,
    extractSegmentsFromTimestamps audioBuffer [d] = Some [a] /\
    Z.of_nat (AudioBuffer.length (AudioSegment.buffer a)) = 48000%Z /\
    Math_round ((Segment.endTime d - Segment.startTime d) * inject_Z 16000)
    = 47999%Z.
Proof.
  intros words d audioBuffer. split; [vm_compute; reflexivity|].
  split; [vm_compute; reflexivity|].
  exists (slicedSegment audioBuffer 0 d). split; [|split].
  - rewrite extractSegments_Some; [reflexivity | vm_compute; lia |].
    repeat constructor. vm_compute. discriminate.
  - rewrite slicedSegment_length by (vm_compute; lia). vm_compute. reflexivity.
  - vm_compute. reflexivity.
Qed.

(** C4, amended. For a descriptor [d] with [end > start] whose computed
    frame count is positive, extraction at rate [r] returns a buffer of
    [floor(d.end * r) - floor(d.start * r)] frames; that count differs from
    [round((d.end - d.start) * r)] by at most one. *)
Theorem extracted_length_near_rounded_duration
    (audioBuffer : AudioBuffer.t) (d : Segment.t) :
  let r := inject_Z (AudioBuffer.sampleRate audioBuffer) in
  let frames := (Qfloor (Segment.endTime d * r)
                 - Qfloor (Segment.startTime d * r))%Z in
  (1 <= AudioBuffer.numberOfChannels audioBuffer)%nat ->
  Segment.startTime d < Segment.endTime d ->
  (1 <= frames)%Z ->
  exists a,
    extractSegmentsFromTimestamps audioBuffer [d] = Some [a] /\
    Z.of_nat (AudioBuffer.length (AudioSegment.buffer a)) = frames /\
    (Z.abs (Z.of_nat (AudioBuffer.length (AudioSegment.buffer a))
            - Math_round ((Segment.endTime d - Segment.startTime d) * r))
     <= 1)%Z.
Proof.
  intros r frames Hch _ Hlen. exists (slicedSegment audioBuffer 0 d).
  subst frames r.
  fold (segmentFrames (AudioBuffer.sampleRate audioBuffer) d) in *.
  split; [|split].
  - rewrite extractSegments_Some; [reflexivity | done |]. by repeat constructor.
  - rewrite slicedSegment_length by done. lia.
  - rewrite slicedSegment_length by done. rewrite Z2Nat.id by lia.
    apply segmentFrames_near_round.
Qed.

Lemma extracted_length_near_rounded_duration_witness :
  let audioBuffer := AudioBuffer.mk 16000 [[Num 0; Num 0.5; Num (-0.5); Num 1]] in
  let d := Segment.mk 0.0001 0.001 [] "1" (Some 1%Z) in
  exists a,
    extractSegmentsFromTimestamps audioBuffer [d] = Some [a] /\
    Z.of_nat (AudioBuffer.length (AudioSegment.buffer a))
    = (Qfloor (0.001 * inject_Z 16000) - Qfloor (0.0001 * inject_Z 16000))%Z /\
    (Z.abs (Z.of_nat (AudioBuffer.length (AudioSegment.buffer a))
            - Math_round ((0.001 - 0.0001) * inject_Z 16000)) <= 1)%Z.
Proof.
  intros audioBuffer d.
  apply (extracted_length_near_rounded_duration audioBuffer d).
  - vm_compute. lia.
  - vm_compute. reflexivity.
  - vm_compute. discriminate.
Defined.

(** ** The stored buffer *)

Lemma convertedBuffer_mono16k rendered originalBuffer b :
  convertedBuffer rendered originalBuffer = Some b -> mono16k b.
Proof.
  unfold convertedBuffer, mono16k.
  destruct (_ =? 1)%nat eqn:Hn; destruct (_ =? 16000)%Z eqn:Hr; simpl.
  - intros [= <-]. apply Nat.eqb_eq in Hn. apply Z.eqb_eq in Hr. done.
  - destruct (createBuffer _ _ _); simpl; [|done].
    destruct (AudioBuffer.getChannelData _ _); simpl; [|done].
    unfold renderOffline. destruct (0 <? _)%Z; [|done]. by intros [= <-].
  - destruct (createBuffer _ _ _); simpl; [|done].
    destruct (AudioBuffer.getChannelData _ _); simpl; [|done].
    intros [= <-]. apply Z.eqb_eq in Hr. done.
  - destruct (createBuffer _ _ _); simpl; [|done].
    destruct (AudioBuffer.getChannelData _ _); simpl; [|done].
    unfold renderOffline. destruct (0 <? _)%Z; [|done]. by intros [= <-].
Qed.

Lemma processAudio_cases app whisper :
  processAudio app whisper = app \/
  exists audioBuffer transcription audioSegments,
    App.audioBuffer app = Some audioBuffer /\
    whisper = Some transcription /\
    extractSegmentsFromTimestamps audioBuffer
      (findSegmentsByNumberPattern (App.minSegmentDuration app) transcription)
    = Some audioSegments /\
    processAudio app whisper
    = App.mk (App.audioFile app) false (App.audioBuffer app) audioSegments
             (App.minSegmentDuration app).
Proof.
  unfold processAudio.
  destruct (App.audioFile app); simpl; [|by left].
  destruct (App.isProcessing app); [by left|].
  destruct (App.audioBuffer app) as [ab|] eqn:Hab; [|by left].
  destruct whisper as [T|]; simpl; [|by left].
  destruct (extractSegmentsFromTimestamps _ _) as [out|] eqn:Hout; [|by left].
  right. by exists ab, T, out.
Qed.

(** What holds in every state: the stored buffer and the buffers of the
    stored segments are mono at 16 kHz, and the setting is within the
    slider's range. *)
Lemma reachable_inv rendered app :
  reachable rendered app ->
  (forall b, App.audioBuffer app = Some b -> mono16k b) /\
  Forall (fun a => mono16k (AudioSegment.buffer a)) (App.segments app) /\
  sliderRange (App.minSegmentDuration app).
Proof.
  induction 1 as [|app decoded _ (IHb & IHs & IHm)
                  |app value _ (IHb & IHs & IHm) Hv
                  |app whisper _ (IHb & IHs & IHm)].
  - split; [done|]. split; [constructor|]. unfold sliderRange. simpl. lra.
  - unfold convertAudioTo16kMono.
    destruct (decoded ≫= convertedBuffer rendered) as [b|] eqn:Hb; simpl;
      (split; [|done]); [|done].
    intros b' [= <-]. destruct decoded as [o|]; [|done]. simpl in Hb.
    by apply convertedBuffer_mono16k in Hb.
  - done.
  - destruct (processAudio_cases app whisper)
      as [-> | (ab & T & out & Hab & _ & Hout & ->)]; [done|]. simpl.
    split; [done|]. split; [|done].
    apply extractSegments_inv in Hout as ->.
    apply Forall_lookup. intros i a. rewrite list_lookup_imap.
    destruct (_ !! i) as [d|]; simpl; [|done]. intros [= <-].
    destruct (slicedSegment_format ab i d) as [Hn Hr].
    destruct (IHb ab Hab) as [Hn' Hr']. split; congruence.
Qed.

Lemma processAudio_segments app audioBuffer transcription :
  App.audioFile app = true -> App.isProcessing app = false ->
  App.audioBuffer app = Some audioBuffer ->
  (1 <= AudioBuffer.numberOfChannels audioBuffer)%nat ->
  Forall (fun s => (1 <= segmentFrames (AudioBuffer.sampleRate audioBuffer) s)%Z)
         (findSegmentsByNumberPattern (App.minSegmentDuration app) transcription) ->
  App.segments (processAudio app (Some transcription))
  = imap (slicedSegment audioBuffer)
         (findSegmentsByNumberPattern (App.minSegmentDuration app) transcription).
Proof.
  intros Hf Hp Hb Hch Hall. unfold processAudio. rewrite Hf, Hp, Hb. simpl.
  by rewrite extractSegments_Some.
Qed.

(** C3, as stated, fails: after the upload of a stereo recording at
    44100 Hz the stored buffer is the mono 16 kHz conversion, and the
    segment cut for the transcript has one channel at 16000 Hz, not the
    two channels at 44100 Hz of the decoded audio. *)
Lemma stereo_upload_gives_mono_16k_segments :
  let originalBuffer :=
    AudioBuffer.mk 44100 [[Num 0.5; Num 0.25; Num 0; Num (-0.25)];
                          [Num 0.5; Num 0.75; Num 1; Num 0.25]] in
  let words := [Word.mk " 105" (0, 0.5); Word.mk " hello" (0.5, 1);
                Word.mk " world" (1.25, 2.5)] in
  let transcription := Build_Transcription "105 hello world" (Some words) in
  let app :=
    processAudio (convertAudioTo16kMono heldFrame newApp (Some originalBuffer))
                 (Some transcription) in
  exists a,
    App.segments app = [a] /\
    AudioBuffer.numberOfChannels (AudioSegment.buffer a) = 1%nat /\
    AudioBuffer.numberOfChannels originalBuffer = 2%nat /\
    AudioBuffer.sampleRate (AudioSegment.buffer a) = 16000%Z /\
    AudioBuffer.sampleRate originalBuffer = 44100%Z.
Proof.
  intros originalBuffer words transcription app.
  set (app1 := convertAudioTo16kMono heldFrame newApp (Some originalBuffer)) in *.
  set (d := Segment.mk 0 2.5 words "105 hello world" (Some 105%Z)).
  destruct (App.audioBuffer app1) as [stored|] eqn:Hab;
    [|vm_compute in Hab; discriminate].
  assert (Hm : mono16k stored).
  { eapply (reachable_inv heldFrame app1); [|exact Hab].
    apply reach_upload, reach_new. }
  destruct Hm as [Hn Hr].
  assert (Hd : findSegmentsByNumberPattern (App.minSegmentDuration app1)
                 transcription = [d]) by (vm_compute; reflexivity).
  exists (slicedSegment stored 0 d). split.
  - subst app. rewrite (processAudio_segments app1 stored transcription).
    + by rewrite Hd.
    + vm_compute. reflexivity.
    + vm_compute. reflexivity.
    + exact Hab.
    + lia.
    + rewrite Hd, Hr. repeat constructor. vm_compute. discriminate.
  - destruct (slicedSegment_format stored 0 d) as [-> ->]. done.
Qed.

(** C3, amended. In every state of the application the stored buffer
    [this.audioBuffer], from which the extractor slices, is the mono 16 kHz
    buffer that [convertAudioTo16kMono] produced (the decoded audio itself
    only when that is already mono at 16 kHz), and every segment buffer has
    the channel count and the sample rate of that stored buffer: one
    channel at 16000 Hz, whatever the decoded audio had. *)
Theorem segments_have_stored_buffer_format
    (rendered : AudioBuffer.t -> nat -> sample) (app : App.t) :
  reachable rendered app ->
  (forall b, App.audioBuffer app = Some b ->
     AudioBuffer.numberOfChannels b = 1%nat /\
     AudioBuffer.sampleRate b = 16000%Z) /\
  Forall (fun a =>
            AudioBuffer.numberOfChannels (AudioSegment.buffer a) = 1%nat /\
            AudioBuffer.sampleRate (AudioSegment.buffer a) = 16000%Z)
         (App.segments app).
Proof.
  intros H. destruct (reachable_inv rendered app H) as (Hb & Hs & _).
  split; [exact Hb | exact Hs].
Qed.

Lemma segments_have_stored_buffer_format_witness :
  let originalBuffer :=
    AudioBuffer.mk 44100 [[Num 0.5; Num 0.25; Num 0; Num (-0.25)];
                          [Num 0.5; Num 0.75; Num 1; Num 0.25]] in
  let words := [Word.mk " 105" (0, 0.5); Word.mk " hello" (0.5, 1);
                Word.mk " world" (1.25, 2.5)] in
  let app :=
    processAudio (convertAudioTo16kMono heldFrame newApp (Some originalBuffer))
                 (Some (Build_Transcription "105 hello world" (Some words))) in
  (forall b, App.audioBuffer app = Some b ->
     AudioBuffer.numberOfChannels b = 1%nat /\
     AudioBuffer.sampleRate b = 16000%Z) /\
  Forall (fun a =>
            AudioBuffer.numberOfChannels (AudioSegment.buffer a) = 1%nat /\
            AudioBuffer.sampleRate (AudioSegment.buffer a) = 16000%Z)
         (App.segments app).
Proof.
  intros originalBuffer words app.
  apply (segments_have_stored_buffer_format heldFrame app).
  apply reach_process, reach_upload, reach_new.
Defined.

(** ** Silence past the end of the source *)

Lemma segmentSample_lookup startSample channelData n k :
  (k < n)%nat ->
  (segmentSample startSample channelData <$> seq 0 n) !! k
  = Some (segmentSample startSample channelData k).
Proof.
  intros Hk. by rewrite list_lookup_fmap, lookup_seq_lt.
Qed.

Lemma segmentSample_past_end startSample channelData k :
  (Z.of_nat (length channelData) <= startSample + Z.of_nat k)%Z ->
  segmentSample startSample channelData k = Num 0.
Proof.
  intros H. unfold segmentSample.
  by rewrite (proj2 (Z.ltb_ge _ _)) by lia.
Qed.

Lemma segmentSample_inside startSample channelData k :
  (0 <= startSample + Z.of_nat k < Z.of_nat (length channelData))%Z ->
  Some (segmentSample startSample channelData k)
  = channelData !! Z.to_nat (startSample + Z.of_nat k).
Proof.
  intros H. unfold segmentSample, f32_get.
  rewrite (proj2 (Z.ltb_lt _ _)) by lia.
  rewrite (proj2 (Z.ltb_ge _ _)) by lia.
  destruct (lookup_lt_is_Some_2 channelData
              (Z.to_nat (startSample + Z.of_nat k))) as [x Hx]; [lia|].
  by rewrite Hx.
Qed.

(** C9. In every state of the application, whatever the transcript, the
    extractor returns a segment buffer for every descriptor that the
    detector accepted, and raises no error.  Each channel of the buffer has
    the full computed length [floor(end * r) - floor(start * r)]; a
    position whose source index is at or past the end of the source
    channel holds 0, a position whose source index is inside the channel
    holds the source sample. *)
Theorem accepted_segments_are_extracted_with_padding
    (rendered : AudioBuffer.t -> nat -> sample) (app : App.t)
    (audioBuffer : AudioBuffer.t) (transcription : Transcription) :
  reachable rendered app ->
  App.audioBuffer app = Some audioBuffer ->
  let r := inject_Z (AudioBuffer.sampleRate audioBuffer) in
  let segments :=
    findSegmentsByNumberPattern (App.minSegmentDuration app) transcription in
  exists audioSegments,
    extractSegmentsFromTimestamps audioBuffer segments = Some audioSegments /\
    Forall2
      (fun d a =>
         let startSample := Qfloor (Segment.startTime d * r) in
         let frames := (Qfloor (Segment.endTime d * r) - startSample)%Z in
         forall channel channelData,
           AudioBuffer.getChannelData audioBuffer channel = Some channelData ->
           exists segmentChannelData,
             AudioBuffer.getChannelData (AudioSegment.buffer a) channel
             = Some segmentChannelData /\
             Z.of_nat (length segmentChannelData) = frames /\
             forall k, (k < length segmentChannelData)%nat ->
               let sourceIndex := (startSample + Z.of_nat k)%Z in
               ((Z.of_nat (length channelData) <= sourceIndex)%Z ->
                segmentChannelData !! k = Some (Num 0)) /\
               ((0 <= sourceIndex < Z.of_nat (length channelData))%Z ->
                segmentChannelData !! k = channelData !! Z.to_nat sourceIndex))
      segments audioSegments.
Proof.
  intros Hreach Hab r segments. subst r.
  destruct (reachable_inv rendered app Hreach) as (Hb & _ & Hmin & _).
  destruct (Hb audioBuffer Hab) as [Hn Hr].
  assert (Hframes :
    Forall (fun s =>
              (1 <= segmentFrames (AudioBuffer.sampleRate audioBuffer) s)%Z)
           segments).
  { eapply Forall_impl; [apply findSegments_Forall|].
    intros s Hs. apply accepted_segment_has_frames; [rewrite Hr; lia|].
    unfold lastsAtLeast in Hs. lra. }
  eexists. split; [apply extractSegments_Some; [lia | done]|].
  apply Forall2_lookup. intros i. rewrite list_lookup_imap.
  destruct (segments !! i) as [d|] eqn:Hd; constructor.
  rewrite Forall_lookup in Hframes. specialize (Hframes i d Hd).
  cbv zeta. intros channel channelData Hch.
  eexists. split; [by apply slicedSegment_channel|].
  rewrite length_fmap, length_seq.
  fold (segmentFrames (AudioBuffer.sampleRate audioBuffer) d).
  split; [lia|]. intros k Hk.
  rewrite segmentSample_lookup by done. split; intros Hi.
  - by rewrite segmentSample_past_end.
  - by apply segmentSample_inside.
Qed.

Lemma accepted_segments_are_extracted_with_padding_witness :
  let originalBuffer :=
    AudioBuffer.mk 44100 [[Num 0.5; Num 0.25; Num 0; Num (-0.25)];
                          [Num 0.5; Num 0.75; Num 1; Num 0.25]] in
  let app := convertAudioTo16kMono heldFrame newApp (Some originalBuffer) in
  let audioBuffer := AudioBuffer.mk 16000 [[Num (1 # 2); Num (1 # 2)]] in
  let words := [Word.mk " 105" (0, 0.5); Word.mk " hello" (0.5, 1);
                Word.mk " world" (1.25, 2.5)] in
  let segments :=
    findSegmentsByNumberPattern 2
      (Build_Transcription "105 hello world" (Some words)) in
  App.audioBuffer app = Some audioBuffer /\
  exists audioSegments,
    extractSegmentsFromTimestamps audioBuffer segments = Some audioSegments /\
    Forall2
      (fun d a =>
         let startSample := Qfloor (Segment.startTime d * inject_Z 16000) in
         let frames :=
           (Qfloor (Segment.endTime d * inject_Z 16000) - startSample)%Z in
         forall channel channelData,
           AudioBuffer.getChannelData audioBuffer channel = Some channelData ->
           exists segmentChannelData,
             AudioBuffer.getChannelData (AudioSegment.buffer a) channel
             = Some segmentChannelData /\
             Z.of_nat (length segmentChannelData) = frames /\
             forall k, (k < length segmentChannelData)%nat ->
               let sourceIndex := (startSample + Z.of_nat k)%Z in
               ((Z.of_nat (length channelData) <= sourceIndex)%Z ->
                segmentChannelData !! k = Some (Num 0)) /\
               ((0 <= sourceIndex < Z.of_nat (length channelData))%Z ->
                segmentChannelData !! k = channelData !! Z.to_nat sourceIndex))
      segments audioSegments.
Proof.
  intros originalBuffer app audioBuffer words segments.
  split; [reflexivity|].
  exact (accepted_segments_are_extracted_with_padding heldFrame app audioBuffer
           (Build_Transcription "105 hello world" (Some words))
           (reach_upload heldFrame newApp (Some originalBuffer)
                         (reach_new heldFrame))
           eq_refl).
Defined.

(** ** Sequential writes into a zeroed view *)

Lemma length_leBytes n v : length (leBytes n v) = n.
Proof. revert v. induction n as [|n IH]; intros v; simpl; auto. Qed.

Lemma setBytes_next (written : list Z) (bytes : list Z) (m : nat) (off : nat) :
  off = length written -> (length bytes <= m)%nat ->
  setBytes (written ++ replicate m 0%Z) off bytes
  = Some ((written ++ bytes) ++ replicate (m - length bytes) 0%Z).
Proof.
  intros -> Hm. unfold setBytes.
  rewrite length_app, length_replicate.
  rewrite (proj2 (Nat.leb_le _ _)) by lia.
  rewrite take_app_length, drop_app_add, drop_replicate.
  by rewrite <- app_assoc.
Qed.

Lemma ascii_code_mod (c : ascii) :
  (Z.of_nat (nat_of_ascii c) mod 256 = Z.of_nat (nat_of_ascii c))%Z.
Proof.
  apply Z.mod_small. pose proof (nat_ascii_bounded c). lia.
Qed.

Lemma writeString4_next (written : list Z) (m off : nat) (c0 c1 c2 c3 : ascii) :
  off = length written -> (4 <= m)%nat ->
  writeString (written ++ replicate m 0%Z) off
              (String c0 (String c1 (String c2 (String c3 EmptyString))))
  = Some ((written
           ++ charCodes (String c0 (String c1 (String c2 (String c3 EmptyString)))))
          ++ replicate (m - 4) 0%Z).
Proof.
  intros -> Hm. unfold writeString, setUint8, charCodeAt. simpl.
  do 4 (rewrite setBytes_next;
        [simpl | rewrite ?length_app; simpl; lia | simpl; lia]).
  rewrite <- !app_assoc. simpl. unfold charCodes. simpl.
  rewrite !ascii_code_mod.
  by replace (m - 1 - 1 - 1 - 1)%nat with (m - 4)%nat by lia.
Qed.

Lemma setUint_next (n : nat) (written : list Z) (m off : nat) (v : Z) :
  off = length written -> (n <= m)%nat ->
  setBytes (written ++ replicate m 0%Z) off (leBytes n v)
  = Some ((written ++ leBytes n v) ++ replicate (m - n) 0%Z).
Proof.
  intros Hoff Hm. rewrite setBytes_next; rewrite ?length_leBytes; done.
Qed.

(** ** The sample loop *)

Lemma encodeLoop_next channelData (written : list Z) (count first : nat) :
  foldl (encodeStep channelData)
        (Some (written ++ replicate (count * 2) 0%Z, length written))
        (seq first count)
  = Some (written ++ wavPayload channelData first count,
          (length written + count * 2)%nat).
Proof.
  revert written first. induction count as [|count IH]; intros written first.
  - simpl. by rewrite !app_nil_r, Nat.add_0_r.
  - cbn [seq foldl]. unfold encodeStep at 2. cbn [mbind option_bind].
    unfold setInt16. rewrite (setUint_next 2) by (done || simpl; lia).
    cbn [mbind option_bind].
    replace (S count * 2 - 2)%nat with (count * 2)%nat by lia.
    replace (length written + 2)%nat
      with (length (written ++ leBytes 2 (ToInt16 (scaleSample
              (clampSample (f32_get channelData (Z.of_nat first)))))))
      by (rewrite length_app, length_leBytes; lia).
    rewrite IH. rewrite length_app, length_leBytes.
    unfold wavPayload. cbn [seq mbind list_bind]. 
    rewrite <- app_assoc. do 2 f_equal. lia.
Qed.

(** ** The file in closed form *)

Lemma length_charCodes4 c0 c1 c2 c3 :
  length (charCodes (String c0 (String c1 (String c2 (String c3 EmptyString)))))
  = 4%nat.
Proof. reflexivity. Qed.

Ltac written_length :=
  rewrite ?length_app, ?length_leBytes, ?length_charCodes4; simpl; lia.

Ltac next_write :=
  first [ rewrite writeString4_next; [ | written_length | lia ]
        | rewrite setUint_next; [ | written_length | lia ] ];
  cbn [mbind option_bind].

Lemma AudioBuffer_length_channel0 buffer channelData :
  AudioBuffer.getChannelData buffer 0 = Some channelData ->
  AudioBuffer.length buffer = length channelData.
Proof.
  unfold AudioBuffer.getChannelData, AudioBuffer.length.
  destruct (AudioBuffer.channels buffer); simpl; [done|]. by intros [= ->].
Qed.

Lemma bufferToWav_closed buffer channelData :
  AudioBuffer.getChannelData buffer 0 = Some channelData ->
  bufferToWav buffer
  = Some (wavHeader (AudioBuffer.sampleRate buffer) (length channelData)
          ++ wavPayload channelData 0 (length channelData)).
Proof.
  intros Hch. unfold bufferToWav.
  rewrite (AudioBuffer_length_channel0 _ _ Hch), Hch.
  set (n := length channelData).
  change (replicate (44 + n * 2) 0%Z) with ([] ++ replicate (44 + n * 2) 0%Z).
  unfold setUint32, setUint16.
  do 13 next_write.
  match goal with
  | |- context [Some (?w ++ replicate ?m 0%Z, 44%nat)] =>
      replace m with (n * 2)%nat by lia;
      replace 44%nat with (length w) by written_length
  end.
  rewrite encodeLoop_next. cbn [mbind option_bind].
  unfold wavHeader. rewrite <- !app_assoc. reflexivity.
Qed.

Lemma length_wavHeader sampleRate n : length (wavHeader sampleRate n) = 44%nat.
Proof. reflexivity. Qed.

Lemma length_wavPayload channelData first count :
  length (wavPayload channelData first count) = (count * 2)%nat.
Proof.
  unfold wavPayload. revert first.
  induction count as [|count IH]; intros first; [done|].
  cbn [seq mbind list_bind]. rewrite length_app, IH.
  unfold encodedSample. rewrite length_leBytes. lia.
Qed.

Lemma wavPayload_lookup channelData first count i j :
  (i < count)%nat -> (j < 2)%nat ->
  wavPayload channelData first count !! (i * 2 + j)%nat
  = encodedSample channelData (first + i) !! j.
Proof.
  unfold wavPayload. revert first i.
  induction count as [|count IH]; intros first i Hi Hj; [lia|].
  cbn [seq mbind list_bind].
  assert (Hlen : length (encodedSample channelData first) = 2%nat)
    by apply length_leBytes.
  destruct i as [|i].
  - rewrite lookup_app_l by (rewrite Hlen; simpl; lia).
    by rewrite Nat.add_0_r.
  - rewrite lookup_app_r by (rewrite Hlen; simpl; lia). rewrite Hlen.
    replace (S i * 2 + j - 2)%nat with (i * 2 + j)%nat by lia.
    rewrite IH by lia. f_equal. f_equal. lia.
Qed.

Lemma file_lookup_header sampleRate n payload i :
  (i < 44)%nat ->
  (wavHeader sampleRate n ++ payload) !! i = wavHeader sampleRate n !! i.
Proof. intros Hi. apply lookup_app_l. by rewrite length_wavHeader. Qed.

Lemma file_lookup_payload sampleRate n payload k :
  (wavHeader sampleRate n ++ payload) !! (44 + k)%nat = payload !! k.
Proof.
  rewrite lookup_app_r by (rewrite length_wavHeader; lia).
  rewrite length_wavHeader. f_equal. lia.
Qed.

(** ** Little-endian fields read back *)

Lemma le16_decode (v : Z) :
  (0 <= v < 65536)%Z ->
  (v mod 256 + 256 * ((v / 256) mod 256))%Z = v.
Proof. intros H. Z.div_mod_to_equations. lia. Qed.

Lemma le16_decode_signed (v : Z) :
  (-32768 <= v < 32768)%Z ->
  (let u := (v mod 256 + 256 * ((v / 256) mod 256))%Z in
   if (u <? 32768)%Z then u else u - 65536)%Z = v.
Proof.
  intros H. cbv zeta.
  destruct (Z.ltb_spec (v mod 256 + 256 * ((v / 256) mod 256)) 32768);
    Z.div_mod_to_equations; lia.
Qed.

Lemma le32_decode (v : Z) :
  (0 <= v < 4294967296)%Z ->
  (v mod 256 + 256 * ((v / 256) mod 256)
   + 65536 * ((v / 256 / 256) mod 256 + 256 * ((v / 256 / 256 / 256) mod 256)))%Z
  = v.
Proof. intros H. Z.div_mod_to_equations. lia. Qed.

Lemma getUint16_header sampleRate n payload off v :
  (off + 1 < 44)%nat ->
  wavHeader sampleRate n !! off = Some (v mod 256)%Z ->
  wavHeader sampleRate n !! (off + 1)%nat = Some ((v / 256) mod 256)%Z ->
  (0 <= v < 65536)%Z ->
  getUint16 (wavHeader sampleRate n ++ payload) off = Some v.
Proof.
  intros Hoff H0 H1 Hv. unfold getUint16.
  rewrite !file_lookup_header by lia. rewrite H0, H1. simpl.
  by rewrite le16_decode.
Qed.

Lemma getUint32_header sampleRate n payload off v :
  (off + 3 < 44)%nat ->
  wavHeader sampleRate n !! off = Some (v mod 256)%Z ->
  wavHeader sampleRate n !! (off + 1)%nat = Some ((v / 256) mod 256)%Z ->
  wavHeader sampleRate n !! (off + 2)%nat = Some ((v / 256 / 256) mod 256)%Z ->
  wavHeader sampleRate n !! (off + 2 + 1)%nat
  = Some ((v / 256 / 256 / 256) mod 256)%Z ->
  (0 <= v < 4294967296)%Z ->
  getUint32 (wavHeader sampleRate n ++ payload) off = Some v.
Proof.
  intros Hoff H0 H1 H2 H3 Hv. unfold getUint32, getUint16.
  rewrite !file_lookup_header by lia. rewrite H0, H1, H2, H3. simpl.
  by rewrite le32_decode.
Qed.

(** C6. Encoding a buffer whose first (for a mono buffer: only) channel
    has [n] samples, with [36 + 2n] below [2^32] so that the size fields
    can hold their values, returns exactly [44 + 2n] bytes; they start with
    the markers RIFF, WAVE, fmt and data at offsets 0, 8, 12 and 36, and
    the little-endian 32-bit values at offsets 4 and 40 are [36 + 2n] and
    [2n]. *)
Theorem wav_size_and_markers
    (buffer : AudioBuffer.t) (channelData : list sample) :
  let n := Z.of_nat (length channelData) in
  AudioBuffer.getChannelData buffer 0 = Some channelData ->
  (36 + 2 * n < 4294967296)%Z ->
  exists bytes,
    bufferToWav buffer = Some bytes /\
    Z.of_nat (length bytes) = (44 + 2 * n)%Z /\
    getFourCC bytes 0 = charCodes "RIFF" /\
    getFourCC bytes 8 = charCodes "WAVE" /\
    getFourCC bytes 12 = charCodes "fmt " /\
    getFourCC bytes 36 = charCodes "data" /\
    getUint32 bytes 4 = Some (36 + 2 * n)%Z /\
    getUint32 bytes 40 = Some (2 * n)%Z.
Proof.
  intros n Hch Hn. subst n. eexists. split; [by apply bufferToWav_closed|].
  split; [rewrite length_app, length_wavHeader, length_wavPayload; lia|].
  do 4 (split; [reflexivity|]).
  split.
  - replace (36 + 2 * Z.of_nat (length channelData))%Z
      with (36 + Z.of_nat (length channelData) * 2)%Z by lia.
    apply getUint32_header; [lia | reflexivity.. | lia].
  - replace (2 * Z.of_nat (length channelData))%Z
      with (Z.of_nat (length channelData) * 2)%Z by lia.
    apply getUint32_header; [lia | reflexivity.. | lia].
Qed.

Lemma wav_size_and_markers_witness :
  let channelData := [Num 0.5; Num (-0.25); Num 2; Num (-3); NaN] in
  let buffer := AudioBuffer.mk 16000 [channelData] in
  exists bytes,
    bufferToWav buffer = Some bytes /\
    Z.of_nat (length bytes) = (44 + 2 * 5)%Z /\
    getFourCC bytes 0 = charCodes "RIFF" /\
    getFourCC bytes 8 = charCodes "WAVE" /\
    getFourCC bytes 12 = charCodes "fmt " /\
    getFourCC bytes 36 = charCodes "data" /\
    getUint32 bytes 4 = Some (36 + 2 * 5)%Z /\
    getUint32 bytes 40 = Some (2 * 5)%Z.
Proof.
  intros channelData buffer.
  apply (wav_size_and_markers buffer channelData); [reflexivity|].
  vm_compute. reflexivity.
Defined.

(** C10. Whatever the number of channels of the buffer handed to the
    encoder, the file declares one channel at offset 22, a byte rate of
    [sampleRate * 2] at offset 28 and a block align of 2 at offset 32, and
    its payload holds the samples of channel 0 only: the file is the one
    that the mono buffer made of channel 0 alone encodes to, so any further
    channel is left out. *)
Theorem wav_declares_mono_and_keeps_channel0
    (buffer : AudioBuffer.t) (channelData : list sample) :
  let sampleRate := AudioBuffer.sampleRate buffer in
  AudioBuffer.getChannelData buffer 0 = Some channelData ->
  (0 <= sampleRate * 2 < 4294967296)%Z ->
  exists bytes,
    bufferToWav buffer = Some bytes /\
    getUint16 bytes 22 = Some 1%Z /\
    getUint32 bytes 28 = Some (sampleRate * 2)%Z /\
    getUint16 bytes 32 = Some 2%Z /\
    drop 44 bytes = wavPayload channelData 0 (length channelData) /\
    bufferToWav (AudioBuffer.mk sampleRate [channelData]) = Some bytes.
Proof.
  intros sampleRate Hch Hr. subst sampleRate. eexists.
  split; [by apply bufferToWav_closed|].
  split; [apply getUint16_header; [lia | reflexivity.. | lia]|].
  split; [apply getUint32_header; [lia | reflexivity.. | lia]|].
  split; [apply getUint16_header; [lia | reflexivity.. | lia]|].
  split.
  - rewrite <- (length_wavHeader (AudioBuffer.sampleRate buffer)
                                 (length channelData)) at 1.
    apply drop_app_length.
  - by rewrite (bufferToWav_closed _ channelData).
Qed.

Lemma wav_declares_mono_and_keeps_channel0_witness :
  let left := [Num 0.5; Num (-0.25); Num 1] in
  let right := [Num (-0.5); Num 0.75; Num 0] in
  let buffer := AudioBuffer.mk 44100 [left; right] in
  exists bytes,
    bufferToWav buffer = Some bytes /\
    getUint16 bytes 22 = Some 1%Z /\
    getUint32 bytes 28 = Some (44100 * 2)%Z /\
    getUint16 bytes 32 = Some 2%Z /\
    drop 44 bytes = wavPayload left 0 (length left) /\
    bufferToWav (AudioBuffer.mk 44100 [left]) = Some bytes.
Proof.
  intros left right buffer.
  apply (wav_declares_mono_and_keeps_channel0 buffer left); [reflexivity|].
  vm_compute. split; [discriminate | reflexivity].
Defined.

(** In every state of the application a download succeeds for each stored
    segment and the file declares 16000 Hz and 32000 bytes per second. *)
Lemma download_declares_16k_mono
    (rendered : AudioBuffer.t -> nat -> sample) (app : App.t) (index : nat)
    (segment : AudioSegment.t) :
  reachable rendered app ->
  App.segments app !! index = Some segment ->
  exists bytes,
    downloadSegment app index = Some bytes /\
    getUint16 bytes 22 = Some 1%Z /\
    getUint32 bytes 24 = Some 16000%Z /\
    getUint32 bytes 28 = Some 32000%Z.
Proof.
  intros Hreach Hseg.
  destruct (reachable_inv rendered app Hreach) as (_ & Hall & _).
  rewrite Forall_lookup in Hall. destruct (Hall _ _ Hseg) as [Hn Hr].
  unfold downloadSegment. rewrite Hseg. cbn [mbind option_bind].
  destruct (AudioBuffer.channels (AudioSegment.buffer segment))
    as [|channelData rest] eqn:Hch;
    [unfold AudioBuffer.numberOfChannels in Hn; by rewrite Hch in Hn|].
  assert (H0 : AudioBuffer.getChannelData (AudioSegment.buffer segment) 0
               = Some channelData)
    by (unfold AudioBuffer.getChannelData; by rewrite Hch).
  rewrite (bufferToWav_closed _ _ H0), Hr. eexists. split; [reflexivity|].
  split; [apply getUint16_header; [lia | reflexivity.. | lia]|].
  split; apply getUint32_header; first [lia | reflexivity].
Qed.

(** ** The sample conversion *)

Lemma Qtrunc_comp (x y : Q) : x == y -> Qtrunc x = Qtrunc y.
Proof.
  intros H. unfold Qtrunc. rewrite H.
  destruct (Qle_bool 0 y); [apply Qfloor_comp | apply Qceiling_comp]; done.
Qed.

Lemma Qltb_comp (x x' y y' : Q) : x == x' -> y == y' -> Qltb x y = Qltb x' y'.
Proof. intros Hx Hy. unfold Qltb. by rewrite Hx, Hy. Qed.

Lemma Qtrunc_range (q : Q) (lo hi : Z) :
  inject_Z lo <= q -> q <= inject_Z hi -> (lo <= Qtrunc q <= hi)%Z.
Proof.
  intros Hlo Hhi. unfold Qtrunc.
  destruct (Qle_bool 0 q).
  - rewrite <- (Qfloor_Z lo), <- (Qfloor_Z hi).
    split; by apply Qfloor_resp_le.
  - rewrite <- (Qceiling_Z lo), <- (Qceiling_Z hi).
    split; by apply Qceiling_resp_le.
Qed.

Lemma clampToUnit_range (x : Q) : -1 <= clampToUnit x /\ clampToUnit x <= 1.
Proof.
  unfold clampToUnit.
  destruct (Qltb x (-1)) eqn:H1; [lra|].
  destruct (Qltb 1 x) eqn:H2; [lra|].
  apply Qltb_false in H1, H2. lra.
Qed.

Lemma clampSample_Num (x : Q) :
  exists c, clampSample (Num x) = Num c /\ c == clampToUnit x.
Proof.
  unfold clampSample, clampToUnit, Math_min, Math_max.
  destruct (Qle_bool 1 x) eqn:H1.
  - apply Qle_bool_iff in H1.
    replace (Qle_bool (-1) 1) with true by reflexivity.
    exists 1. split; [done|].
    destruct (Qltb x (-1)) eqn:H2; [apply Qltb_true in H2; lra|].
    destruct (Qltb 1 x) eqn:H3; [reflexivity|].
    apply Qltb_false in H3. lra.
  - assert (Hx : x < 1).
    { apply Qnot_le_lt. intros H. apply Qle_bool_iff in H. congruence. }
    destruct (Qle_bool (-1) x) eqn:H2.
    + apply Qle_bool_iff in H2. exists x. split; [done|].
      destruct (Qltb x (-1)) eqn:H3; [apply Qltb_true in H3; lra|].
      destruct (Qltb 1 x) eqn:H4; [apply Qltb_true in H4; lra|]. reflexivity.
    + assert (Hx' : x < -1).
      { apply Qnot_le_lt. intros H. apply Qle_bool_iff in H. congruence. }
      exists (-1). split; [done|].
      apply Qltb_true in Hx'. by rewrite Hx'.
Qed.

Lemma scaled_range (c : Q) :
  -1 <= c -> c <= 1 ->
  inject_Z (-32768) <= (if Qltb c 0 then c * 32768 else c * 32767) /\
  (if Qltb c 0 then c * 32768 else c * 32767) <= inject_Z 32767.
Proof.
  intros Hlo Hhi.
  change (inject_Z (-32768)) with (-32768). change (inject_Z 32767) with 32767.
  destruct (Qltb c 0) eqn:Hc.
  - apply Qltb_true in Hc. lra.
  - apply Qltb_false in Hc. lra.
Qed.

Lemma ToInt16_in_range (q : Q) :
  (-32768 <= Qtrunc q <= 32767)%Z -> ToInt16 (Num q) = Qtrunc q.
Proof.
  intros H. unfold ToInt16.
  destruct (Z.ltb_spec (Qtrunc q mod 65536) 32768);
    Z.div_mod_to_equations; lia.
Qed.

Lemma encoded_pcm16 (x : Q) :
  ToInt16 (scaleSample (clampSample (Num x))) = pcm16 x /\
  (-32768 <= pcm16 x <= 32767)%Z.
Proof.
  destruct (clampSample_Num x) as (c & -> & Hc).
  destruct (clampToUnit_range x) as [Hlo Hhi].
  assert (Hrange : (-32768 <= pcm16 x <= 32767)%Z).
  { unfold pcm16. cbv zeta. apply Qtrunc_range; by apply scaled_range. }
  split; [|done].
  assert (Heq : scaleSample (Num c)
                = Num (if Qltb c 0 then c * 32768 else c * 32767)).
  { unfold scaleSample, sample_ltb0, sample_mul. by destruct (Qltb c 0). }
  rewrite Heq.
  assert (Htr : Qtrunc (if Qltb c 0 then c * 32768 else c * 32767) = pcm16 x).
  { unfold pcm16. cbv zeta. apply Qtrunc_comp.
    rewrite (Qltb_comp c (clampToUnit x) 0 0) by done.
    destruct (Qltb (clampToUnit x) 0); by rewrite Hc. }
  rewrite ToInt16_in_range; rewrite Htr; done.
Qed.

Lemma f32_get_lookup (a : list sample) (i : nat) (x : sample) :
  a !! i = Some x -> f32_get a (Z.of_nat i) = x.
Proof.
  intros H. unfold f32_get.
  rewrite (proj2 (Z.ltb_ge _ _)) by lia. by rewrite Nat2Z.id, H.
Qed.

(** C7. The 16-bit value stored for sample [i] of channel 0, of value [x],
    is [x] clamped to [-1, 1] and then scaled by 32768 when the clamped
    value is negative and by 32767 otherwise (the setter drops the
    fraction); it occupies bytes [44 + 2i] and [44 + 2i + 1], low byte
    first. *)
Theorem payload_is_clamped_scaled_sample
    (buffer : AudioBuffer.t) (channelData : list sample) (i : nat) (x : Q) :
  AudioBuffer.getChannelData buffer 0 = Some channelData ->
  channelData !! i = Some (Num x) ->
  exists bytes,
    bufferToWav buffer = Some bytes /\
    getInt16 bytes (44 + 2 * i) = Some (pcm16 x) /\
    bytes !! (44 + 2 * i)%nat = Some (pcm16 x mod 256)%Z /\
    bytes !! (44 + 2 * i + 1)%nat = Some ((pcm16 x / 256) mod 256)%Z.
Proof.
  intros Hch Hx. eexists. split; [by apply bufferToWav_closed|].
  assert (Hi : (i < length channelData)%nat) by (by eapply lookup_lt_Some).
  destruct (encoded_pcm16 x) as [Henc Hrange].
  assert (Hlo : (wavHeader (AudioBuffer.sampleRate buffer) (length channelData)
                 ++ wavPayload channelData 0 (length channelData))
                !! (44 + 2 * i)%nat = Some (pcm16 x mod 256)%Z).
  { rewrite file_lookup_payload.
    replace (2 * i)%nat with (i * 2 + 0)%nat by lia.
    rewrite wavPayload_lookup by lia. change (0 + i)%nat with i.
    unfold encodedSample.
    rewrite (f32_get_lookup _ _ _ Hx), Henc. reflexivity. }
  assert (Hhi : (wavHeader (AudioBuffer.sampleRate buffer) (length channelData)
                 ++ wavPayload channelData 0 (length channelData))
                !! (44 + 2 * i + 1)%nat = Some ((pcm16 x / 256) mod 256)%Z).
  { replace (44 + 2 * i + 1)%nat with (44 + (i * 2 + 1))%nat by lia.
    rewrite file_lookup_payload, wavPayload_lookup by lia.
    change (0 + i)%nat with i. unfold encodedSample.
    rewrite (f32_get_lookup _ _ _ Hx), Henc. reflexivity. }
  split; [|by split].
  unfold getInt16, getUint16. rewrite Hlo, Hhi. cbn [mbind option_bind].
  f_equal. exact (le16_decode_signed (pcm16 x) ltac:(lia)).
Qed.

Lemma payload_is_clamped_scaled_sample_witness :
  let channelData := [Num 0.5; Num (-0.25); Num 2; Num (-3)] in
  let buffer := AudioBuffer.mk 16000 [channelData] in
  exists bytes,
    bufferToWav buffer = Some bytes /\
    getInt16 bytes (44 + 2 * 2) = Some (pcm16 2) /\
    bytes !! (44 + 2 * 2)%nat = Some (pcm16 2 mod 256)%Z /\
    bytes !! (44 + 2 * 2 + 1)%nat = Some ((pcm16 2 / 256) mod 256)%Z.
Proof.
  intros channelData buffer.
  apply (payload_is_clamped_scaled_sample buffer channelData 2 2);
    reflexivity.
Defined.

(** ** The store into a Float32Array *)

Lemma roundHalfEven_near (x : Q) :
  Qabs (inject_Z (roundHalfEven x) - x) <= 1 # 2.
Proof.
  unfold roundHalfEven. cbv zeta.
  destruct (Qfloor_bounds x) as [H1 H2].
  apply Qabs_Qle_condition.
  destruct (Qltb (x - inject_Z (Qfloor x)) (1 # 2)) eqn:Ha.
  - apply Qltb_true in Ha. split; lra.
  - apply Qltb_false in Ha.
    assert (Hup : - (1 # 2) <= inject_Z (Qfloor x + 1) - x
                  /\ inject_Z (Qfloor x + 1) - x <= 1 # 2).
    { rewrite inject_Z_plus. change (inject_Z 1) with 1. split; lra. }
    destruct (Qltb (1 # 2) (x - inject_Z (Qfloor x))) eqn:Hb; [exact Hup|].
    apply Qltb_false in Hb.
    destruct (Z.even (Qfloor x)); [split; lra | exact Hup].
Qed.

Lemma roundHalfEven_bounds (x : Q) (lo hi : Z) :
  inject_Z lo <= x -> x <= inject_Z hi ->
  (lo <= roundHalfEven x <= hi)%Z.
Proof.
  intros Hlo Hhi. destruct (Qfloor_bounds x) as [H1 H2].
  assert (Hf : (lo <= Qfloor x)%Z).
  { rewrite <- (Qfloor_Z lo). by apply Qfloor_resp_le. }
  assert (Hf' : (Qfloor x <= hi)%Z).
  { rewrite <- (Qfloor_Z hi). by apply Qfloor_resp_le. }
  assert (Hup : inject_Z (Qfloor x) < x -> (Qfloor x + 1 <= hi)%Z).
  { intros Hlt. apply Z.lt_succ_r.
    assert (inject_Z (Qfloor x) < inject_Z hi) as H by lra.
    rewrite <- Zlt_Qlt in H. lia. }
  unfold roundHalfEven. cbv zeta.
  destruct (Qltb (x - inject_Z (Qfloor x)) (1 # 2)) eqn:Ha; [lia|].
  apply Qltb_false in Ha.
  assert (Hgt : inject_Z (Qfloor x) < x) by lra.
  specialize (Hup Hgt).
  destruct (Qltb (1 # 2) (x - inject_Z (Qfloor x))); [lia|].
  destruct (Z.even (Qfloor x)); lia.
Qed.

Lemma pow2_pos (e : Z) : 0 < 2 ^ e.
Proof. by apply Qpower_0_lt. Qed.

Lemma pow2_succ (e : Z) : 2 ^ (e + 1) == 2 * 2 ^ e.
Proof. rewrite Qpower_plus by discriminate. change (2 ^ 1) with 2. ring. Qed.

Lemma pow2_inject (a : Z) : (0 <= a)%Z -> 2 ^ a == inject_Z (2 ^ a).
Proof. intros Ha. by rewrite Zpower_Qpower. Qed.

(** [Qlog2] is the floor of the binary logarithm, whatever fraction stands
    for the number. *)
Lemma Qlog2_spec (q : Q) :
  0 < q -> 2 ^ Qlog2 q <= q /\ q < 2 ^ (Qlog2 q + 1).
Proof.
  intros Hq. destruct q as [n d]. unfold Qlog2. cbn [Qnum Qden].
  assert (Hn : (0 < n)%Z) by (unfold Qlt in Hq; simpl in Hq; lia).
  pose proof (Z.log2_spec n Hn) as [Ha1 Ha2].
  pose proof (Z.log2_spec (Z.pos d) eq_refl) as [Hb1 Hb2].
  pose proof (Z.log2_nonneg n) as Ha0.
  pose proof (Z.log2_nonneg (Z.pos d)) as Hb0.
  set (a := Z.log2 n) in *. set (b := Z.log2 (Z.pos d)) in *.
  rewrite Zle_Qle in Ha1, Hb1. rewrite Zlt_Qlt in Ha2, Hb2.
  rewrite <- pow2_inject in Ha1, Hb1 by lia.
  unfold Z.succ in Ha2, Hb2.
  rewrite <- pow2_inject, pow2_succ in Ha2, Hb2 by lia.
  pose proof (pow2_pos a) as HA. pose proof (pow2_pos b) as HB.
  assert (HD : 0 < inject_Z (Z.pos d)) by done.
  assert (Hq' : (n # d) * inject_Z (Z.pos d) == inject_Z n).
  { rewrite (Qmake_Qdiv n d). field. discriminate. }
  assert (He : 2 ^ (a - b) * 2 ^ b == 2 ^ a).
  { rewrite Qpower_minus by discriminate. field.
    apply Qpower_not_0. discriminate. }
  assert (He' : 2 ^ (a - b - 1) * 2 == 2 ^ (a - b)).
  { replace (a - b)%Z with (a - b - 1 + 1)%Z at 2 by lia.
    rewrite pow2_succ. ring. }
  pose proof (pow2_pos (a - b)) as HE. pose proof (pow2_pos (a - b - 1)) as HE'.
  set (A := 2 ^ a) in *. set (B := 2 ^ b) in *.
  set (N := inject_Z n) in *. set (D := inject_Z (Z.pos d)) in *.
  set (q := n # d) in *.
  destruct (Qle_bool (2 ^ (a - b)) q) eqn:Hle.
  - apply Qle_bool_iff in Hle. split; [exact Hle|].
    rewrite pow2_succ. set (E := 2 ^ (a - b)) in *.
    apply Qnot_le_lt. intros Hc. nra.
  - assert (Hlt : q < 2 ^ (a - b)).
    { apply Qnot_le_lt. intros Hc. apply Qle_bool_iff in Hc. congruence. }
    replace (a - b - 1 + 1)%Z with (a - b)%Z by lia. split; [|exact Hlt].
    set (E := 2 ^ (a - b)) in *. set (E' := 2 ^ (a - b - 1)) in *.
    apply Qnot_lt_le. intros Hc. nra.
Qed.

Lemma ToFloat32_nonzero (q : Q) :
  ~ q == 0 ->
  exists (t k : Z),
    t = Z.max (Qlog2 (Qabs q) - 23) (-149) /\
    k = roundHalfEven (q / 2 ^ t) /\
    ToFloat32 q == inject_Z k * 2 ^ t /\
    2 ^ Qlog2 (Qabs q) <= Qabs q /\ Qabs q < 2 ^ (Qlog2 (Qabs q) + 1).
Proof.
  intros Hq. unfold ToFloat32.
  destruct (Qeq_bool q 0) eqn:Hz; [by apply Qeq_bool_iff in Hz|].
  eexists _, _. split; [reflexivity|]. split; [reflexivity|].
  split; [apply Qred_correct|].
  apply Qlog2_spec. pose proof (Qabs_nonneg q) as H.
  apply Qnot_le_lt. intros Hc.
  assert (Hzero : Qabs q == 0) by lra.
  apply Hq. revert Hzero. apply Qabs_case; intros; lra.
Qed.

Lemma ToFloat32_zero (q : Q) : q == 0 -> ToFloat32 q = 0.
Proof.
  intros Hq. unfold ToFloat32. by rewrite (proj2 (Qeq_bool_iff q 0) Hq).
Qed.

(** The store moves a number by at most half the distance between the
    32-bit floats around it. *)
Lemma ToFloat32_error (q M : Q) :
  Qabs q <= M -> 2 ^ (-126) <= M ->
  Qabs (ToFloat32 q - q) <= M * 2 ^ (-24).
Proof.
  intros HM Hmin. apply Qabs_Qle_condition in HM as HM'.
  pose proof (pow2_pos (-24)) as H24.
  apply Qabs_Qle_condition.
  destruct (Qeq_dec q 0) as [Hz|Hnz].
  - rewrite (ToFloat32_zero q Hz), Hz.
    assert (0 <= M * 2 ^ (-24)) by (apply Qmult_le_0_compat; lra).
    split; lra.
  - destruct (ToFloat32_nonzero q Hnz) as (t & k & Ht & Hk & -> & He & _).
    pose proof (roundHalfEven_near (q / 2 ^ t)) as Hnear.
    rewrite <- Hk in Hnear. apply Qabs_Qle_condition in Hnear.
    pose proof (pow2_pos t) as Hu.
    assert (Hhalf : 2 ^ t <= M * 2 ^ (-23)).
    { destruct (Z.max_spec (Qlog2 (Qabs q) - 23) (-149)) as [[_ Hm]|[_ Hm]];
        rewrite <- Ht in Hm; rewrite Hm.
      - apply Qle_trans with (2 ^ (-126) * 2 ^ (-23)).
        + rewrite <- Qpower_plus by discriminate. simpl. discriminate.
        + apply Qmult_le_compat_r; [exact Hmin|]. apply Qlt_le_weak, pow2_pos.
      - unfold Z.sub. rewrite Qpower_plus by discriminate.
        apply Qmult_le_compat_r; [lra|]. apply Qlt_le_weak, pow2_pos. }
    assert (H23 : 2 ^ (-23) == 2 * 2 ^ (-24)) by reflexivity.
    set (u := 2 ^ t) in *. set (d := inject_Z k - q / u) in *.
    assert (Hd : inject_Z k * u - q == d * u).
    { subst d. field. lra. }
    rewrite Hd. split; nra.
Qed.

(** The store does not take a number of [-1, 1] out of it: 1 and -1 are
    32-bit floats. *)
Lemma ToFloat32_unit (q : Q) :
  -1 <= q -> q <= 1 -> -1 <= ToFloat32 q /\ ToFloat32 q <= 1.
Proof.
  intros Hlo Hhi.
  destruct (Qeq_dec q 0) as [Hz|Hnz].
  - rewrite (ToFloat32_zero q Hz). split; lra.
  - destruct (ToFloat32_nonzero q Hnz) as (t & k & Ht & Hk & -> & He & _).
    assert (Habs : Qabs q <= 1) by (apply Qabs_Qle_condition; split; lra).
    assert (He0 : (Qlog2 (Qabs q) <= 0)%Z).
    { apply (Qpower_le_compat_l_inv 2); [|reflexivity].
      change (2 ^ 0) with 1. lra. }
    assert (Ht0 : (t <= 0)%Z) by lia.
    pose proof (pow2_pos t) as Hu.
    assert (HK : inject_Z (2 ^ (- t)) * 2 ^ t == 1).
    { rewrite <- pow2_inject by lia. rewrite <- Qpower_plus by discriminate.
      replace (- t + t)%Z with 0%Z by lia. reflexivity. }
    destruct (roundHalfEven_bounds (q / 2 ^ t) (- 2 ^ (- t)) (2 ^ (- t)))
      as [Hk1 Hk2].
    + rewrite inject_Z_opp. apply Qle_shift_div_l; [exact Hu|]. nra.
    + apply Qle_shift_div_r; [exact Hu|]. nra.
    + rewrite <- Hk in Hk1, Hk2. rewrite Zle_Qle in Hk1, Hk2.
      rewrite inject_Z_opp in Hk1.
      set (u := 2 ^ t) in *. set (K := inject_Z (2 ^ (- t))) in *.
      split; nra.
Qed.

Lemma roundHalfEven_integer (x : Q) (z : Z) :
  x == inject_Z z -> roundHalfEven x = z.
Proof.
  intros H. destruct (roundHalfEven_bounds x z z); [rewrite H; lra..|]. lia.
Qed.

Lemma Qabs_scaled (k : Z) (u : Q) :
  0 < u -> Qabs (inject_Z k * u) == inject_Z (Z.abs k) * u.
Proof.
  intros Hu. rewrite Qabs_Qmult. rewrite (Qabs_pos u) by lra.
  apply Qmult_comp; [|reflexivity].
  unfold Qabs, inject_Z. reflexivity.
Qed.

(** What the store returns is a 32-bit float: storing it again changes
    nothing. *)
Lemma ToFloat32_idempotent (q : Q) : ToFloat32 (ToFloat32 q) == ToFloat32 q.
Proof.
  destruct (Qeq_dec q 0) as [Hz|Hnz].
  { rewrite (ToFloat32_zero q Hz). reflexivity. }
  destruct (ToFloat32_nonzero q Hnz) as (t & k & Ht & Hk & Hr & He1 & He2).
  set (r := ToFloat32 q) in *.
  destruct (Qeq_dec r 0) as [Hrz|Hrnz].
  { rewrite (ToFloat32_zero r Hrz). by rewrite Hrz. }
  destruct (ToFloat32_nonzero r Hrnz)
    as (t' & k' & Ht' & Hk' & Hr' & He1' & He2').
  set (e := Qlog2 (Qabs q)) in *. set (e' := Qlog2 (Qabs r)) in *.
  clearbody e e'.
  pose proof (pow2_pos t) as Hu. pose proof (pow2_pos t') as Hu'.
  (* the significand has at most 24 bits, 2^24 included *)
  assert (Hq24 : Qabs q <= inject_Z (2 ^ 24) * 2 ^ t).
  { rewrite <- pow2_inject by lia. rewrite <- Qpower_plus by discriminate.
    apply Qle_trans with (2 ^ (e + 1)); [lra|].
    apply Qpower_le_compat_l; [lia|discriminate]. }
  assert (Hk24 : (- 2 ^ 24 <= k <= 2 ^ 24)%Z).
  { rewrite Hk. apply Qabs_Qle_condition in Hq24.
    apply roundHalfEven_bounds.
    - rewrite inject_Z_opp. apply Qle_shift_div_l; [exact Hu|]. lra.
    - apply Qle_shift_div_r; [exact Hu|]. lra. }
  assert (Habs : Qabs r == inject_Z (Z.abs k) * 2 ^ t).
  { rewrite Hr. by apply Qabs_scaled. }
  assert (Hk0 : k <> 0%Z).
  { intros ->. apply Hrnz. rewrite Hr. ring. }
  (* the quantum of the result is that of [q], or the next one *)
  assert (He' : (e' <= 24 + t)%Z).
  { apply (Qpower_le_compat_l_inv 2); [|reflexivity].
    apply Qle_trans with (Qabs r); [exact He1'|]. rewrite Habs.
    rewrite Qpower_plus by discriminate. rewrite (pow2_inject 24) by lia.
    apply Qmult_le_compat_r; [|lra]. rewrite <- Zle_Qle. lia. }
  assert (Hint : exists z, r == inject_Z z * 2 ^ t').
  { destruct (Z.le_gt_cases t' t) as [Hle|Hgt].
    - exists (k * 2 ^ (t - t'))%Z. rewrite Hr, inject_Z_mult.
      rewrite <- pow2_inject by lia.
      rewrite <- Qmult_assoc, <- Qpower_plus by discriminate.
      by replace (t - t' + t')%Z with t by lia.
    - assert (Het : e' = (24 + t)%Z).
      { clear - Ht Ht' He' Hgt. lia. }
      assert (Ht1 : t' = (t + 1)%Z).
      { clear - Ht' Het Ht. lia. }
      assert (Hbig : (2 ^ 24 <= Z.abs k)%Z).
      { rewrite Zle_Qle. apply (Qmult_le_r _ _ (2 ^ t)); [exact Hu|].
        rewrite <- Habs. rewrite <- pow2_inject by lia.
        rewrite <- Qpower_plus by discriminate. by rewrite <- Het. }
      exists (k / 2)%Z. rewrite Hr, Ht1, pow2_succ.
      assert (Hk2 : k = (2 * (k / 2))%Z).
      { assert (Hpm : k = 16777216%Z \/ k = (-16777216)%Z).
        { clear - Hk24 Hbig. change (2 ^ 24)%Z with 16777216%Z in *. lia. }
        by destruct Hpm as [-> | ->]. }
      rewrite Hk2 at 1. rewrite inject_Z_mult. change (inject_Z 2) with 2.
      ring. }
  destruct Hint as [z Hz].
  assert (Hkz : k' = z).
  { rewrite Hk'. apply roundHalfEven_integer. rewrite Hz. field. lra. }
  rewrite Hr', Hkz, <- Hz. reflexivity.
Qed.

(** What the store makes of a third, of a tenth, of the two ties above 1,
    of the first integers that are no 32-bit floats, and of two numbers
    below the normal range. *)
Example ToFloat32_values :
  ToFloat32 (1 # 3) = 11184811 # 33554432 /\
  ToFloat32 (- (1 # 3)) = - 11184811 # 33554432 /\
  ToFloat32 (1 # 10) = 13421773 # 134217728 /\
  ToFloat32 (16777217 # 16777216) = 1 /\
  ToFloat32 (16777219 # 16777216) = 4194305 # 4194304 /\
  ToFloat32 (16777217 # 1) = 16777216 # 1 /\
  ToFloat32 (16777219 # 1) = 16777220 # 1 /\
  ToFloat32 (2 ^ (-150)) = 0 /\
  ToFloat32 (3 * 2 ^ (-150)) == 2 ^ (-148).
Proof. repeat split; vm_compute; reflexivity. Qed.

(** ** The downmix *)

Lemma foldl_store_replicate {A : Type} (f : nat -> A) (z : A) (n : nat) :
  foldl (fun acc j => <[j := f j]> acc) (replicate n z) (seq 0 n)
  = f <$> seq 0 n.
Proof.
  exact (foldl_fill_replicate (fun _ => true) f z n).
Qed.

Lemma channelSum_from (channels : list (list sample)) (xs : list Q)
    (i : nat) (a : Q) :
  Forall2 (fun channelData x => channelData !! i = Some (Num x)) channels xs ->
  exists s,
    foldl (fun sum channelData =>
             sample_add sum (f32_get channelData (Z.of_nat i)))
          (Num a) channels = Num s /\
    s == a + Qsum xs.
Proof.
  intros H. revert a.
  induction H as [|channelData x channels xs Hx _ IH]; intros a; simpl.
  - exists a. split; [done|]. ring.
  - rewrite (f32_get_lookup _ _ _ Hx). simpl.
    destruct (IH (a + x)) as (s & -> & Hs). exists s. split; [done|].
    rewrite Hs. ring.
Qed.

Lemma downmixToMono_lookup originalBuffer i :
  (i < AudioBuffer.length originalBuffer)%nat ->
  AudioBuffer.numberOfChannels originalBuffer <> 1%nat ->
  downmixToMono originalBuffer
    (replicate (AudioBuffer.length originalBuffer) (Num 0)) !! i
  = Some (f32_store
            (sample_div (channelSum originalBuffer i)
               (inject_Z (Z.of_nat (AudioBuffer.numberOfChannels
                                      originalBuffer))))).
Proof.
  intros Hi Hn. unfold downmixToMono.
  rewrite (proj2 (Nat.eqb_neq _ _)) by done.
  rewrite foldl_store_replicate, list_lookup_fmap, lookup_seq_lt by done.
  reflexivity.
Qed.

Lemma downmixToMono_mono originalBuffer channelData :
  AudioBuffer.channels originalBuffer = [channelData] ->
  downmixToMono originalBuffer
    (replicate (AudioBuffer.length originalBuffer) (Num 0))
  = channelData.
Proof.
  intros Hch. unfold downmixToMono, AudioBuffer.numberOfChannels,
    AudioBuffer.getChannelData, AudioBuffer.length.
  rewrite Hch. simpl. rewrite foldl_store_replicate.
  apply list_eq. intros i. rewrite list_lookup_fmap.
  destruct (channelData !! i) as [x|] eqn:Hx.
  - rewrite lookup_seq_lt by (by eapply lookup_lt_Some). simpl.
    by rewrite (f32_get_lookup _ _ _ Hx).
  - rewrite lookup_seq_ge; [done|]. by apply lookup_ge_None.
Qed.

(** Sample [i] of the downmix: the store of a number equal to the mean. *)
Lemma downmixToMono_sample originalBuffer i xs :
  (1 < AudioBuffer.numberOfChannels originalBuffer)%nat ->
  Forall2 (fun channelData x => channelData !! i = Some (Num x))
          (AudioBuffer.channels originalBuffer) xs ->
  exists q,
    downmixToMono originalBuffer
      (replicate (AudioBuffer.length originalBuffer) (Num 0)) !! i
    = Some (Num (ToFloat32 q)) /\
    q == channelMean xs.
Proof.
  intros Hn Hxs.
  assert (Hlen : length xs = AudioBuffer.numberOfChannels originalBuffer).
  { symmetry. by eapply Forall2_length. }
  assert (Hi : (i < AudioBuffer.length originalBuffer)%nat).
  { unfold AudioBuffer.length, AudioBuffer.numberOfChannels in *.
    destruct Hxs as [|c x cs xs' Hc _]; [simpl in Hn; lia|].
    by eapply lookup_lt_Some. }
  rewrite downmixToMono_lookup by (done || lia).
  destruct (channelSum_from _ _ i 0 Hxs) as (s & Hs & Heq).
  unfold channelSum. rewrite Hs. cbn [sample_div f32_store].
  eexists. split; [reflexivity|].
  unfold channelMean. rewrite Hlen, Heq.
  assert (Hnz : ~ inject_Z (Z.of_nat (AudioBuffer.numberOfChannels
                                        originalBuffer)) == 0).
  { change 0 with (inject_Z 0). rewrite inject_Z_injective. lia. }
  field. exact Hnz.
Qed.

Lemma Qsum_bound (xs : list Q) (M : Q) :
  Forall (fun x => Qabs x <= M) xs ->
  Qabs (Qsum xs) <= inject_Z (Z.of_nat (length xs)) * M.
Proof.
  induction 1 as [|x xs Hx _ IH].
  - change (Qabs 0 <= 0 * M). apply Qabs_Qle_condition. split; lra.
  - unfold Qsum. cbn [foldr length]. fold (Qsum xs).
    rewrite Nat2Z.inj_succ. unfold Z.succ. rewrite inject_Z_plus.
    change (inject_Z 1) with 1.
    pose proof (Qabs_triangle x (Qsum xs)). lra.
Qed.

Lemma channelMean_bound (xs : list Q) (M : Q) :
  (0 < length xs)%nat ->
  Forall (fun x => Qabs x <= M) xs -> Qabs (channelMean xs) <= M.
Proof.
  intros Hlen Hall. pose proof (Qsum_bound xs M Hall) as Hs.
  apply Qabs_Qle_condition in Hs. apply Qabs_Qle_condition.
  unfold channelMean.
  assert (Hpos : 0 < inject_Z (Z.of_nat (length xs))).
  { change 0 with (inject_Z 0). rewrite <- Zlt_Qlt. lia. }
  split.
  - apply Qle_shift_div_l; [done|]. lra.
  - apply Qle_shift_div_r; [done|]. lra.
Qed.

(** What the store does to a number that equals [mean], when [M] bounds
    the mean: half the bound of the theorems below. *)
Lemma stored_near (q mean M : Q) :
  q == mean -> Qabs mean <= M -> 2 ^ (-126) <= M ->
  Qabs (ToFloat32 q - mean) <= M * 2 ^ (-23).
Proof.
  intros Hq Hm Hmin.
  assert (Hq' : Qabs q <= M) by (by rewrite Hq).
  pose proof (ToFloat32_error q M Hq' Hmin) as Herr.
  apply Qabs_Qle_condition in Herr. apply Qabs_Qle_condition.
  assert (H23 : 2 ^ (-23) == 2 * 2 ^ (-24)) by reflexivity.
  pose proof (pow2_pos (-24)) as H24.
  assert (HM : 0 <= M).
  { apply Qle_trans with (2 ^ (-126)); [|done]. apply Qlt_le_weak, pow2_pos. }
  rewrite H23. rewrite <- Hq. split; nra.
Qed.

(** The older [resampleTo16kMono]: frame [i] of the mono buffer it builds
    from two or more channels is the store of the half sum of channels 0
    and 1. *)
Lemma stereoDownmix_lookup (left right : list sample)
    (others : list (list sample)) (rate : Z) (i : nat) (x y : Q) :
  left !! i = Some (Num x) -> right !! i = Some (Num y) ->
  exists monoData,
    stereoDownmix (AudioBuffer.mk rate (left :: right :: others))
    = Some (AudioBuffer.mk rate [monoData]) /\
    length monoData = length left /\
    monoData !! i = Some (Num (ToFloat32 ((x + y) / 2))).
Proof.
  intros Hx Hy. unfold stereoDownmix, createBuffer.
  assert (Hi : (i < length left)%nat) by (by eapply lookup_lt_Some).
  cbn [AudioBuffer.numberOfChannels AudioBuffer.channels length Nat.eqb
       AudioBuffer.length AudioBuffer.sampleRate AudioBuffer.getChannelData].
  rewrite (proj2 (Z.ltb_lt 0 (Z.of_nat (length left)))) by lia.
  simpl. rewrite Nat2Z.id. eexists. split; [reflexivity|].
  rewrite foldl_store_replicate. split.
  - by rewrite length_fmap, length_seq.
  - rewrite list_lookup_fmap, lookup_seq_lt by done.
    simpl. rewrite (f32_get_lookup _ _ _ Hx), (f32_get_lookup _ _ _ Hy).
    reflexivity.
Qed.

Lemma stereoDownmix_mono (audioBuffer : AudioBuffer.t) :
  AudioBuffer.numberOfChannels audioBuffer = 1%nat ->
  stereoDownmix audioBuffer = Some audioBuffer.
Proof. intros H. unfold stereoDownmix. by rewrite H. Qed.

(** C8, as stated, fails.  The mono sample is stored in a [Float32Array]:
    for three channels that hold 1, 0 and 0 the mean is a third, and what
    [convertAudioTo16kMono] keeps is the 32-bit float next to it,
    11184811 / 2^25.  And of the two functions the claim names, the older
    [resampleTo16kMono] reads channels 0 and 1 only: for 1, 0 and -1 it
    stores a half, where the mean over the three channels is 0. *)
Lemma downmix_is_not_the_exact_mean :
  (1 < AudioBuffer.numberOfChannels
         (AudioBuffer.mk 44100 [[Num 1]; [Num 0]; [Num 0]]))%nat /\
  downmixToMono (AudioBuffer.mk 44100 [[Num 1]; [Num 0]; [Num 0]])
                (replicate 1 (Num 0))
  = [Num (11184811 # 33554432)] /\
  ~ (11184811 # 33554432) == channelMean [1; 0; 0] /\
  stereoDownmix (AudioBuffer.mk 48000 [[Num 1]; [Num 0]; [Num (-1)]])
  = Some (AudioBuffer.mk 48000 [[Num (1 # 2)]]) /\
  ~ (1 # 2) == channelMean [1; 0; -1].
Proof.
  split; [vm_compute; lia|]. split; [vm_compute; reflexivity|].
  split; [vm_compute; discriminate|]. split; [vm_compute; reflexivity|].
  vm_compute. discriminate.
Qed.

(** C8, amended.  For a decoded signal with more than one channel, sample
    [i] of the mono signal that [convertAudioTo16kMono] builds is the
    arithmetic mean of the samples that all the channels hold at [i], as a
    32-bit float: it is a fixed point of the store, and when the samples
    are at most [M] in magnitude it is within [M * 2^-23] of the mean.  The older [resampleTo16kMono] does the
    same for a signal with two channels.  A signal with one channel passes
    through either function unchanged. *)
Theorem downmix_is_rounded_mean_over_all_channels
    (originalBuffer : AudioBuffer.t) :
  let monoData :=
    downmixToMono originalBuffer
      (replicate (AudioBuffer.length originalBuffer) (Num 0)) in
  (forall (i : nat) (xs : list Q) (M : Q),
     (1 < AudioBuffer.numberOfChannels originalBuffer)%nat ->
     Forall2 (fun channelData x => channelData !! i = Some (Num x))
             (AudioBuffer.channels originalBuffer) xs ->
     Forall (fun x => Qabs x <= M) xs -> 2 ^ (-126) <= M ->
     exists m,
       monoData !! i = Some (Num m) /\
       ToFloat32 m == m /\
       Qabs (m - channelMean xs) <= M * 2 ^ (-23)) /\
  (forall channelData,
     AudioBuffer.channels originalBuffer = [channelData] ->
     monoData = channelData) /\
  (forall (left right : list sample) (i : nat) (x y M : Q),
     AudioBuffer.channels originalBuffer = [left; right] ->
     left !! i = Some (Num x) -> right !! i = Some (Num y) ->
     Qabs x <= M -> Qabs y <= M -> 2 ^ (-126) <= M ->
     exists olderData m,
       stereoDownmix originalBuffer
       = Some (AudioBuffer.mk (AudioBuffer.sampleRate originalBuffer)
                              [olderData]) /\
       olderData !! i = Some (Num m) /\
       ToFloat32 m == m /\
       Qabs (m - channelMean [x; y]) <= M * 2 ^ (-23)) /\
  (AudioBuffer.numberOfChannels originalBuffer = 1%nat ->
   stereoDownmix originalBuffer = Some originalBuffer).
Proof.
  intros monoData. subst monoData. split; [|split; [|split]].
  - intros i xs M Hn Hxs Hall Hmin.
    destruct (downmixToMono_sample originalBuffer i xs Hn Hxs)
      as (q & Hq & Hmean).
    exists (ToFloat32 q). split; [exact Hq|].
    split; [apply ToFloat32_idempotent|].
    apply stored_near; [exact Hmean| |exact Hmin].
    apply channelMean_bound; [|exact Hall].
    apply Forall2_length in Hxs. rewrite <- Hxs.
    unfold AudioBuffer.numberOfChannels in Hn. lia.
  - apply downmixToMono_mono.
  - intros left right i x y M Hch Hx Hy HxM HyM Hmin.
    destruct originalBuffer as [rate channels]. cbn in Hch. subst channels.
    destruct (stereoDownmix_lookup left right [] rate i x y Hx Hy)
      as (olderData & Hout & _ & Hi).
    exists olderData, (ToFloat32 ((x + y) / 2)).
    split; [exact Hout|]. split; [exact Hi|].
    split; [apply ToFloat32_idempotent|].
    apply stored_near; [|by apply channelMean_bound; [simpl; lia|auto]|exact Hmin].
    unfold channelMean, Qsum. simpl. field.
  - apply stereoDownmix_mono.
Qed.

Lemma downmix_is_rounded_mean_over_all_channels_witness :
  let originalBuffer :=
    AudioBuffer.mk 44100 [[Num 1; Num 0.25]; [Num 0; Num 0.75];
                          [Num 0; Num (-0.25)]] in
  exists m,
    downmixToMono originalBuffer
      (replicate (AudioBuffer.length originalBuffer) (Num 0)) !! 0%nat
    = Some (Num m) /\
    ToFloat32 m == m /\
    Qabs (m - channelMean [1; 0; 0]) <= 1 * 2 ^ (-23).
Proof.
  intros originalBuffer.
  apply (proj1 (downmix_is_rounded_mean_over_all_channels originalBuffer)
               0%nat [1; 0; 0] 1).
  - vm_compute. lia.
  - repeat constructor.
  - repeat constructor; vm_compute; discriminate.
  - vm_compute. discriminate.
Defined.

(** ** The examples of the specification *)

Example detect_one_segment :
  findSegmentsByNumberPattern 2
    (Build_Transcription "105 hello world"
       (Some [Word.mk "105" (0, 0.4); Word.mk "hello" (0.5, 1);
              Word.mk "world" (1.1, 2.6)]))
  = [Segment.mk 0 2.6
       [Word.mk "105" (0, 0.4); Word.mk "hello" (0.5, 1);
        Word.mk "world" (1.1, 2.6)]
       "105 hello world" (Some 105%Z)].
Proof. vm_compute. reflexivity. Qed.

Example detect_drops_short_candidates :
  findSegmentsByNumberPattern 2
    (Build_Transcription "7 8"
       (Some [Word.mk "7" (0, 0.3); Word.mk "8" (0.4, 0.7)]))
  = [].
Proof. vm_compute. reflexivity. Qed.

(** A word that starts ten seconds or more after the marker closes the
    segment and belongs to none. *)
Example detect_closes_after_ten_seconds :
  Segment.endTime
  <$> findSegmentsByNumberPattern 2
        (Build_Transcription "1 a b c 2 d"
           (Some [Word.mk " 1" (0, 0.5); Word.mk " a" (1, 3);
                  Word.mk " b" (10.5, 12); Word.mk " c" (12.5, 13);
                  Word.mk " 2" (14, 15); Word.mk " d" (15, 16.5)]))
  = [3; 16.5].
Proof. vm_compute. reflexivity. Qed.

Example marker_pattern :
  englishNumberPattern_test "007" = true /\
  englishNumberPattern_test "0" = true /\
  englishNumberPattern_test "2nd" = false /\
  englishNumberPattern_test "" = false.
Proof. repeat split. Qed.

(** A descriptor without frames makes [createBuffer] raise: no segment
    list is returned. *)
Example extract_rejects_empty_segment :
  extractSegmentsFromTimestamps (AudioBuffer.mk 16000 [[Num 0; Num 1]])
    [Segment.mk 1 1 [] "1" (Some 1%Z)] = None.
Proof. vm_compute. reflexivity. Qed.

(** The bytes of a two-sample file. *)
Example wav_two_samples :
  bufferToWav (AudioBuffer.mk 16000 [[Num 0.5; Num (-1)]])
  = Some [82; 73; 70; 70; 40; 0; 0; 0; 87; 65; 86; 69; 102; 109; 116; 32;
          16; 0; 0; 0; 1; 0; 1; 0; 128; 62; 0; 0; 0; 125; 0; 0; 2; 0; 16; 0;
          100; 97; 116; 97; 4; 0; 0; 0; 255; 63; 0; 128]%Z.
Proof. vm_compute. reflexivity. Qed.

(** * Further properties *)

(** ** What a segment is made of *)

Section DetectorShape.

Variable minSegmentDuration : Q.

Lemma emittedFrom_snoc P w s : emittedFrom P s -> emittedFrom (P ++ [w]) s.
Proof.
  intros (H1 & H2 & pre & post & ->). split; [done|]. split; [done|].
  exists pre, (post ++ [w]). by rewrite <- !app_assoc.
Qed.

Lemma openOver_emitted P c : openOver P c -> emittedFrom P c.
Proof.
  intros (H1 & H2 & pre & ->). split; [done|]. split; [done|].
  exists pre, []. by rewrite app_nil_r.
Qed.

Lemma shape_push P cur segs :
  shapeInv P (cur, segs) ->
  Forall (emittedFrom P) (pushIfLongEnough minSegmentDuration cur segs).
Proof.
  intros [Hs Hc]. simpl in *.
  destruct (pushIfLongEnough_cases minSegmentDuration cur segs)
    as [-> | (c & -> & _ & ->)]; [done|].
  apply Forall_app. split; [done|]. constructor; [|constructor].
  by apply openOver_emitted, Hc.
Qed.

Lemma openOver_marker P w :
  isMarker w = true ->
  openOver (P ++ [w])
    (Segment.mk (fst (Word.timestamp w)) (snd (Word.timestamp w)) [w]
                (trim (Word.text w)) (parseInt (trim (Word.text w)))).
Proof.
  intros Hw. split; [|split].
  - exists w, []. by repeat split.
  - exists w, []. by repeat split.
  - by exists P.
Qed.

Lemma openOver_absorb P c w :
  openOver P c -> isMarker w = false ->
  Qltb (fst (Word.timestamp w) - Segment.startTime c) 10 = true ->
  openOver (P ++ [w])
    (Segment.mk (Segment.startTime c) (snd (Word.timestamp w))
                (Segment.words c ++ [w])
                (Segment.text c ++ " " ++ trim (Word.text w))
                (Segment.number c)).
Proof.
  intros ((m & rest & Hws & Hm & Hrest & Hst & Hnum)
          & (m' & rest' & Hws' & Hst' & Hend & Htx) & pre & ->) Hw Hlt.
  rewrite Hws in Hws'. injection Hws' as <- <-.
  split; [|split].
  - exists m, (rest ++ [w]). simpl. rewrite Hws. repeat split; try done.
    apply Forall_app. split; [done|]. constructor; [|constructor].
    split; [done|]. apply Qltb_true in Hlt. by rewrite Hst in Hlt.
  - exists m, (rest ++ [w]). simpl. rewrite Hws. repeat split; try done.
    + by rewrite last_last.
    + rewrite Htx, Hws. simpl. by rewrite foldl_app.
  - exists pre. simpl. by rewrite <- app_assoc.
Qed.

Lemma detectStep_shape P st w :
  shapeInv P st -> shapeInv (P ++ [w]) (detectStep minSegmentDuration st w).
Proof.
  intros Hinv. pose proof Hinv as [Hs Hc]. destruct st as [cur segs].
  cbn [fst snd] in Hs, Hc. unfold detectStep. fold (isMarker w).
  destruct (isMarker w) eqn:Hw.
  - split; cbn [fst snd].
    + eapply Forall_impl; [by apply shape_push|]. apply emittedFrom_snoc.
    + intros c [= <-]. by apply openOver_marker.
  - destruct cur as [c|].
    + destruct (Qltb _ _) eqn:Hlt.
      * split; cbn [fst snd].
        -- eapply Forall_impl; [done|]. apply emittedFrom_snoc.
        -- intros c' [= <-]. apply openOver_absorb; auto.
      * split; cbn [fst snd]; [|done].
        eapply Forall_impl; [by apply shape_push|]. apply emittedFrom_snoc.
    + split; cbn [fst snd]; [|done].
      eapply Forall_impl; [done|]. apply emittedFrom_snoc.
Qed.

Lemma detectLoop_shape P words st :
  shapeInv P st ->
  shapeInv (P ++ words) (detectLoop minSegmentDuration words st).
Proof.
  unfold detectLoop. revert P st.
  induction words as [|w words IH]; intros P st Hinv; simpl.
  - by rewrite app_nil_r.
  - replace (P ++ w :: words) with ((P ++ [w]) ++ words)
      by (by rewrite <- app_assoc).
    by apply IH, detectStep_shape.
Qed.

Lemma findSegments_shape transcription :
  Forall (emittedFrom (default [] (chunks transcription)))
         (findSegmentsByNumberPattern minSegmentDuration transcription).
Proof.
  unfold findSegmentsByNumberPattern.
  pose proof (detectLoop_shape [] (default [] (chunks transcription)) (None, []))
    as H.
  destruct (detectLoop _ _ _) as [cur segs]. apply shape_push. apply H.
  split; simpl; [constructor | done].
Qed.

End DetectorShape.

Lemma digitsPrefix_Some (a : Z) (s : string) :
  (0 <= a)%Z -> exists b, digitsPrefix (Some a) s = Some b /\ (0 <= b)%Z.
Proof.
  revert a. induction s as [|c r IH]; intros a Ha; simpl; [by exists a|].
  destruct (isDigit c) eqn:Hc; [|by exists a].
  apply IH. unfold isDigit in Hc. apply andb_true_iff in Hc as [Hc _].
  apply Nat.leb_le in Hc. lia.
Qed.

Lemma parseInt_marker (s : string) :
  englishNumberPattern_test s = true ->
  exists n, parseInt s = Some n /\ (0 <= n)%Z.
Proof.
  destruct s as [|c r]; [done|]. unfold englishNumberPattern_test, parseInt.
  simpl. intros H. apply andb_true_iff in H as [Hc _]. rewrite Hc.
  apply digitsPrefix_Some. unfold isDigit in Hc.
  apply andb_true_iff in Hc as [Hc _]. apply Nat.leb_le in Hc. lia.
Qed.

(** X1. Every segment that the detector returns opens with a marker token,
    starts when that token starts and carries the number the token spells
    (a non-negative integer, never NaN); each further word of the segment is
    no marker and starts less than ten seconds after the marker. *)
Theorem segments_open_with_a_marker
    (minSegmentDuration : Q) (transcription : Transcription) :
  Forall (fun s =>
            exists m rest n,
              Segment.words s = m :: rest /\
              isMarker m = true /\
              Segment.startTime s = fst (Word.timestamp m) /\
              Segment.number s = Some n /\ (0 <= n)%Z /\
              parseInt (trim (Word.text m)) = Some n /\
              Forall (fun w =>
                        isMarker w = false /\
                        fst (Word.timestamp w) - Segment.startTime s < 10)
                     rest)
         (findSegmentsByNumberPattern minSegmentDuration transcription).
Proof.
  eapply Forall_impl; [apply findSegments_shape|].
  intros s ((m & rest & Hws & Hm & Hrest & Hst & Hnum) & _).
  destruct (parseInt_marker (trim (Word.text m)) Hm) as (n & Hn & Hpos).
  exists m, rest, n. repeat split; try done.
  - by rewrite Hnum.
  - eapply Forall_impl; [exact Hrest|]. intros w [Hw Hlt].
    split; [done|]. by rewrite Hst.
Qed.

(** X2. Every segment that the detector returns is cut out of the
    transcript in one piece: its words are consecutive tokens of the
    transcript, it ends when its last word ends, and its text is the
    trimmed texts of its words with one space between them. *)
Theorem segments_are_runs_of_the_transcript
    (minSegmentDuration : Q) (transcription : Transcription) :
  Forall (fun s =>
            (exists pre post,
               default [] (chunks transcription)
               = pre ++ Segment.words s ++ post) /\
            (exists m rest,
               Segment.words s = m :: rest /\
               Segment.endTime s = snd (Word.timestamp (List.last rest m))) /\
            Segment.text s = joinTexts (Segment.words s))
         (findSegmentsByNumberPattern minSegmentDuration transcription).
Proof.
  eapply Forall_impl; [apply findSegments_shape|].
  intros s (_ & (m & rest & Hws & _ & Hend & Htx) & Hrun).
  split; [done|]. split; [|done]. by exists m, rest.
Qed.

(** ** How many segments, and which *)

Section DetectorCount.

Variable minSegmentDuration : Q.

Lemma pushIfLongEnough_length cur segs :
  (length (pushIfLongEnough minSegmentDuration cur segs)
   <= length segs + length (option_list cur))%nat.
Proof.
  destruct (pushIfLongEnough_cases minSegmentDuration cur segs)
    as [-> | (c & -> & _ & ->)]; [lia|].
  rewrite length_app. simpl. lia.
Qed.

Lemma detectStep_count st w :
  (length (snd (detectStep minSegmentDuration st w))
   + length (option_list (fst (detectStep minSegmentDuration st w)))
   <= length (snd st) + length (option_list (fst st))
      + (if isMarker w then 1 else 0))%nat.
Proof.
  destruct st as [cur segs]. unfold detectStep. fold (isMarker w).
  pose proof (pushIfLongEnough_length cur segs) as Hpush.
  destruct (isMarker w); cbn [fst snd].
  - simpl option_list at 1. simpl length at 2. lia.
  - destruct cur as [c|]; [|simpl; lia].
    destruct (Qltb _ _); cbn [fst snd]; simpl in *; lia.
Qed.

Lemma detectLoop_count words st :
  (length (snd (detectLoop minSegmentDuration words st))
   + length (option_list (fst (detectLoop minSegmentDuration words st)))
   <= length (snd st) + length (option_list (fst st))
      + length (List.filter isMarker words))%nat.
Proof.
  unfold detectLoop. revert st.
  induction words as [|w words IH]; intros st; simpl; [lia|].
  specialize (IH (detectStep minSegmentDuration st w)).
  pose proof (detectStep_count st w).
  destruct (isMarker w); simpl; lia.
Qed.

End DetectorCount.

(** X3. The detector returns at most one segment per marker token: a
    transcript without an all-digit token gives no segment, whatever else
    it contains. *)
Theorem at_most_one_segment_per_marker
    (minSegmentDuration : Q) (transcription : Transcription) :
  (length (findSegmentsByNumberPattern minSegmentDuration transcription)
   <= length (List.filter isMarker (default [] (chunks transcription))))%nat.
Proof.
  unfold findSegmentsByNumberPattern.
  pose proof (detectLoop_count minSegmentDuration
                (default [] (chunks transcription)) (None, [])) as H.
  destruct (detectLoop _ _ _) as [cur segs].
  pose proof (pushIfLongEnough_length minSegmentDuration cur segs).
  simpl in *. lia.
Qed.

Section DetectorThreshold.

Variables lower higher : Q.
Hypothesis lower_le_higher : lower <= higher.

Lemma longEnough_weaken c :
  longEnough higher c = true -> longEnough lower c = true.
Proof.
  unfold longEnough. rewrite !Qle_bool_iff. lra.
Qed.

Lemma push_filter cur segs :
  pushIfLongEnough higher cur (List.filter (longEnough higher) segs)
  = List.filter (longEnough higher) (pushIfLongEnough lower cur segs).
Proof.
  destruct cur as [c|]; simpl; [|done].
  destruct (longEnough higher c) eqn:Hh.
  - rewrite (longEnough_weaken c Hh), List.filter_app. simpl. by rewrite Hh.
  - destruct (longEnough lower c); [|done].
    rewrite List.filter_app. simpl. by rewrite Hh, app_nil_r.
Qed.

Lemma detectStep_filter cur segs w :
  detectStep higher (cur, List.filter (longEnough higher) segs) w
  = (fst (detectStep lower (cur, segs) w),
     List.filter (longEnough higher) (snd (detectStep lower (cur, segs) w))).
Proof.
  unfold detectStep. destruct (englishNumberPattern_test _); cbn [fst snd].
  - by rewrite push_filter.
  - destruct cur as [c|]; [|done].
    destruct (Qltb _ _); cbn [fst snd]; [done|]. by rewrite push_filter.
Qed.

Lemma detectLoop_filter words cur segs :
  detectLoop higher words (cur, List.filter (longEnough higher) segs)
  = (fst (detectLoop lower words (cur, segs)),
     List.filter (longEnough higher) (snd (detectLoop lower words (cur, segs)))).
Proof.
  unfold detectLoop. revert cur segs.
  induction words as [|w words IH]; intros cur segs; cbn [foldl]; [done|].
  rewrite detectStep_filter.
  destruct (detectStep lower (cur, segs) w) as [cur' segs']. apply IH.
Qed.

End DetectorThreshold.

(** X4. Raising the minimum duration only removes segments: the result for
    a higher setting is the result for a lower one without the segments
    shorter than the higher setting, in the same order and otherwise
    unchanged. *)
Theorem raising_the_minimum_only_filters
    (lower higher : Q) (transcription : Transcription) :
  lower <= higher ->
  findSegmentsByNumberPattern higher transcription
  = List.filter
      (fun s => Qle_bool higher (Segment.endTime s - Segment.startTime s))
      (findSegmentsByNumberPattern lower transcription).
Proof.
  intros Hle. unfold findSegmentsByNumberPattern.
  pose proof (detectLoop_filter lower higher Hle
                (default [] (chunks transcription)) None []) as H.
  simpl in H. rewrite H.
  destruct (detectLoop lower _ _) as [cur segs]. cbn [fst snd].
  apply (push_filter lower higher Hle).
Qed.

Lemma raising_the_minimum_only_filters_witness :
  let transcription :=
    Build_Transcription "1 a 2 b"
      (Some [Word.mk " 1" (0, 0.5); Word.mk " a" (0.5, 1.5);
             Word.mk " 2" (2, 2.5); Word.mk " b" (2.5, 5)]) in
  findSegmentsByNumberPattern 2 transcription
  = List.filter
      (fun s => Qle_bool 2 (Segment.endTime s - Segment.startTime s))
      (findSegmentsByNumberPattern 1 transcription).
Proof.
  intros transcription.
  apply (raising_the_minimum_only_filters 1 2 transcription).
  vm_compute. discriminate.
Defined.

(** ** More on the extractor *)

Lemma extracted_lookup audioBuffer segments out k a :
  extractSegmentsFromTimestamps audioBuffer segments = Some out ->
  out !! k = Some a ->
  exists d, segments !! k = Some d /\ a = slicedSegment audioBuffer k d.
Proof.
  intros Hout Ha. apply extractSegments_inv in Hout as ->.
  rewrite list_lookup_imap in Ha.
  destruct (segments !! k) as [d|]; [|done]. simpl in Ha.
  exists d. split; [done|]. by injection Ha.
Qed.

(** X5. When extraction succeeds it returns one entry per descriptor, in
    the order of the descriptors; the entry at position [k] has the id
    [k + 1] and carries the descriptor's times, text and words, with
    [duration = endTime - startTime]. *)
Theorem extracted_segments_are_numbered_in_order
    (audioBuffer : AudioBuffer.t) (segments : list Segment.t)
    (out : list AudioSegment.t) :
  extractSegmentsFromTimestamps audioBuffer segments = Some out ->
  length out = length segments /\
  forall k a, out !! k = Some a ->
    AudioSegment.id a = (k + 1)%nat /\
    exists d, segments !! k = Some d /\
      AudioSegment.startTime a = Segment.startTime d /\
      AudioSegment.endTime a = Segment.endTime d /\
      AudioSegment.duration a = Segment.endTime d - Segment.startTime d /\
      AudioSegment.text a = Segment.text d /\
      AudioSegment.words a = Segment.words d.
Proof.
  intros Hout. split.
  - apply extractSegments_inv in Hout as ->. apply length_imap.
  - intros k a Ha.
    destruct (extracted_lookup _ _ _ _ _ Hout Ha) as (d & Hd & ->).
    split; [reflexivity|]. exists d. by repeat split.
Qed.

Lemma extracted_segments_are_numbered_in_order_witness :
  let audioBuffer := AudioBuffer.mk 16000 [[Num 0; Num 0.5; Num (-0.5); Num 1]] in
  let segments := [Segment.mk 0 0.001 [] "7" (Some 7%Z);
                   Segment.mk 0.001 0.002 [] "8" (Some 8%Z)] in
  let out := imap (slicedSegment audioBuffer) segments in
  length out = length segments /\
  forall k a, out !! k = Some a ->
    AudioSegment.id a = (k + 1)%nat /\
    exists d, segments !! k = Some d /\
      AudioSegment.startTime a = Segment.startTime d /\
      AudioSegment.endTime a = Segment.endTime d /\
      AudioSegment.duration a = Segment.endTime d - Segment.startTime d /\
      AudioSegment.text a = Segment.text d /\
      AudioSegment.words a = Segment.words d.
Proof.
  intros audioBuffer segments out.
  apply (extracted_segments_are_numbered_in_order audioBuffer segments out).
  vm_compute. reflexivity.
Defined.

Lemma extractLoop_None audioBuffer i segments audioSegments :
  (1 <= AudioBuffer.numberOfChannels audioBuffer)%nat ->
  extractLoop audioBuffer i segments audioSegments = None <->
  Exists (fun d =>
            (segmentFrames (AudioBuffer.sampleRate audioBuffer) d < 1)%Z)
         segments.
Proof.
  intros Hch. revert i audioSegments.
  induction segments as [|d segments IH]; intros i acc; simpl.
  - split; [done | by inversion 1].
  - destruct (decide (1 <= segmentFrames (AudioBuffer.sampleRate audioBuffer) d)%Z)
      as [Hd|Hd].
    + rewrite extractSegment_Some by done. simpl. rewrite IH.
      rewrite Exists_cons. split; [by right | intros [?|?]; [lia | done]].
    + rewrite extractSegment_None by lia. simpl.
      split; [intros _; apply Exists_cons_hd; lia | done].
Qed.

(** X6. Extraction is all or nothing: from a buffer with at least one
    channel it raises (and returns no segment at all) exactly when some
    descriptor has fewer than one frame, that is
    [floor(end * r) - floor(start * r) < 1]. *)
Theorem extraction_fails_iff_a_descriptor_is_empty
    (audioBuffer : AudioBuffer.t) (segments : list Segment.t) :
  let r := inject_Z (AudioBuffer.sampleRate audioBuffer) in
  (1 <= AudioBuffer.numberOfChannels audioBuffer)%nat ->
  extractSegmentsFromTimestamps audioBuffer segments = None <->
  Exists (fun d => (Qfloor (Segment.endTime d * r)
                    - Qfloor (Segment.startTime d * r) < 1)%Z) segments.
Proof.
  intros r Hch. subst r. by apply extractLoop_None.
Qed.

Lemma extraction_fails_iff_a_descriptor_is_empty_witness :
  let audioBuffer := AudioBuffer.mk 16000 [[Num 0; Num 0.5; Num (-0.5); Num 1]] in
  let segments := [Segment.mk 0 0.001 [] "7" (Some 7%Z);
                   Segment.mk 0.5 0.5 [] "8" (Some 8%Z)] in
  extractSegmentsFromTimestamps audioBuffer segments = None <->
  Exists (fun d => (Qfloor (Segment.endTime d * inject_Z 16000)
                    - Qfloor (Segment.startTime d * inject_Z 16000) < 1)%Z)
         segments.
Proof.
  intros audioBuffer segments.
  apply (extraction_fails_iff_a_descriptor_is_empty audioBuffer segments).
  vm_compute. lia.
Defined.

Lemma extractLoop_frames audioBuffer i segments audioSegments out :
  extractLoop audioBuffer i segments audioSegments = Some out ->
  Forall (fun d =>
            (1 <= AudioBuffer.numberOfChannels audioBuffer)%nat /\
            (1 <= segmentFrames (AudioBuffer.sampleRate audioBuffer) d)%Z)
         segments.
Proof.
  revert i audioSegments.
  induction segments as [|d segments IH]; intros i acc H; [constructor|].
  simpl in H.
  destruct (extractSegment audioBuffer i d) as [a|] eqn:Ha; [|done].
  simpl in H. apply extractSegment_inv in Ha as (_ & Hch & Hd).
  constructor; [done|]. by eapply IH.
Qed.

Lemma slice_inside (startSample : Z) (channelData : list sample) (n : nat) :
  (0 <= startSample)%Z ->
  (startSample + Z.of_nat n <= Z.of_nat (length channelData))%Z ->
  segmentSample startSample channelData <$> seq 0 n
  = take n (drop (Z.to_nat startSample) channelData).
Proof.
  intros H0 Hend. apply list_eq. intros k.
  rewrite list_lookup_fmap.
  destruct (decide (k < n)%nat) as [Hk|Hk].
  - rewrite lookup_seq_lt by done. rewrite lookup_take_lt by done.
    rewrite lookup_drop. simpl.
    rewrite segmentSample_inside by lia. f_equal. lia.
  - rewrite lookup_seq_ge by lia. rewrite lookup_take_ge by lia. done.
Qed.

(** X7. A descriptor whose sample range lies inside the source is cut
    exactly: each channel of its buffer is the window of the source channel
    that starts at [floor(start * r)] and has
    [floor(end * r) - floor(start * r)] samples, nothing padded and nothing
    altered. *)
Theorem segment_inside_the_source_is_an_exact_window
    (audioBuffer : AudioBuffer.t) (segments : list Segment.t)
    (out : list AudioSegment.t) (k : nat) (d : Segment.t) (a : AudioSegment.t)
    (channel : nat) (channelData : list sample) :
  let r := inject_Z (AudioBuffer.sampleRate audioBuffer) in
  let startSample := Qfloor (Segment.startTime d * r) in
  let endSample := Qfloor (Segment.endTime d * r) in
  extractSegmentsFromTimestamps audioBuffer segments = Some out ->
  segments !! k = Some d -> out !! k = Some a ->
  AudioBuffer.getChannelData audioBuffer channel = Some channelData ->
  (0 <= startSample)%Z -> (endSample <= Z.of_nat (length channelData))%Z ->
  AudioBuffer.getChannelData (AudioSegment.buffer a) channel
  = Some (take (Z.to_nat (endSample - startSample))
               (drop (Z.to_nat startSample) channelData)).
Proof.
  intros r startSample endSample Hout Hd Ha Hch H0 Hend.
  destruct (extracted_lookup _ _ _ _ _ Hout Ha) as (d' & Hd' & ->).
  rewrite Hd in Hd'. injection Hd' as <-.
  pose proof (extractLoop_frames _ _ _ _ _ Hout) as Hfr.
  rewrite Forall_lookup in Hfr. destruct (Hfr _ _ Hd) as [_ Hframes].
  rewrite (slicedSegment_channel _ _ _ _ _ Hch). f_equal.
  unfold segmentFrames in *. fold r startSample endSample in Hframes |- *.
  apply slice_inside; lia.
Qed.

Lemma segment_inside_the_source_is_an_exact_window_witness :
  let channelData := [Num 0; Num 0.5; Num (-0.5); Num 1; Num 0.25] in
  let audioBuffer := AudioBuffer.mk 8 [channelData] in
  let d := Segment.mk 0.125 0.5 [] "7" (Some 7%Z) in
  AudioBuffer.getChannelData
    (AudioSegment.buffer (slicedSegment audioBuffer 0 d)) 0
  = Some (take (Z.to_nat (Qfloor (0.5 * inject_Z 8)
                          - Qfloor (0.125 * inject_Z 8)))
               (drop (Z.to_nat (Qfloor (0.125 * inject_Z 8))) channelData)).
Proof.
  intros channelData audioBuffer d.
  apply (segment_inside_the_source_is_an_exact_window audioBuffer [d]
           [slicedSegment audioBuffer 0 d] 0 d (slicedSegment audioBuffer 0 d)
           0 channelData);
    first [reflexivity | vm_compute; discriminate].
Defined.

Lemma segmentSample_shift (startSample : Z) (n : nat)
    (channelData : list sample) (k : nat) :
  segmentSample (startSample + Z.of_nat n) channelData k
  = segmentSample startSample channelData (n + k).
Proof.
  unfold segmentSample.
  replace (startSample + Z.of_nat n + Z.of_nat k)%Z
    with (startSample + Z.of_nat (n + k))%Z by lia.
  done.
Qed.

Lemma slice_app (startSample : Z) (channelData : list sample) (n m : nat) :
  (segmentSample startSample channelData <$> seq 0 n)
  ++ (segmentSample (startSample + Z.of_nat n) channelData <$> seq 0 m)
  = segmentSample startSample channelData <$> seq 0 (n + m).
Proof.
  rewrite seq_app, fmap_app. f_equal. simpl.
  apply list_eq. intros k. rewrite !list_lookup_fmap.
  destruct (decide (k < m)%nat) as [Hk|Hk].
  - rewrite !lookup_seq_lt by done. simpl. f_equal.
    apply segmentSample_shift.
  - by rewrite !lookup_seq_ge by lia.
Qed.

(** X8. Two descriptors that share a boundary (the first ends when the
    second starts) are cut without losing or repeating a sample: the
    descriptor that spans both is extracted too, and each channel of its
    buffer is the channel of the first buffer followed by the channel of
    the second. *)
Theorem adjacent_segments_tile
    (audioBuffer : AudioBuffer.t) (d1 d2 d : Segment.t)
    (a1 a2 : AudioSegment.t) :
  Segment.endTime d1 == Segment.startTime d2 ->
  Segment.startTime d == Segment.startTime d1 ->
  Segment.endTime d == Segment.endTime d2 ->
  extractSegmentsFromTimestamps audioBuffer [d1; d2] = Some [a1; a2] ->
  exists a,
    extractSegmentsFromTimestamps audioBuffer [d] = Some [a] /\
    forall channel c1 c2,
      AudioBuffer.getChannelData (AudioSegment.buffer a1) channel = Some c1 ->
      AudioBuffer.getChannelData (AudioSegment.buffer a2) channel = Some c2 ->
      AudioBuffer.getChannelData (AudioSegment.buffer a) channel
      = Some (c1 ++ c2).
Proof.
  intros Hmid Hs He Hout.
  set (rate := AudioBuffer.sampleRate audioBuffer).
  pose proof (extractLoop_frames _ _ _ _ _ Hout) as Hfr.
  inversion Hfr as [|? ? [Hch H1] Hfr']; subst.
  inversion Hfr' as [|? ? [_ H2] _]; subst. clear Hfr Hfr'.
  fold rate in H1, H2.
  assert (Hmid' : Qfloor (Segment.endTime d1 * inject_Z rate)
                  = Qfloor (Segment.startTime d2 * inject_Z rate))
    by (by rewrite Hmid).
  assert (Hs' : Qfloor (Segment.startTime d * inject_Z rate)
                = Qfloor (Segment.startTime d1 * inject_Z rate))
    by (by rewrite Hs).
  assert (He' : Qfloor (Segment.endTime d * inject_Z rate)
                = Qfloor (Segment.endTime d2 * inject_Z rate))
    by (by rewrite He).
  assert (Hsum : segmentFrames rate d
                 = (segmentFrames rate d1 + segmentFrames rate d2)%Z).
  { unfold segmentFrames in *. lia. }
  exists (slicedSegment audioBuffer 0 d). split.
  - rewrite extractSegments_Some; [done | done |].
    constructor; [fold rate; lia | constructor].
  - intros channel c1 c2 Hc1 Hc2.
    apply extractSegments_inv in Hout.
    change (imap (slicedSegment audioBuffer) [d1; d2])
      with [slicedSegment audioBuffer 0 d1; slicedSegment audioBuffer 1 d2]
      in Hout.
    injection Hout as -> ->.
    unfold slicedSegment, AudioBuffer.getChannelData in *.
    cbn [AudioSegment.buffer AudioBuffer.channels AudioBuffer.sampleRate] in *.
    fold rate in Hc1, Hc2 |- *.
    rewrite list_lookup_fmap in Hc1, Hc2 |- *.
    destruct (AudioBuffer.channels audioBuffer !! channel) as [data|];
      [|done].
    cbn [fmap option_fmap option_map] in Hc1, Hc2 |- *.
    injection Hc1 as <-. injection Hc2 as <-.
    f_equal. rewrite Hsum, Hs', Z2Nat.inj_add by lia.
    rewrite <- slice_app. do 3 f_equal.
    change (Qfloor (Segment.startTime d1 * inject_Z rate)
            + Z.of_nat (Z.to_nat (segmentFrames rate d1))
            = Qfloor (Segment.startTime d2 * inject_Z rate))%Z.
    rewrite <- Hmid'. unfold segmentFrames in H1 |- *. lia.
Qed.

Lemma adjacent_segments_tile_witness :
  let audioBuffer :=
    AudioBuffer.mk 8 [[Num 0; Num 0.5; Num (-0.5); Num 1; Num 0.25]] in
  let d1 := Segment.mk 0.125 0.25 [] "7" (Some 7%Z) in
  let d2 := Segment.mk 0.25 0.5 [] "8" (Some 8%Z) in
  let d := Segment.mk 0.125 0.5 [] "7 8" (Some 7%Z) in
  exists a,
    extractSegmentsFromTimestamps audioBuffer [d] = Some [a] /\
    forall channel c1 c2,
      AudioBuffer.getChannelData
        (AudioSegment.buffer (slicedSegment audioBuffer 0 d1)) channel
      = Some c1 ->
      AudioBuffer.getChannelData
        (AudioSegment.buffer (slicedSegment audioBuffer 1 d2)) channel
      = Some c2 ->
      AudioBuffer.getChannelData (AudioSegment.buffer a) channel
      = Some (c1 ++ c2).
Proof.
  intros audioBuffer d1 d2 d.
  apply (adjacent_segments_tile audioBuffer d1 d2 d
           (slicedSegment audioBuffer 0 d1) (slicedSegment audioBuffer 1 d2));
    vm_compute; reflexivity.
Defined.

(** X9. The extractor does not guard against a start before time zero: in
    the buffer of a descriptor whose first sample index is negative, every
    position whose source index is negative holds NaN (the read of an
    element that the source array does not have), not silence. *)
Theorem negative_source_indices_give_NaN
    (audioBuffer : AudioBuffer.t) (segments : list Segment.t)
    (out : list AudioSegment.t) (i : nat) (d : Segment.t) (a : AudioSegment.t)
    (channel : nat) (channelData : list sample) (k : nat) :
  let r := inject_Z (AudioBuffer.sampleRate audioBuffer) in
  let startSample := Qfloor (Segment.startTime d * r) in
  let endSample := Qfloor (Segment.endTime d * r) in
  extractSegmentsFromTimestamps audioBuffer segments = Some out ->
  segments !! i = Some d -> out !! i = Some a ->
  AudioBuffer.getChannelData audioBuffer channel = Some channelData ->
  (startSample + Z.of_nat k < 0)%Z ->
  (Z.of_nat k < endSample - startSample)%Z ->
  exists segmentChannelData,
    AudioBuffer.getChannelData (AudioSegment.buffer a) channel
    = Some segmentChannelData /\
    segmentChannelData !! k = Some NaN.
Proof.
  intros r startSample endSample Hout Hd Ha Hch Hneg Hk.
  destruct (extracted_lookup _ _ _ _ _ Hout Ha) as (d' & Hd' & ->).
  rewrite Hd in Hd'. injection Hd' as <-.
  eexists. split; [by apply slicedSegment_channel|].
  rewrite segmentSample_lookup
    by (unfold segmentFrames; fold r startSample endSample; lia).
  f_equal. unfold segmentSample, f32_get. fold r startSample.
  rewrite (proj2 (Z.ltb_lt _ _)) by lia.
  by rewrite (proj2 (Z.ltb_lt _ 0)) by lia.
Qed.

Lemma negative_source_indices_give_NaN_witness :
  let channelData := [Num 0.25; Num 0.5; Num (-0.5); Num 1] in
  let audioBuffer := AudioBuffer.mk 8 [channelData] in
  let d := Segment.mk (-0.25) 0.25 [] "7" (Some 7%Z) in
  exists segmentChannelData,
    AudioBuffer.getChannelData
      (AudioSegment.buffer (slicedSegment audioBuffer 0 d)) 0
    = Some segmentChannelData /\
    segmentChannelData !! 1%nat = Some NaN.
Proof.
  intros channelData audioBuffer d.
  apply (negative_source_indices_give_NaN audioBuffer [d]
           [slicedSegment audioBuffer 0 d] 0 d (slicedSegment audioBuffer 0 d)
           0 channelData 1);
    first [reflexivity | vm_compute; reflexivity].
Defined.

(** ** More on the encoder *)

Lemma Qtrunc_mono (p q : Q) : p <= q -> (Qtrunc p <= Qtrunc q)%Z.
Proof.
  intros H. unfold Qtrunc.
  destruct (Qle_bool 0 p) eqn:Hp; destruct (Qle_bool 0 q) eqn:Hq.
  - by apply Qfloor_resp_le.
  - apply Qle_bool_iff in Hp.
    assert (~ 0 <= q) by (intros Hc; apply Qle_bool_iff in Hc; congruence).
    lra.
  - apply Qle_bool_iff in Hq.
    assert (Hp' : ~ 0 <= p) by (intros Hc; apply Qle_bool_iff in Hc; congruence).
    transitivity 0%Z.
    + rewrite <- (Qceiling_Z 0). apply Qceiling_resp_le.
      change (inject_Z 0) with 0. lra.
    + rewrite <- (Qfloor_Z 0). apply Qfloor_resp_le.
      by change (inject_Z 0) with 0.
  - by apply Qceiling_resp_le.
Qed.

Lemma clampToUnit_mono (x y : Q) : x <= y -> clampToUnit x <= clampToUnit y.
Proof.
  intros H. unfold clampToUnit.
  destruct (Qltb x (-1)) eqn:Hx1; destruct (Qltb y (-1)) eqn:Hy1;
  destruct (Qltb 1 x) eqn:Hx2; destruct (Qltb 1 y) eqn:Hy2;
  rewrite ?Qltb_true, ?Qltb_false in *; lra.
Qed.

Lemma scaled_mono (c d : Q) :
  c <= d ->
  (if Qltb c 0 then c * 32768 else c * 32767)
  <= (if Qltb d 0 then d * 32768 else d * 32767).
Proof.
  intros H.
  destruct (Qltb c 0) eqn:Hc; destruct (Qltb d 0) eqn:Hd;
  rewrite ?Qltb_true, ?Qltb_false in *; lra.
Qed.

Lemma clampToUnit_inside (x : Q) : -1 <= x -> x <= 1 -> clampToUnit x == x.
Proof.
  intros Hlo Hhi. unfold clampToUnit.
  destruct (Qltb x (-1)) eqn:H1; [apply Qltb_true in H1; lra|].
  destruct (Qltb 1 x) eqn:H2; [apply Qltb_true in H2; lra|]. reflexivity.
Qed.

Lemma pcm16_of_clamped (x c : Q) :
  clampToUnit x == c ->
  pcm16 x = Qtrunc (if Qltb c 0 then c * 32768 else c * 32767).
Proof.
  intros H. unfold pcm16. cbv zeta. apply Qtrunc_comp.
  rewrite (Qltb_comp (clampToUnit x) c 0 0) by done.
  destruct (Qltb c 0); by rewrite H.
Qed.

(** X10. The sample conversion of the encoder never inverts an order and
    saturates at full scale: a larger sample is never stored as a smaller
    integer, every sample of 1 or more is stored as 32767 and every sample
    of -1 or less as -32768. *)
Theorem quantiser_is_monotone_and_saturates (x y : Q) :
  (x <= y -> (quantise (Num x) <= quantise (Num y))%Z) /\
  (1 <= x -> quantise (Num x) = 32767%Z) /\
  (x <= -1 -> quantise (Num x) = (-32768)%Z).
Proof.
  unfold quantise. rewrite (proj1 (encoded_pcm16 x)), (proj1 (encoded_pcm16 y)).
  split; [|split].
  - intros H. unfold pcm16. cbv zeta.
    by apply Qtrunc_mono, scaled_mono, clampToUnit_mono.
  - intros H. rewrite (pcm16_of_clamped x 1); [reflexivity|].
    unfold clampToUnit.
    destruct (Qltb x (-1)) eqn:H1; [apply Qltb_true in H1; lra|].
    destruct (Qltb 1 x) eqn:H2; [reflexivity|]. apply Qltb_false in H2. lra.
  - intros H. rewrite (pcm16_of_clamped x (-1)); [reflexivity|].
    unfold clampToUnit.
    destruct (Qltb x (-1)) eqn:H1; [reflexivity|]. apply Qltb_false in H1.
    destruct (Qltb 1 x) eqn:H2; [apply Qltb_true in H2; lra|]. lra.
Qed.

Lemma quantiser_is_monotone_and_saturates_witness :
  (quantise (Num (1 # 4)) <= quantise (Num (1 # 2)))%Z /\
  quantise (Num (3 # 2)) = 32767%Z /\
  quantise (Num (-2)) = (-32768)%Z.
Proof.
  split; [|split].
  - apply (proj1 (quantiser_is_monotone_and_saturates (1 # 4) (1 # 2))).
    vm_compute. discriminate.
  - apply (proj1 (proj2 (quantiser_is_monotone_and_saturates (3 # 2) 0))).
    vm_compute. discriminate.
  - apply (proj2 (proj2 (quantiser_is_monotone_and_saturates (-2) 0))).
    vm_compute. discriminate.
Defined.

(** X11. Inside [-1, 1] the stored integer is the scaled sample with its
    fraction dropped, so it is off by less than one step: for
    [0 <= x <= 1] it is the largest integer not above [32767 * x], for
    [-1 <= x < 0] the smallest integer not below [32768 * x]. *)
Theorem quantiser_error_is_below_one_step (x : Q) :
  (0 <= x -> x <= 1 ->
   inject_Z (quantise (Num x)) <= x * 32767 /\
   x * 32767 < inject_Z (quantise (Num x)) + 1) /\
  (-1 <= x -> x < 0 ->
   inject_Z (quantise (Num x)) - 1 < x * 32768 /\
   x * 32768 <= inject_Z (quantise (Num x))).
Proof.
  unfold quantise. rewrite (proj1 (encoded_pcm16 x)). split.
  - intros H0 H1. rewrite (pcm16_of_clamped x x)
      by (apply clampToUnit_inside; lra).
    replace (Qltb x 0) with false
      by (symmetry; by apply Qltb_false).
    unfold Qtrunc.
    replace (Qle_bool 0 (x * 32767)) with true
      by (symmetry; apply Qle_bool_iff; lra).
    apply Qfloor_bounds.
  - intros H0 H1. rewrite (pcm16_of_clamped x x)
      by (apply clampToUnit_inside; lra).
    replace (Qltb x 0) with true by (symmetry; by apply Qltb_true).
    unfold Qtrunc.
    replace (Qle_bool 0 (x * 32768)) with false.
    2:{ symmetry. apply not_true_iff_false. rewrite Qle_bool_iff. lra. }
    split.
    + pose proof (Qceiling_lt (x * 32768)) as H.
      rewrite inject_Z_sub in H. exact H.
    + apply Qle_ceiling.
Qed.

Lemma quantiser_error_is_below_one_step_witness :
  inject_Z (quantise (Num (1 # 3))) <= (1 # 3) * 32767 /\
  (1 # 3) * 32767 < inject_Z (quantise (Num (1 # 3))) + 1.
Proof.
  apply (proj1 (quantiser_error_is_below_one_step (1 # 3))); vm_compute;
    discriminate.
Defined.

Lemma ToInt16_range (x : sample) : (-32768 <= ToInt16 x <= 32767)%Z.
Proof.
  destruct x as [q|]; simpl; [|lia].
  destruct (Z.ltb_spec (Qtrunc q mod 65536) 32768);
    Z.div_mod_to_equations; lia.
Qed.

Lemma file_getInt16 sampleRate channelData n i :
  (i < n)%nat ->
  getInt16 (wavHeader sampleRate n ++ wavPayload channelData 0 n) (44 + 2 * i)
  = Some (quantise (f32_get channelData (Z.of_nat i))).
Proof.
  intros Hi. unfold getInt16, getUint16.
  replace (44 + 2 * i + 1)%nat with (44 + (i * 2 + 1))%nat by lia.
  replace (44 + 2 * i)%nat with (44 + (i * 2 + 0))%nat by lia.
  rewrite !file_lookup_payload, !wavPayload_lookup by lia.
  change (0 + i)%nat with i. unfold encodedSample.
  fold (quantise (f32_get channelData (Z.of_nat i))).
  cbn [leBytes lookup list_lookup mbind option_bind]. f_equal.
  apply (le16_decode_signed (quantise (f32_get channelData (Z.of_nat i)))).
  pose proof (ToInt16_range
                (scaleSample (clampSample (f32_get channelData (Z.of_nat i))))).
  unfold quantise. lia.
Qed.

(** X12. Reading a file back gives what was written: the data chunk holds
    as many samples as channel 0 has, each the stored integer of the
    corresponding sample (0 for a NaN), and the header gives the sample
    rate of the buffer. *)
Theorem wav_reads_back
    (buffer : AudioBuffer.t) (channelData : list sample) :
  AudioBuffer.getChannelData buffer 0 = Some channelData ->
  (2 * Z.of_nat (length channelData) < 4294967296)%Z ->
  (0 <= AudioBuffer.sampleRate buffer < 4294967296)%Z ->
  exists bytes,
    bufferToWav buffer = Some bytes /\
    wavSampleRate bytes = Some (AudioBuffer.sampleRate buffer) /\
    wavSamples bytes = Some (quantise <$> channelData) /\
    quantise NaN = 0%Z.
Proof.
  intros Hch Hn Hr. eexists. split; [by apply bufferToWav_closed|].
  split; [|split; [|reflexivity]].
  - unfold wavSampleRate.
    apply getUint32_header; [lia | reflexivity.. | lia].
  - unfold wavSamples.
    rewrite (getUint32_header _ _ _ 40 (Z.of_nat (length channelData) * 2));
      [|lia | reflexivity.. | lia].
    cbn [mbind option_bind].
    replace (Z.to_nat (Z.of_nat (length channelData) * 2 / 2))
      with (length channelData)
      by (rewrite Z.div_mul by lia; lia).
    apply mapM_Some. apply Forall2_lookup. intros i.
    rewrite list_lookup_fmap.
    destruct (channelData !! i) as [x|] eqn:Hx.
    + rewrite lookup_seq_lt by (by eapply lookup_lt_Some).
      constructor. change (0 + i)%nat with i.
      rewrite file_getInt16 by (by eapply lookup_lt_Some).
      by rewrite (f32_get_lookup _ _ _ Hx).
    + rewrite lookup_seq_ge by (by apply lookup_ge_None). constructor.
Qed.

Lemma wav_reads_back_witness :
  let channelData := [Num 0.5; Num (-0.25); Num 2; NaN] in
  let buffer := AudioBuffer.mk 16000 [channelData] in
  exists bytes,
    bufferToWav buffer = Some bytes /\
    wavSampleRate bytes = Some 16000%Z /\
    wavSamples bytes = Some (quantise <$> channelData) /\
    quantise NaN = 0%Z.
Proof.
  intros channelData buffer.
  apply (wav_reads_back buffer channelData); [reflexivity | |];
    vm_compute; first [reflexivity | split; [discriminate | reflexivity]].
Defined.

(** ** More on the conversion at upload *)

Section ConverterFacts.

Variable rendered : AudioBuffer.t -> nat -> sample.

(** X14. Converting twice is converting once: what
    [convertAudioTo16kMono] stores is mono at 16 kHz, and such a buffer is
    passed through as it is. *)
Theorem conversion_is_idempotent (originalBuffer b : AudioBuffer.t) :
  convertedBuffer rendered originalBuffer = Some b ->
  convertedBuffer rendered b = Some b.
Proof.
  intros H. apply convertedBuffer_mono16k in H as [Hn Hr].
  unfold convertedBuffer. by rewrite Hn, Hr.
Qed.

Lemma downmixToMono_length originalBuffer :
  length (downmixToMono originalBuffer
            (replicate (AudioBuffer.length originalBuffer) (Num 0)))
  = AudioBuffer.length originalBuffer.
Proof.
  unfold downmixToMono.
  destruct (_ =? 1)%nat; rewrite foldl_store_replicate, length_fmap;
    apply length_seq.
Qed.

Lemma length_mono_buffer (rate : Z) (c : list sample) :
  AudioBuffer.length (AudioBuffer.mk rate [c]) = length c.
Proof. reflexivity. Qed.

Lemma createBuffer_mono (n : nat) (rate : Z) :
  (1 <= n)%nat ->
  createBuffer 1 (Z.of_nat n) rate
  = Some (AudioBuffer.mk rate [replicate n (Num 0)]).
Proof.
  intros Hn. unfold createBuffer.
  rewrite (proj2 (Z.ltb_lt 0 (Z.of_nat n))) by lia. simpl.
  by rewrite Nat2Z.id.
Qed.

(** X15. The length of the stored buffer: the decoded length when the
    decoded audio is at 16000 Hz, and [ceil(length * 16000 / sampleRate)]
    when it is at another rate. *)
Theorem converted_length (originalBuffer b : AudioBuffer.t) :
  convertedBuffer rendered originalBuffer = Some b ->
  let n := AudioBuffer.length originalBuffer in
  let rate := AudioBuffer.sampleRate originalBuffer in
  (rate = 16000%Z -> AudioBuffer.length b = n) /\
  (rate <> 16000%Z ->
   Z.of_nat (AudioBuffer.length b)
   = Qceiling (inject_Z (Z.of_nat n * 16000) / inject_Z rate)).
Proof.
  intros H n rate. subst n rate. unfold convertedBuffer in H.
  destruct (decide (AudioBuffer.length originalBuffer = 0)%nat) as [H0|H0].
  - (* nothing to convert: only a mono 16 kHz buffer gets through *)
    destruct ((_ =? 1)%nat && (_ =? 16000)%Z) eqn:Hpass.
    + injection H as <-. split; [done|]. intros Hr.
      apply andb_true_iff in Hpass as [_ Hr']. apply Z.eqb_eq in Hr'. done.
    + rewrite H0 in H. unfold createBuffer in H. simpl in H. done.
  - destruct ((_ =? 1)%nat && (_ =? 16000)%Z) eqn:Hpass.
    + injection H as <-. split; [done|]. intros Hr.
      apply andb_true_iff in Hpass as [_ Hr']. apply Z.eqb_eq in Hr'. done.
    + rewrite createBuffer_mono in H by lia.
      cbn [mbind option_bind AudioBuffer.getChannelData AudioBuffer.channels
           lookup list_lookup] in H.
      destruct (Z.eqb_spec (AudioBuffer.sampleRate originalBuffer) 16000)
        as [Hr|Hr]; cbn [negb] in H.
      * injection H as <-. split; [|done]. intros _.
        rewrite length_mono_buffer. apply downmixToMono_length.
      * split; [done|]. intros _. unfold renderOffline in H.
        destruct (0 <? _)%Z eqn:Hpos; [|done]. injection H as <-.
        rewrite length_mono_buffer, length_fmap, length_seq.
        apply Z.ltb_lt in Hpos.
        rewrite length_mono_buffer in Hpos |- *.
        cbn [AudioBuffer.sampleRate] in Hpos |- *.
        rewrite downmixToMono_length in Hpos |- *. lia.
Qed.

Lemma Qceiling_pos (q : Q) : 0 < q -> (0 < Qceiling q)%Z.
Proof.
  intros H. pose proof (Qle_ceiling q) as Hc.
  rewrite Zlt_Qlt. change (inject_Z 0) with 0. lra.
Qed.

(** X16. With a positive sample rate the conversion raises exactly when
    the decoded audio has no frame and is not already mono at 16 kHz; an
    empty buffer that is mono at 16 kHz is passed through. *)
Theorem conversion_fails_iff_empty (originalBuffer : AudioBuffer.t) :
  (0 < AudioBuffer.sampleRate originalBuffer)%Z ->
  convertedBuffer rendered originalBuffer = None <->
  AudioBuffer.length originalBuffer = 0%nat /\
  ~ (AudioBuffer.numberOfChannels originalBuffer = 1%nat /\
     AudioBuffer.sampleRate originalBuffer = 16000%Z).
Proof.
  intros Hrate. unfold convertedBuffer.
  destruct (Nat.eqb_spec (AudioBuffer.numberOfChannels originalBuffer) 1)
    as [Hn|Hn];
  destruct (Z.eqb_spec (AudioBuffer.sampleRate originalBuffer) 16000)
    as [Hr|Hr]; cbn [andb negb].
  1: { split; [done | intros [_ Hc]; by destruct Hc]. }
  all: destruct (decide (AudioBuffer.length originalBuffer = 0)%nat)
         as [H0|H0].
  all: try (rewrite H0; unfold createBuffer; simpl;
            split; [intros _; split; [done | intros [? ?]; done] | done]).
  all: rewrite createBuffer_mono by lia;
       cbn [mbind option_bind AudioBuffer.getChannelData AudioBuffer.channels
            lookup list_lookup].
  all: try (split; [done | intros [? _]; done]).
  all: unfold renderOffline;
       rewrite length_mono_buffer;
       cbn [AudioBuffer.sampleRate];
       rewrite downmixToMono_length.
  all: rewrite (proj2 (Z.ltb_lt 0 _));
       [split; [done | intros [? _]; done]|].
  all: apply Qceiling_pos, Qlt_shift_div_l;
       [change 0 with (inject_Z 0); rewrite <- Zlt_Qlt; lia|].
  all: rewrite Qmult_0_l; change 0 with (inject_Z 0); rewrite <- Zlt_Qlt; lia.
Qed.

End ConverterFacts.

Lemma conversion_is_idempotent_witness :
  let b := AudioBuffer.mk 16000 [[Num (1 # 2); Num (1 # 2)]] in
  convertedBuffer heldFrame b = Some b.
Proof.
  intros b.
  apply (conversion_is_idempotent heldFrame
           (AudioBuffer.mk 44100 [[Num 0.5; Num 0.25; Num 0; Num (-0.25)];
                                  [Num 0.5; Num 0.75; Num 1; Num 0.25]]) b).
  vm_compute. reflexivity.
Defined.

Lemma converted_length_witness :
  let b := AudioBuffer.mk 16000 [[Num (1 # 2); Num (1 # 2)]] in
  Z.of_nat (AudioBuffer.length b)
  = Qceiling (inject_Z (Z.of_nat 4 * 16000) / inject_Z 44100).
Proof.
  intros b.
  apply (proj2 (converted_length heldFrame
           (AudioBuffer.mk 44100 [[Num 0.5; Num 0.25; Num 0; Num (-0.25)];
                                  [Num 0.5; Num 0.75; Num 1; Num 0.25]]) b
           eq_refl)).
  vm_compute. discriminate.
Defined.

Lemma conversion_fails_iff_empty_witness :
  let originalBuffer := AudioBuffer.mk 44100 [[]; []] in
  convertedBuffer heldFrame originalBuffer = None <->
  AudioBuffer.length originalBuffer = 0%nat /\
  ~ (AudioBuffer.numberOfChannels originalBuffer = 1%nat /\
     AudioBuffer.sampleRate originalBuffer = 16000%Z).
Proof.
  intros originalBuffer.
  apply (conversion_fails_iff_empty heldFrame originalBuffer).
  vm_compute. reflexivity.
Defined.

(** ** The range of the downmix *)

Lemma channelSum_bounds (channels : list (list sample)) (i : nat) (a : Q) :
  Forall (fun c => exists x, c !! i = Some x /\ withinUnit x) channels ->
  exists s,
    foldl (fun sum channelData =>
             sample_add sum (f32_get channelData (Z.of_nat i)))
          (Num a) channels = Num s /\
    a - inject_Z (Z.of_nat (length channels)) <= s /\
    s <= a + inject_Z (Z.of_nat (length channels)).
Proof.
  intros H. revert a.
  induction H as [|c channels (x & Hx & q & -> & Hlo & Hhi) _ IH]; intros a.
  - exists a. cbn [foldl length]. change (inject_Z (Z.of_nat 0)) with 0.
    split; [done|]. split; lra.
  - cbn [foldl]. rewrite (f32_get_lookup _ _ _ Hx). cbn [sample_add].
    destruct (IH (a + q)) as (s & Hs & Hslo & Hshi). exists s.
    split; [done|]. cbn [length]. rewrite Nat2Z.inj_succ.
    unfold Z.succ. rewrite inject_Z_plus. change (inject_Z 1) with 1.
    split; lra.
Qed.

(** X17. The downmix does not leave the nominal range: when every channel
    of the decoded audio has the length of the buffer and holds samples
    between -1 and 1, every sample of the mono signal lies between -1 and 1
    as well, so the downmix by itself never clips. *)
Theorem downmix_stays_within_unit (originalBuffer : AudioBuffer.t) :
  Forall (fun c => length c = AudioBuffer.length originalBuffer /\
                   Forall withinUnit c)
         (AudioBuffer.channels originalBuffer) ->
  Forall withinUnit
         (downmixToMono originalBuffer
            (replicate (AudioBuffer.length originalBuffer) (Num 0))).
Proof.
  intros Hall.
  destruct (decide (AudioBuffer.numberOfChannels originalBuffer = 1%nat))
    as [Hn|Hn].
  - unfold AudioBuffer.numberOfChannels in Hn.
    destruct (AudioBuffer.channels originalBuffer) as [|c [|c' l]] eqn:Hch;
      try done.
    rewrite (downmixToMono_mono _ c Hch).
    by inversion Hall as [|? ? [_ Hc] _].
  - apply Forall_lookup. intros i x Hx.
    assert (Hi : (i < AudioBuffer.length originalBuffer)%nat).
    { apply lookup_lt_Some in Hx. by rewrite downmixToMono_length in Hx. }
    rewrite downmixToMono_lookup in Hx by done. injection Hx as <-.
    destruct (channelSum_bounds (AudioBuffer.channels originalBuffer) i 0)
      as (s & Hs & Hlo & Hhi).
    { eapply Forall_impl; [exact Hall|]. intros c [Hlen Hc].
      destruct (lookup_lt_is_Some_2 c i) as [y Hy]; [lia|].
      exists y. split; [done|].
      rewrite Forall_lookup in Hc. by eapply Hc. }
    unfold channelSum. rewrite Hs. cbn [sample_div f32_store].
    fold (AudioBuffer.numberOfChannels originalBuffer) in Hlo, Hhi.
    set (n := inject_Z (Z.of_nat (AudioBuffer.numberOfChannels originalBuffer)))
      in *.
    assert (Hpos : 0 < n).
    { subst n. change 0 with (inject_Z 0). rewrite <- Zlt_Qlt.
      unfold AudioBuffer.numberOfChannels, AudioBuffer.length in *.
      destruct (AudioBuffer.channels originalBuffer); simpl in *; lia. }
    exists (ToFloat32 (s / n)). split; [done|]. apply ToFloat32_unit.
    + apply Qle_shift_div_l; [done|]. lra.
    + apply Qle_shift_div_r; [done|]. lra.
Qed.

Lemma downmix_stays_within_unit_witness :
  let originalBuffer :=
    AudioBuffer.mk 44100 [[Num 1; Num (-1)]; [Num 0.5; Num (-1)]] in
  Forall withinUnit
         (downmixToMono originalBuffer
            (replicate (AudioBuffer.length originalBuffer) (Num 0))).
Proof.
  intros originalBuffer.
  apply (downmix_stays_within_unit originalBuffer).
  repeat constructor; eexists; (split; [reflexivity|]);
    split; vm_compute; discriminate.
Defined.

(** ** Numbers as text *)

Lemma digitsPrefix_uint (d : Decimal.uint) (acc : nat) (rest : string) :
  startsWithDigit rest = false ->
  digitsPrefix (Some (Z.of_nat acc)) (NilEmpty.string_of_uint d ++ rest)
  = Some (Z.of_nat (Nat.of_uint_acc d acc)).
Proof.
  intros Hrest. revert acc.
  induction d as [|d IH|d IH|d IH|d IH|d IH|d IH|d IH|d IH|d IH|d IH];
    intros acc;
    cbn [NilEmpty.string_of_uint append Nat.of_uint_acc digitsPrefix];
    [ destruct rest as [|c r]; [done|]; simpl in Hrest;
      cbn [digitsPrefix]; by rewrite Hrest
    | .. ];
    match goal with
    | |- context [isDigit ?c] => change (isDigit c) with true
    end; cbv iota; rewrite <- IH; do 2 f_equal; cbn [default];
    rewrite Nat.tail_mul_spec;
    match goal with
    | |- context [nat_of_ascii ?c] =>
        let v := eval vm_compute in (Z.of_nat (nat_of_ascii c)) in
        change (Z.of_nat (nat_of_ascii c)) with v
    end; unfold id; lia.
Qed.

Lemma to_uint_not_Nil (n : nat) : Nat.to_uint n <> Decimal.Nil.
Proof.
  intros H. pose proof (Unsigned.of_to n) as Hn. rewrite H in Hn.
  simpl in Hn. subst n. discriminate H.
Qed.

Lemma natToString_starts (n : nat) (rest : string) :
  startsWithDigit (natToString n ++ rest) = true.
Proof.
  unfold natToString. pose proof (to_uint_not_Nil n) as H.
  by destruct (Nat.to_uint n).
Qed.

Lemma digitsPrefix_fresh (s : string) :
  startsWithDigit s = true -> digitsPrefix None s = digitsPrefix (Some 0%Z) s.
Proof. destruct s as [|c r]; [done|]. simpl. by intros ->. Qed.

Lemma natToString_reads_back (n : nat) (rest : string) :
  startsWithDigit rest = false ->
  digitsPrefix (Some 0%Z) (natToString n ++ rest) = Some (Z.of_nat n).
Proof.
  intros Hrest. unfold natToString.
  rewrite (digitsPrefix_uint _ 0 rest Hrest).
  change (Nat.of_uint_acc (Nat.to_uint n) 0) with (Nat.of_uint (Nat.to_uint n)).
  by rewrite Unsigned.of_to.
Qed.

Lemma allDigits_app (s t : string) :
  allDigits (s ++ t) = allDigits s && allDigits t.
Proof.
  induction s as [|c r IH]; [done|]. simpl. rewrite IH.
  by rewrite andb_assoc.
Qed.

Lemma allDigits_uint (d : Decimal.uint) :
  allDigits (NilEmpty.string_of_uint d) = true.
Proof. induction d; simpl; [done|..]; exact IHd. Qed.

(** The padding that [padStart(n, "0")] puts in front. *)
Lemma zeros_spec (k : nat) (r : string) :
  r = "0"%string \/ r = EmptyString ->
  allDigits (fillString k "0" r) = true /\
  String.length (fillString k "0" r) = k /\
  forall s, digitsPrefix (Some 0%Z) (fillString k "0" r ++ s)
            = digitsPrefix (Some 0%Z) s.
Proof.
  revert r. induction k as [|k IH]; intros r Hr; [done|].
  destruct (IH EmptyString (or_intror eq_refl)) as (Ha & Hl & Hd).
  destruct Hr as [-> | ->]; cbn [fillString]; simpl;
    (split; [exact Ha|]); (split; [by rewrite Hl|]); exact Hd.
Qed.

Lemma length_app_string (s t : string) :
  String.length (s ++ t) = (String.length s + String.length t)%nat.
Proof. induction s as [|c r IH]; [done|]. simpl. by rewrite IH. Qed.

Lemma app_assoc_string (s t u : string) :
  ((s ++ t) ++ u = s ++ (t ++ u))%string.
Proof. induction s as [|c r IH]; [done|]. simpl. by rewrite IH. Qed.

Lemma padded_number (width n : nat) :
  allDigits (padStart width "0" (natToString n)) = true /\
  String.length (padStart width "0" (natToString n))
  = Nat.max width (String.length (natToString n)) /\
  forall rest, startsWithDigit rest = false ->
    parseInt (padStart width "0" (natToString n) ++ rest) = Some (Z.of_nat n).
Proof.
  unfold padStart.
  destruct (zeros_spec (width - String.length (natToString n)) "0"
                       (or_introl eq_refl)) as (Ha & Hl & Hd).
  split; [|split].
  - rewrite allDigits_app, Ha. unfold natToString. apply allDigits_uint.
  - rewrite length_app_string, Hl. lia.
  - intros rest Hrest. unfold parseInt. rewrite app_assoc_string.
    rewrite digitsPrefix_fresh.
    + rewrite Hd. by apply natToString_reads_back.
    + destruct (width - String.length (natToString n))%nat; [|done].
      apply natToString_starts.
Qed.

(** X18. The name under which a segment is downloaded is [segment_], then
    the id in decimal digits, at least three of them, then [.wav]; reading
    the digits back with [parseInt] gives the id. *)
Theorem download_name_spells_the_id (segment : AudioSegment.t) :
  exists digits,
    downloadName segment = ("segment_" ++ digits ++ ".wav")%string /\
    allDigits digits = true /\
    (3 <= String.length digits)%nat /\
    parseInt (digits ++ ".wav") = Some (Z.of_nat (AudioSegment.id segment)).
Proof.
  destruct (padded_number 3 (AudioSegment.id segment)) as (Ha & Hl & Hp).
  exists (padStart 3 "0" (natToString (AudioSegment.id segment))).
  split; [done|]. split; [exact Ha|]. split; [lia|]. by apply Hp.
Qed.

(** ** formatTime *)

Lemma Qfloor_unique (x : Q) (z : Z) :
  inject_Z z <= x -> x < inject_Z z + 1 -> Qfloor x = z.
Proof.
  intros H1 H2. destruct (Qfloor_bounds x) as [F1 F2].
  apply Z.le_antisymm; apply inject_Z_lt_inv; lra.
Qed.

Lemma clock_split (seconds : Q) :
  0 <= seconds ->
  Qfloor (seconds / 60) = (Qfloor seconds / 60)%Z /\
  Qfloor (Qrem seconds 60) = (Qfloor seconds mod 60)%Z.
Proof.
  intros Hpos.
  assert (Hy : seconds == 60 * (seconds / 60)) by (field; discriminate).
  assert (Hy0 : 0 <= seconds / 60) by lra.
  unfold Qrem, Qtrunc. apply Qle_bool_iff in Hy0 as Hb. rewrite Hb. clear Hb.
  destruct (Qfloor_bounds (seconds / 60)) as [M1 M2].
  destruct (Qfloor_bounds seconds) as [F1 F2].
  set (m := Qfloor (seconds / 60)) in *. set (F := Qfloor seconds) in *.
  assert (Hlo : (60 * m <= F)%Z).
  { apply inject_Z_lt_inv. rewrite inject_Z_mult.
    change (inject_Z 60) with 60. lra. }
  assert (Hhi : (F <= 60 * m + 59)%Z).
  { apply inject_Z_lt_inv. rewrite inject_Z_plus, inject_Z_mult.
    change (inject_Z 60) with 60. change (inject_Z 59) with 59. lra. }
  assert (Hdiv : (F / 60 = m)%Z).
  { symmetry. apply (Z.div_unique F 60 m (F - 60 * m)); lia. }
  split; [done|].
  rewrite (Qfloor_unique _ (F - 60 * m)).
  - rewrite Z.mod_eq by lia. by rewrite Hdiv.
  - rewrite inject_Z_sub, inject_Z_mult. change (inject_Z 60) with 60. lra.
  - rewrite inject_Z_sub, inject_Z_mult. change (inject_Z 60) with 60. lra.
Qed.

Lemma below_sixty_is_short (s : nat) :
  (s < 60)%nat -> (String.length (natToString s) <= 2)%nat.
Proof.
  intros Hs.
  assert (H : forallb (fun s => String.length (natToString s) <=? 2)%nat
                      (seq 0 60) = true) by (vm_compute; reflexivity).
  rewrite forallb_forall in H. apply Nat.leb_le, H, in_seq. lia.
Qed.

(** X19. For a time of zero or more, [formatTime] shows the whole seconds
    of the time split into minutes and a remainder below sixty: the minutes
    in decimal, a colon, and the remainder on exactly two digits. The
    fraction of a second is dropped, never rounded up. *)
Theorem formatTime_is_minutes_and_seconds (seconds : Q) :
  0 <= seconds ->
  exists m s : nat,
    Qfloor seconds = (60 * Z.of_nat m + Z.of_nat s)%Z /\
    (s < 60)%nat /\
    formatTime seconds
    = (natToString m ++ ":" ++ padStart 2 "0" (natToString s))%string /\
    String.length (padStart 2 "0" (natToString s)) = 2%nat /\
    parseInt (padStart 2 "0" (natToString s)) = Some (Z.of_nat s).
Proof.
  intros Hpos. destruct (clock_split seconds Hpos) as [Hm Hs].
  assert (HF : (0 <= Qfloor seconds)%Z).
  { rewrite <- (Qfloor_Z 0). by apply Qfloor_resp_le. }
  exists (Z.to_nat (Qfloor seconds / 60)), (Z.to_nat (Qfloor seconds mod 60)).
  pose proof (Z.mod_pos_bound (Qfloor seconds) 60 eq_refl) as Hmod.
  pose proof (Z.div_pos (Qfloor seconds) 60 HF eq_refl) as Hdiv.
  assert (Hlt : (Z.to_nat (Qfloor seconds mod 60) < 60)%nat) by lia.
  split; [|split; [exact Hlt|split; [|split]]].
  - rewrite !Z2Nat.id by lia. apply Z.div_mod. lia.
  - unfold formatTime. cbv zeta. rewrite Hm, Hs. unfold numberToString.
    destruct (Z.ltb_spec (Qfloor seconds / 60) 0) as [?|_]; [lia|].
    destruct (Z.ltb_spec (Qfloor seconds mod 60) 0) as [?|_]; [lia|]. done.
  - destruct (padded_number 2 (Z.to_nat (Qfloor seconds mod 60)))
      as (_ & -> & _).
    pose proof (below_sixty_is_short _ Hlt). lia.
  - destruct (padded_number 2 (Z.to_nat (Qfloor seconds mod 60)))
      as (_ & _ & Hp).
    specialize (Hp EmptyString eq_refl).
    assert (Hnil : forall s : string, (s ++ "")%string = s)
      by (induction s as [|c r IH]; [done|]; simpl; by rewrite IH).
    by rewrite Hnil in Hp.
Qed.

Lemma formatTime_is_minutes_and_seconds_witness :
  0 <= 251 # 2 /\
  exists m s : nat,
    Qfloor (251 # 2) = (60 * Z.of_nat m + Z.of_nat s)%Z /\
    (s < 60)%nat /\
    formatTime (251 # 2)
    = (natToString m ++ ":" ++ padStart 2 "0" (natToString s))%string /\
    String.length (padStart 2 "0" (natToString s)) = 2%nat /\
    parseInt (padStart 2 "0" (natToString s)) = Some (Z.of_nat s).
Proof.
  assert (H : 0 <= 251 # 2) by (vm_compute; discriminate).
  split; [exact H|]. exact (formatTime_is_minutes_and_seconds (251 # 2) H).
Defined.

(** ** transcribeEntireAudio *)

Lemma copyFloat32_id (a : list sample) : copyFloat32 a = a.
Proof.
  unfold copyFloat32.
  rewrite (foldl_store_replicate (fun i => f32_get a (Z.of_nat i))).
  apply list_eq. intros k. rewrite list_lookup_fmap.
  destruct (a !! k) as [x|] eqn:Hk.
  - rewrite lookup_seq_lt by (by eapply lookup_lt_Some). simpl.
    f_equal. by apply f32_get_lookup.
  - rewrite lookup_seq_ge; [done|]. by apply lookup_ge_None.
Qed.

Lemma reachable_idle rendered app :
  reachable rendered app ->
  App.isProcessing app = false /\
  (forall b, App.audioBuffer app = Some b -> App.audioFile app = true).
Proof.
  induction 1 as [|app decoded _ [IHp IHf]
                  |app value _ [IHp IHf] Hv
                  |app whisper _ [IHp IHf]].
  - done.
  - unfold convertAudioTo16kMono.
    by destruct (decoded ≫= convertedBuffer rendered).
  - done.
  - destruct (processAudio_cases app whisper)
      as [-> | (ab & T & out & Hab & _ & _ & ->)]; [done|]. done.
Qed.

Section TranscriptionFacts.

Variable whisperPipeline : list sample -> option Transcription.

(** With a pipeline, no call under way and a recording stored, the call
    returns what the pipeline made of channel 0 when that has text, and the
    empty transcription otherwise. *)
Lemma transcribeEntireAudio_loaded tr audioBuffer audioData :
  pipelineLoaded tr = true ->
  transcriptionInProgress tr = false ->
  (transcriptionDepth tr <= 1)%Z ->
  AudioBuffer.getChannelData audioBuffer 0 = Some audioData ->
  snd (transcribeEntireAudio whisperPipeline tr (Some audioBuffer))
  = Some match whisperPipeline audioData with
         | Some result => if hasText result then result else emptyTranscription
         | None => emptyTranscription
         end.
Proof.
  intros Hl Hp Hd Hch. unfold transcribeEntireAudio, whisperTranscription.
  rewrite Hp, Hl. cbv zeta.
  destruct (Z.ltb_spec 2 (transcriptionDepth tr + 1)) as [?|_]; [lia|].
  cbn [mbind option_bind]. rewrite Hch. cbn [negb].
  rewrite !copyFloat32_id.
  destruct (whisperPipeline audioData) as [result|]; [|done].
  by destruct (hasText result).
Qed.

(** X20. A call of [transcribeEntireAudio] that finds no other call under
    way leaves the in-progress flag cleared however it ends, keeps the
    pipeline, and leaves the depth counter as it found it when it returns
    and at zero when it throws. *)
Theorem transcription_guards_are_released
    (tr : Transcriber) (audioBuffer : option AudioBuffer.t) :
  transcriptionInProgress tr = false ->
  let out := transcribeEntireAudio whisperPipeline tr audioBuffer in
  transcriptionInProgress (fst out) = false /\
  pipelineLoaded (fst out) = pipelineLoaded tr /\
  transcriptionDepth (fst out)
  = match snd out with
    | Some _ => transcriptionDepth tr
    | None => 0%Z
    end.
Proof.
  intros Hp. unfold transcribeEntireAudio. rewrite Hp. cbv zeta.
  destruct (2 <? transcriptionDepth tr + 1)%Z; [done|].
  destruct (audioBuffer ≫= _) as [audioData|]; [|done].
  destruct (pipelineLoaded tr); [|done].
  destruct (whisperTranscription _ _ _) as [result|];
    [destruct (hasText result)|];
    cbn [fst snd transcriptionInProgress pipelineLoaded transcriptionDepth];
    (split; [done|]); (split; [done|]); lia.
Qed.

(** X21. A run of [processAudio] on a stored recording, with no
    transcription under way: when no pipeline is loaded the run changes
    nothing; when the pipeline raises or returns blank text the run ends
    with an empty list of segments, replacing those of an earlier run; and
    when the pipeline returns text the run is the one on that result. The
    pipeline receives the samples of channel 0 of the stored buffer. *)
Theorem failed_transcription_empties_the_results
    (rendered : AudioBuffer.t -> nat -> sample) (app : App.t)
    (tr : Transcriber) (audioBuffer : AudioBuffer.t)
    (audioData : list sample) :
  reachable rendered app ->
  App.audioBuffer app = Some audioBuffer ->
  AudioBuffer.getChannelData audioBuffer 0 = Some audioData ->
  transcriptionInProgress tr = false ->
  (transcriptionDepth tr <= 1)%Z ->
  let whisper :=
    snd (transcribeEntireAudio whisperPipeline tr (App.audioBuffer app)) in
  (pipelineLoaded tr = false -> processAudio app whisper = app) /\
  (pipelineLoaded tr = true ->
   (forall result, whisperPipeline audioData = Some result ->
                   hasText result = false) ->
   App.segments (processAudio app whisper) = []) /\
  (pipelineLoaded tr = true ->
   forall result, whisperPipeline audioData = Some result ->
                  hasText result = true ->
                  processAudio app whisper = processAudio app (Some result)).
Proof.
  intros Hreach Hab Hch Hp Hd whisper.
  destruct (reachable_idle rendered app Hreach) as [Hidle Hfile].
  specialize (Hfile _ Hab).
  split; [|split].
  - intros Hl. subst whisper. unfold transcribeEntireAudio.
    rewrite Hp, Hl, Hab. cbv zeta.
    destruct (Z.ltb_spec 2 (transcriptionDepth tr + 1)) as [?|_]; [lia|].
    cbn [mbind option_bind]. rewrite Hch. cbn [snd].
    unfold processAudio. by rewrite Hfile, Hidle, Hab.
  - intros Hl Hblank. subst whisper.
    rewrite Hab, (transcribeEntireAudio_loaded tr _ _ Hl Hp Hd Hch).
    assert (Hempty : match whisperPipeline audioData with
                     | Some result =>
                         if hasText result then result else emptyTranscription
                     | None => emptyTranscription
                     end = emptyTranscription).
    { destruct (whisperPipeline audioData) as [result|] eqn:Hr; [|done].
      by rewrite (Hblank result eq_refl). }
    rewrite Hempty. unfold processAudio. rewrite Hfile, Hidle, Hab. done.
  - intros Hl result Hr Ht. subst whisper.
    rewrite Hab, (transcribeEntireAudio_loaded tr _ _ Hl Hp Hd Hch).
    by rewrite Hr, Ht.
Qed.

End TranscriptionFacts.

Lemma transcription_guards_are_released_witness :
  let whisperPipeline := fun _ : list sample => @None Transcription in
  let tr := Build_Transcriber true false 0 in
  let out :=
    transcribeEntireAudio whisperPipeline tr
                          (Some (AudioBuffer.mk 16000 [[Num 0.5; Num 0.25]])) in
  transcriptionInProgress (fst out) = false /\
  pipelineLoaded (fst out) = pipelineLoaded tr /\
  transcriptionDepth (fst out)
  = match snd out with
    | Some _ => transcriptionDepth tr
    | None => 0%Z
    end.
Proof.
  intros whisperPipeline tr.
  apply (transcription_guards_are_released whisperPipeline tr). reflexivity.
Defined.

Lemma failed_transcription_empties_the_results_witness :
  let whisperPipeline := fun _ : list sample => @None Transcription in
  let tr := Build_Transcriber true false 0 in
  let audioBuffer := AudioBuffer.mk 16000 [[Num 0.5; Num 0.25]] in
  let app := convertAudioTo16kMono heldFrame newApp (Some audioBuffer) in
  let whisper :=
    snd (transcribeEntireAudio whisperPipeline tr (App.audioBuffer app)) in
  (pipelineLoaded tr = false -> processAudio app whisper = app) /\
  (pipelineLoaded tr = true ->
   (forall result, whisperPipeline [Num 0.5; Num 0.25] = Some result ->
                   hasText result = false) ->
   App.segments (processAudio app whisper) = []) /\
  (pipelineLoaded tr = true ->
   forall result, whisperPipeline [Num 0.5; Num 0.25] = Some result ->
                  hasText result = true ->
                  processAudio app whisper = processAudio app (Some result)).
Proof.
  intros whisperPipeline tr audioBuffer app.
  apply (failed_transcription_empties_the_results
           whisperPipeline heldFrame app tr audioBuffer [Num 0.5; Num 0.25]).
  - apply reach_upload, reach_new.
  - vm_compute. reflexivity.
  - reflexivity.
  - reflexivity.
  - vm_compute. discriminate.
Defined.

(** ** What the application stores and offers for download *)

Lemma floor_step_by (a b : Q) (k : Z) :
  a + inject_Z k <= b -> (Qfloor a + k <= Qfloor b)%Z.
Proof.
  intros H. destruct (Qfloor_bounds a) as [Ha1 Ha2].
  destruct (Qfloor_bounds b) as [Hb1 Hb2].
  apply inject_Z_lt_inv. rewrite inject_Z_plus. lra.
Qed.

Lemma second_has_16000_frames (segment : Segment.t) :
  1 <= Segment.endTime segment - Segment.startTime segment ->
  (16000 <= segmentFrames 16000 segment)%Z.
Proof.
  intros Hd. unfold segmentFrames.
  pose proof (floor_step_by (Segment.startTime segment * inject_Z 16000)
                            (Segment.endTime segment * inject_Z 16000) 16000)
    as H.
  lapply H; [lia|]. change (inject_Z 16000) with 16000. lra.
Qed.

Lemma reachable_ids rendered app k a :
  reachable rendered app ->
  App.segments app !! k = Some a -> AudioSegment.id a = (k + 1)%nat.
Proof.
  intros Hreach. revert k a.
  induction Hreach as [|app decoded Hr IH|app value Hr IH Hv|app whisper Hr IH];
    intros k a Ha.
  - done.
  - apply (IH k a). revert Ha. unfold convertAudioTo16kMono.
    by destruct (decoded ≫= convertedBuffer rendered).
  - by apply (IH k a).
  - destruct (processAudio_cases app whisper)
      as [Heq | (ab & T & out & Hab & _ & Hout & Heq)];
      rewrite Heq in Ha; [by apply (IH k a)|].
    cbn [App.segments] in Ha.
    by destruct (extracted_lookup _ _ _ _ _ Hout Ha) as (d & Hd & ->).
Qed.

(** X22. In every state of the application each stored segment lasts a
    second or more, its duration being its end minus its start, and its
    buffer holds at least 16000 frames: the slider cannot go below one
    second and the stored recording is at 16000 Hz. *)
Theorem stored_segments_last_a_second
    (rendered : AudioBuffer.t -> nat -> sample) (app : App.t) :
  reachable rendered app ->
  Forall (fun a =>
            1 <= AudioSegment.duration a /\
            AudioSegment.duration a
            = AudioSegment.endTime a - AudioSegment.startTime a /\
            (16000 <= Z.of_nat (AudioBuffer.length (AudioSegment.buffer a)))%Z)
         (App.segments app).
Proof.
  induction 1 as [|app decoded Hr IH|app value Hr IH Hv|app whisper Hr IH].
  - constructor.
  - unfold convertAudioTo16kMono.
    by destruct (decoded ≫= convertedBuffer rendered).
  - exact IH.
  - destruct (processAudio_cases app whisper)
      as [-> | (ab & T & out & Hab & _ & Hout & ->)]; [exact IH|].
    cbn [App.segments]. apply Forall_lookup. intros k a Ha.
    destruct (extracted_lookup _ _ _ _ _ Hout Ha) as (d & Hd & ->).
    destruct (reachable_inv rendered app Hr) as (Hb & _ & Hmin).
    destruct (Hb ab Hab) as [Hn Hrate].
    pose proof (findSegments_Forall (App.minSegmentDuration app) T) as Hall.
    rewrite Forall_lookup in Hall. specialize (Hall k d Hd).
    unfold lastsAtLeast in Hall. destruct Hmin as [Hmin _].
    assert (Hlong : 1 <= Segment.endTime d - Segment.startTime d) by lra.
    split; [exact Hlong|]. split; [done|].
    rewrite slicedSegment_length by lia. rewrite Hrate.
    pose proof (second_has_16000_frames d Hlong). lia.
Qed.

Lemma stored_segments_last_a_second_witness :
  let originalBuffer :=
    AudioBuffer.mk 44100 [[Num 0.5; Num 0.25; Num 0; Num (-0.25)];
                          [Num 0.5; Num 0.75; Num 1; Num 0.25]] in
  let words := [Word.mk " 105" (0, 0.5); Word.mk " hello" (0.5, 1);
                Word.mk " world" (1.25, 2.5)] in
  let app :=
    processAudio (convertAudioTo16kMono heldFrame newApp (Some originalBuffer))
                 (Some (Build_Transcription "105 hello world" (Some words))) in
  Forall (fun a =>
            1 <= AudioSegment.duration a /\
            AudioSegment.duration a
            = AudioSegment.endTime a - AudioSegment.startTime a /\
            (16000 <= Z.of_nat (AudioBuffer.length (AudioSegment.buffer a)))%Z)
         (App.segments app).
Proof.
  intros originalBuffer words app.
  apply (stored_segments_last_a_second heldFrame app).
  apply reach_process, reach_upload, reach_new.
Defined.

Lemma append_cancel_l (p s t : string) : (p ++ s = p ++ t)%string -> s = t.
Proof.
  induction p as [|c r IH]; [done|]. simpl. intros H. apply IH. congruence.
Qed.

Lemma downloadName_inj (a b : AudioSegment.t) :
  downloadName a = downloadName b -> AudioSegment.id a = AudioSegment.id b.
Proof.
  unfold downloadName. intros H. apply append_cancel_l in H as H'.
  destruct (padded_number 3 (AudioSegment.id a)) as (_ & _ & Hpa).
  destruct (padded_number 3 (AudioSegment.id b)) as (_ & _ & Hpb).
  specialize (Hpa ".wav"%string eq_refl).
  specialize (Hpb ".wav"%string eq_refl).
  rewrite H' in Hpa. rewrite Hpa in Hpb. injection Hpb. lia.
Qed.

(** X23. In every state of the application a download of a stored segment
    succeeds: the browser is handed a file of 44 bytes and two bytes per
    frame that declares one channel at 16000 Hz, under the name built from
    the segment's id, and no two segments of the list are offered under the
    same name. *)
Theorem downloads_have_distinct_names
    (rendered : AudioBuffer.t -> nat -> sample) (app : App.t) :
  reachable rendered app ->
  (forall index segment,
     App.segments app !! index = Some segment ->
     exists bytes,
       downloadSegmentFile app index = Some (downloadName segment, bytes) /\
       length bytes
       = (44 + 2 * AudioBuffer.length (AudioSegment.buffer segment))%nat /\
       getUint16 bytes 22 = Some 1%Z /\
       wavSampleRate bytes = Some 16000%Z) /\
  (forall i j a b,
     App.segments app !! i = Some a -> App.segments app !! j = Some b ->
     downloadName a = downloadName b -> i = j).
Proof.
  intros Hreach. split.
  - intros index segment Hseg.
    destruct (reachable_inv rendered app Hreach) as (_ & Hall & _).
    rewrite Forall_lookup in Hall. destruct (Hall _ _ Hseg) as [Hn Hr].
    unfold downloadSegmentFile. rewrite Hseg. cbn [mbind option_bind].
    destruct (AudioBuffer.channels (AudioSegment.buffer segment))
      as [|channelData rest] eqn:Hch;
      [unfold AudioBuffer.numberOfChannels in Hn; by rewrite Hch in Hn|].
    assert (H0 : AudioBuffer.getChannelData (AudioSegment.buffer segment) 0
                 = Some channelData)
      by (unfold AudioBuffer.getChannelData; by rewrite Hch).
    rewrite (bufferToWav_closed _ _ H0), Hr. eexists. split; [reflexivity|].
    split; [|split].
    + rewrite length_app, length_wavHeader, length_wavPayload.
      unfold AudioBuffer.length. rewrite Hch. simpl. lia.
    + apply getUint16_header; [lia | reflexivity.. | lia].
    + unfold wavSampleRate. apply getUint32_header; first [lia | reflexivity].
  - intros i j a b Ha Hb Hname. apply downloadName_inj in Hname.
    rewrite (reachable_ids rendered app i a Hreach Ha) in Hname.
    rewrite (reachable_ids rendered app j b Hreach Hb) in Hname. lia.
Qed.

Lemma downloads_have_distinct_names_witness :
  let originalBuffer :=
    AudioBuffer.mk 44100 [[Num 0.5; Num 0.25; Num 0; Num (-0.25)];
                          [Num 0.5; Num 0.75; Num 1; Num 0.25]] in
  let words := [Word.mk " 105" (0, 0.5); Word.mk " hello" (0.5, 1);
                Word.mk " world" (1.25, 2.5)] in
  let app :=
    processAudio (convertAudioTo16kMono heldFrame newApp (Some originalBuffer))
                 (Some (Build_Transcription "105 hello world" (Some words))) in
  (forall index segment,
     App.segments app !! index = Some segment ->
     exists bytes,
       downloadSegmentFile app index = Some (downloadName segment, bytes) /\
       length bytes
       = (44 + 2 * AudioBuffer.length (AudioSegment.buffer segment))%nat /\
       getUint16 bytes 22 = Some 1%Z /\
       wavSampleRate bytes = Some 16000%Z) /\
  (forall i j a b,
     App.segments app !! i = Some a -> App.segments app !! j = Some b ->
     downloadName a = downloadName b -> i = j).
Proof.
  intros originalBuffer words app.
  apply (downloads_have_distinct_names heldFrame app).
  apply reach_process, reach_upload, reach_new.
Defined.

(** ** The drag counter *)

Lemma handleDrag_highlight (st : DragState) (e : DragEvent) :
  (0 <= dragCounter st)%Z ->
  (dragOver st = true <-> (0 < dragCounter st)%Z) ->
  (0 <= dragCounter (handleDrag st e))%Z ->
  (dragOver (handleDrag st e) = true <-> (0 < dragCounter (handleDrag st e))%Z).
Proof.
  intros Hc Hiff. destruct e; cbn [handleDrag dragCounter dragOver].
  - intros _. split; [lia|done].
  - done.
  - intros Hc'. destruct (Z.eqb_spec (dragCounter st - 1) 0) as [He|He].
    + split; [done|lia].
    + rewrite Hiff. lia.
  - intros _. split; [done|lia].
Qed.

(** X24. From a fresh page, as long as the counter of the drag handlers
    never goes below zero (no [dragleave] without its [dragenter]), the
    upload area is highlighted exactly when the counter is above zero; so it
    is cleared once every entered element has been left, and after a drop. *)
Theorem highlight_follows_the_drag_counter (events : list DragEvent) :
  Forall (fun st => (0 <= dragCounter st)%Z) (dragTrace newDragState events) ->
  let final := foldl handleDrag newDragState events in
  dragOver final = true <-> (0 < dragCounter final)%Z.
Proof.
  cbv zeta.
  assert (Hgen : forall st,
             (0 <= dragCounter st)%Z ->
             (dragOver st = true <-> (0 < dragCounter st)%Z) ->
             Forall (fun st => (0 <= dragCounter st)%Z) (dragTrace st events) ->
             dragOver (foldl handleDrag st events) = true
             <-> (0 < dragCounter (foldl handleDrag st events))%Z).
  { induction events as [|e rest IH]; intros st Hc Hiff Htrace; [done|].
    cbn [dragTrace] in Htrace. apply Forall_cons in Htrace as [Hc' Hrest].
    cbn [foldl]. apply IH; [exact Hc'| |exact Hrest].
    by apply handleDrag_highlight. }
  apply Hgen; [done|]. cbn. split; [done|lia].
Qed.

Lemma highlight_follows_the_drag_counter_witness :
  let events := [DragEnter; DragEnter; DragLeave; DragOver; DragLeave] in
  Forall (fun st => (0 <= dragCounter st)%Z) (dragTrace newDragState events) /\
  let final := foldl handleDrag newDragState events in
  (dragOver final = true <-> (0 < dragCounter final)%Z).
Proof.
  intros events.
  assert (H : Forall (fun st => (0 <= dragCounter st)%Z)
                     (dragTrace newDragState events))
    by (repeat constructor; vm_compute; discriminate).
  split; [exact H|].
  exact (highlight_follows_the_drag_counter events H).
Defined.

(** ** The older downmix *)

(** X25. The older [resampleTo16kMono] mixes a recording of two or more
    channels down from channels 0 and 1 alone: the mono buffer is the one it
    builds from those two channels, whatever the further channels hold, and
    each of its frames is the half sum of channels 0 and 1 as a 32-bit
    float: a fixed point of the store, within [M * 2^-23] of the half sum
    when the two samples are at most [M] in magnitude. *)
Theorem older_downmix_uses_two_channels
    (left right : list sample) (others : list (list sample)) (rate : Z)
    (i : nat) (x y M : Q) :
  left !! i = Some (Num x) -> right !! i = Some (Num y) ->
  Qabs x <= M -> Qabs y <= M -> 2 ^ (-126) <= M ->
  stereoDownmix (AudioBuffer.mk rate (left :: right :: others))
  = stereoDownmix (AudioBuffer.mk rate [left; right]) /\
  exists monoData m,
    stereoDownmix (AudioBuffer.mk rate (left :: right :: others))
    = Some (AudioBuffer.mk rate [monoData]) /\
    length monoData = length left /\
    monoData !! i = Some (Num m) /\
    ToFloat32 m == m /\
    Qabs (m - (x + y) / 2) <= M * 2 ^ (-23).
Proof.
  intros Hx Hy HxM HyM Hmin. split; [reflexivity|].
  destruct (stereoDownmix_lookup left right others rate i x y Hx Hy)
    as (monoData & Hout & Hlen & Hi).
  exists monoData, (ToFloat32 ((x + y) / 2)).
  split; [exact Hout|]. split; [exact Hlen|]. split; [exact Hi|].
  split; [apply ToFloat32_idempotent|].
  apply stored_near; [reflexivity| |exact Hmin].
  apply Qabs_Qle_condition in HxM, HyM. apply Qabs_Qle_condition.
  split.
  - apply Qle_shift_div_l; [reflexivity|]. lra.
  - apply Qle_shift_div_r; [reflexivity|]. lra.
Qed.

Lemma older_downmix_uses_two_channels_witness :
  stereoDownmix (AudioBuffer.mk 48000 [[Num 1]; [Num 0]; [Num (-1)]])
  = stereoDownmix (AudioBuffer.mk 48000 [[Num 1]; [Num 0]]) /\
  exists monoData m,
    stereoDownmix (AudioBuffer.mk 48000 [[Num 1]; [Num 0]; [Num (-1)]])
    = Some (AudioBuffer.mk 48000 [monoData]) /\
    length monoData = length [Num 1] /\
    monoData !! 0%nat = Some (Num m) /\
    ToFloat32 m == m /\
    Qabs (m - (1 + 0) / 2) <= 1 * 2 ^ (-23).
Proof.
  apply (older_downmix_uses_two_channels [Num 1] [Num 0] [[Num (-1)]] 48000
                                         0 1 0 1);
    first [reflexivity | vm_compute; discriminate].
Defined.
